(** * Virtual-memory simulator: a shallow embedding of [simulador_v3.py]

    The development embeds the class [MemoryManager] of
    [src/simulador_v3.py] (the translation engine: TLB, page table, frame
    allocation, FIFO and LRU replacement) together with the two helpers of
    [src/simulador_v2.py] that differ from it, and proves the properties
    of the specification about them.

    Conventions of the embedding:
    - a Python [int] is a [Z]; a list index (a frame number) is a [nat];
    - a [bytes] object is a [list byte];
    - the page table (a [dict] read by key only) is a [gmap Z PTE];
    - [uso_recente] (a [dict] iterated by [min], so insertion order
      matters) is an association list kept in insertion order;
    - methods are computations in a state-and-exception monad [M]; an
      exception ([sys.exit] included) aborts the computation. *)

From Stdlib Require Import ZArith String Ascii Lia.
From Stdlib.Strings Require Import Byte.
From stdpp Require Import base tactics option list gmap strings.

Local Open Scope Z_scope.

(** ** Python values and exceptions *)

(** The messages printed before [sys.exit(1)]. *)
Inductive exit_msg : Type :=
| ErroAbrirBackingStore
| ErroLerPagina (pagina : Z)
| QuadroSemDados (quadro : nat)
| AlgoritmoInvalido
| QuadrosNaoSuportados
| ArgumentoInvalido.

Inductive exn : Type :=
| SystemExit (msg : exit_msg)
| IndexError
| KeyError
| ValueError
| TypeError
| OSError.

Inductive result (A : Type) : Type :=
| Ok (a : A)
| Raise (e : exn).
Arguments Ok {A} a.
Arguments Raise {A} e.

(** [str.upper()] on ASCII text: of the characters below 128 it changes
    the letters a-z only.  The upper-casing of other characters (which
    can even give ASCII letters, as for a ligature or a dotless i) is not
    modelled, so [upper] is [str.upper()] on the strings that [isascii]
    accepts. *)
Definition upper_ascii (c : ascii) : ascii :=
  let n := nat_of_ascii c in
  if (97 <=? n)%nat && (n <=? 122)%nat then ascii_of_nat (n - 32) else c.

Fixpoint upper (s : string) : string :=
  match s with
  | EmptyString => EmptyString
  | String c s' => String (upper_ascii c) (upper s')
  end.

(** [str.isascii()]: every character is below 128. *)
Fixpoint isascii (s : string) : bool :=
  match s with
  | EmptyString => true
  | String c s' => (nat_of_ascii c <? 128)%nat && isascii s'
  end.

(** [l[i] = x]: Python raises [IndexError] out of range. *)
Definition py_setitem {A} (l : list A) (i : nat) (x : A) : result (list A) :=
  if decide (i < length l)%nat then Ok (<[i:=x]> l) else Raise IndexError.

(** [l.index(None)] guarded by [None in l]: the first free position. *)
Definition index_None (l : list (option Z)) : option nat :=
  fst <$> list_find (λ x, x = None) l.

(** A [dict] from pages to timestamps, in insertion order.  Assigning to a
    key that is present keeps its position; a new key goes last. *)
Fixpoint dict_set (k v : Z) (d : list (Z * Z)) : list (Z * Z) :=
  match d with
  | [] => [(k, v)]
  | (k', v') :: d' =>
      if decide (k' = k) then (k, v) :: d' else (k', v') :: dict_set k v d'
  end.

Definition dict_get (k : Z) (d : list (Z * Z)) : option Z :=
  snd <$> (snd <$> list_find (λ kv : Z * Z, kv.1 = k) d).

(** [del d[k]] raises [KeyError] when the key is absent. *)
Definition dict_del (k : Z) (d : list (Z * Z)) : result (list (Z * Z)) :=
  match dict_get k d with
  | Some _ => Ok (filter (λ kv : Z * Z, kv.1 ≠ k) d)
  | None => Raise KeyError
  end.

(** The loop of [min(d, key=d.get)]: the keys are visited in insertion
    order and the running best is replaced only by a strictly smaller
    timestamp, so the first minimal entry wins.  The keys of a [dict] are
    unique, so [d.get(k)] is the timestamp stored with [k]. *)
Fixpoint min_from (best : Z * Z) (d : list (Z * Z)) : Z * Z :=
  match d with
  | [] => best
  | kv :: d' => if kv.2 <? best.2 then min_from kv d' else min_from best d'
  end.

Definition py_min (d : list (Z * Z)) : result Z :=
  match d with
  | [] => Raise ValueError
  | kv :: d' => Ok (min_from kv d').1
  end.

(** ** The state of a [MemoryManager] *)

Record PTE : Type := { quadro : nat; valido : bool }.

Record TLBEntry : Type := { tlb_pagina : Z; tlb_quadro : nat }.

Global Instance PTE_eq_dec : EqDecision PTE.
Proof. solve_decision. Defined.
Global Instance TLBEntry_eq_dec : EqDecision TLBEntry.
Proof. solve_decision. Defined.

Definition page_size : Z := 256.
Definition offset_bits : Z := 8.
Definition tlb_size : nat := 16.

Record MemoryManager : Type := {
  num_quadros : nat;
  algoritmo : string;
  page_table : gmap Z PTE;
  tlb : list TLBEntry;
  quadros : list (option Z);
  physical_memory : list (option (list byte));
  fifo_queue : list Z;
  uso_recente : list (Z * Z);
  tlb_hits : Z;
  page_faults : Z;
  acessos : Z;
  clock : Z;
  backing_store : list byte
}.

Definition set_page_table (f : gmap Z PTE → gmap Z PTE) (s : MemoryManager) :=
  {| num_quadros := num_quadros s; algoritmo := algoritmo s;
     page_table := f (page_table s); tlb := tlb s; quadros := quadros s;
     physical_memory := physical_memory s; fifo_queue := fifo_queue s;
     uso_recente := uso_recente s; tlb_hits := tlb_hits s;
     page_faults := page_faults s; acessos := acessos s; clock := clock s;
     backing_store := backing_store s |}.

Definition set_tlb (f : list TLBEntry → list TLBEntry) (s : MemoryManager) :=
  {| num_quadros := num_quadros s; algoritmo := algoritmo s;
     page_table := page_table s; tlb := f (tlb s); quadros := quadros s;
     physical_memory := physical_memory s; fifo_queue := fifo_queue s;
     uso_recente := uso_recente s; tlb_hits := tlb_hits s;
     page_faults := page_faults s; acessos := acessos s; clock := clock s;
     backing_store := backing_store s |}.

Definition set_quadros (q : list (option Z)) (s : MemoryManager) :=
  {| num_quadros := num_quadros s; algoritmo := algoritmo s;
     page_table := page_table s; tlb := tlb s; quadros := q;
     physical_memory := physical_memory s; fifo_queue := fifo_queue s;
     uso_recente := uso_recente s; tlb_hits := tlb_hits s;
     page_faults := page_faults s; acessos := acessos s; clock := clock s;
     backing_store := backing_store s |}.

Definition set_physical_memory (m : list (option (list byte))) (s : MemoryManager) :=
  {| num_quadros := num_quadros s; algoritmo := algoritmo s;
     page_table := page_table s; tlb := tlb s; quadros := quadros s;
     physical_memory := m; fifo_queue := fifo_queue s;
     uso_recente := uso_recente s; tlb_hits := tlb_hits s;
     page_faults := page_faults s; acessos := acessos s; clock := clock s;
     backing_store := backing_store s |}.

Definition set_fifo_queue (q : list Z) (s : MemoryManager) :=
  {| num_quadros := num_quadros s; algoritmo := algoritmo s;
     page_table := page_table s; tlb := tlb s; quadros := quadros s;
     physical_memory := physical_memory s; fifo_queue := q;
     uso_recente := uso_recente s; tlb_hits := tlb_hits s;
     page_faults := page_faults s; acessos := acessos s; clock := clock s;
     backing_store := backing_store s |}.

Definition set_uso_recente (d : list (Z * Z)) (s : MemoryManager) :=
  {| num_quadros := num_quadros s; algoritmo := algoritmo s;
     page_table := page_table s; tlb := tlb s; quadros := quadros s;
     physical_memory := physical_memory s; fifo_queue := fifo_queue s;
     uso_recente := d; tlb_hits := tlb_hits s;
     page_faults := page_faults s; acessos := acessos s; clock := clock s;
     backing_store := backing_store s |}.

(** The three statistics and the clock, each incremented by one. *)
Definition incr_tlb_hits (s : MemoryManager) :=
  {| num_quadros := num_quadros s; algoritmo := algoritmo s;
     page_table := page_table s; tlb := tlb s; quadros := quadros s;
     physical_memory := physical_memory s; fifo_queue := fifo_queue s;
     uso_recente := uso_recente s; tlb_hits := tlb_hits s + 1;
     page_faults := page_faults s; acessos := acessos s; clock := clock s;
     backing_store := backing_store s |}.

Definition incr_page_faults (s : MemoryManager) :=
  {| num_quadros := num_quadros s; algoritmo := algoritmo s;
     page_table := page_table s; tlb := tlb s; quadros := quadros s;
     physical_memory := physical_memory s; fifo_queue := fifo_queue s;
     uso_recente := uso_recente s; tlb_hits := tlb_hits s;
     page_faults := page_faults s + 1; acessos := acessos s; clock := clock s;
     backing_store := backing_store s |}.

Definition incr_acessos_clock (s : MemoryManager) :=
  {| num_quadros := num_quadros s; algoritmo := algoritmo s;
     page_table := page_table s; tlb := tlb s; quadros := quadros s;
     physical_memory := physical_memory s; fifo_queue := fifo_queue s;
     uso_recente := uso_recente s; tlb_hits := tlb_hits s;
     page_faults := page_faults s; acessos := acessos s + 1;
     clock := clock s + 1; backing_store := backing_store s |}.

(** ** The monad of methods *)

Definition M (A : Type) : Type := MemoryManager → result (A * MemoryManager).

Definition ret {A} (a : A) : M A := λ s, Ok (a, s).

Definition bind {A B} (c : M A) (k : A → M B) : M B :=
  λ s, match c s with
       | Ok (a, s') => k a s'
       | Raise e => Raise e
       end.

Definition raise {A} (e : exn) : M A := λ _, Raise e.
Definition get_self : M MemoryManager := λ s, Ok (s, s).
Definition modify (f : MemoryManager → MemoryManager) : M unit := λ s, Ok (tt, f s).

(** A pure step that may raise. *)
Definition lift {A} (r : result A) : M A :=
  λ s, match r with Ok a => Ok (a, s) | Raise e => Raise e end.

Notation "x <- c ;; k" := (bind c (λ x, k))
  (at level 100, c at next level, right associativity).
Notation "c ;;; k" := (bind c (λ _, k))
  (at level 100, right associativity).

(** ** The methods of [MemoryManager] (simulador_v3.py) *)

(** [__init__]: the fields as the constructor assigns them, and the
    constructor itself; [fs] is the content of BACKING_STORE.bin, [None]
    when the file cannot be opened.  The policy is upper-cased and stored
    as it is.  The frame count is a [nat]: [[None] * n] is empty for
    [n <= 0], and [main] lets only 128 and 256 through. *)
Definition inicial (store : list byte) (num_quadros : nat) (algoritmo : string)
  : MemoryManager :=
  {| num_quadros := num_quadros;
     algoritmo := upper algoritmo;
     page_table := ∅;
     tlb := [];
     quadros := replicate num_quadros None;
     physical_memory := replicate num_quadros None;
     fifo_queue := [];
     uso_recente := [];
     tlb_hits := 0;
     page_faults := 0;
     acessos := 0;
     clock := 0;
     backing_store := store |}.

Definition init (fs : option (list byte)) (num_quadros : nat) (algoritmo : string)
  : result MemoryManager :=
  match fs with
  | None => Raise (SystemExit ErroAbrirBackingStore)
  | Some store => Ok (inicial store num_quadros algoritmo)
  end.

(** The bytes that [seek(pagina * page_size); read(page_size)] returns:
    at most [page_size] bytes, fewer at the end of the file.  Every read
    is preceded by its own [seek], so the file position is not part of
    the state; the file is never written. *)
Definition read_at (store : list byte) (pagina : Z) : list byte :=
  take (Z.to_nat page_size) (drop (Z.to_nat (pagina * page_size)) store).

Definition carrega_pagina (pagina : Z) : M (list byte) :=
  self <- get_self ;;
  if decide (pagina * page_size < 0) then raise OSError else
  let page_data := read_at (backing_store self) pagina in
  if decide (Z.of_nat (length page_data) ≠ page_size)
  then raise (SystemExit (ErroLerPagina pagina))
  else ret page_data.

(** The offsets on which [carrega_pagina] is the real [seek] and [read].
    A negative offset that fits the 64-bit file-offset type is refused
    with [OSError]; an offset up to [2^31 - 1] is accepted by every file
    system, also past the end of the file, where [read] returns no
    bytes.  Outside these bounds [seek] fails in other ways ([ValueError]
    beyond the offset type, [OSError] past the limit of the file system),
    which are not modelled; [acessar] of simulador_v3.py only asks for
    pages 0 to 255. *)
Definition offset_min : Z := - 2 ^ 63.
Definition offset_max : Z := 2 ^ 31 - 1.

Fixpoint buscar (pagina : Z) (t : list TLBEntry) : option nat :=
  match t with
  | [] => None
  | entrada :: t' =>
      if decide (tlb_pagina entrada = pagina) then Some (tlb_quadro entrada)
      else buscar pagina t'
  end.

Definition buscar_na_tlb (pagina : Z) : M (option nat) :=
  self <- get_self ;; ret (buscar pagina (tlb self)).

Definition atualiza_tlb (pagina : Z) (quadro : nat) : M unit :=
  self <- get_self ;;
  (if decide (tlb_size ≤ length (tlb self))%nat
   then modify (set_tlb (drop 1))
   else ret tt) ;;;
  modify (set_tlb (λ t, t ++ [ {| tlb_pagina := pagina; tlb_quadro := quadro |} ])).

Definition remover_da_tlb (pagina : Z) : M unit :=
  modify (set_tlb (filter (λ entrada, tlb_pagina entrada ≠ pagina))).

(** [self.page_table[pagina]['quadro']] *)
Definition page_table_getitem (pagina : Z) : M PTE :=
  self <- get_self ;;
  match page_table self !! pagina with
  | Some info => ret info
  | None => raise KeyError
  end.

(** The three statements that the free-frame branch (lines 123-125) and
    both replacement methods (lines 157-159 and 183-185) share word for
    word: read the page, store its bytes in the frame, record the frame's
    owner. *)
Definition instala (pagina : Z) (quadro : nat) : M unit :=
  page_data <- carrega_pagina pagina ;;
  self <- get_self ;;
  pm <- lift (py_setitem (physical_memory self) quadro (Some page_data)) ;;
  modify (set_physical_memory pm) ;;;
  self <- get_self ;;
  qs <- lift (py_setitem (quadros self) quadro (Some pagina)) ;;
  modify (set_quadros qs).

Definition substituicao_fifo (pagina_nova : Z) : M nat :=
  self <- get_self ;;
  match fifo_queue self with
  | [] => raise IndexError
  | pagina_a_substituir :: resto =>
      modify (set_fifo_queue resto) ;;;
      info <- page_table_getitem pagina_a_substituir ;;
      let quadro := quadro info in
      modify (set_page_table
                (<[pagina_a_substituir := {| quadro := quadro; valido := false |}]>)) ;;;
      remover_da_tlb pagina_a_substituir ;;;
      instala pagina_nova quadro ;;;
      self <- get_self ;;
      modify (set_fifo_queue (fifo_queue self ++ [pagina_nova])) ;;;
      ret quadro
  end.

Definition substituicao_lru (pagina_nova : Z) : M nat :=
  self <- get_self ;;
  pagina_a_substituir <- lift (py_min (uso_recente self)) ;;
  info <- page_table_getitem pagina_a_substituir ;;
  let quadro := quadro info in
  modify (set_page_table
            (<[pagina_a_substituir := {| quadro := quadro; valido := false |}]>)) ;;;
  remover_da_tlb pagina_a_substituir ;;;
  self <- get_self ;;
  d <- lift (dict_del pagina_a_substituir (uso_recente self)) ;;
  modify (set_uso_recente d) ;;;
  instala pagina_nova quadro ;;;
  self <- get_self ;;
  modify (set_uso_recente (dict_set pagina_nova (clock self) (uso_recente self))) ;;;
  ret quadro.

Definition tratar_page_fault (pagina : Z) : M nat :=
  self <- get_self ;;
  match index_None (quadros self) with
  | Some quadro =>
      instala pagina quadro ;;;
      self <- get_self ;;
      (if decide (algoritmo self = "FIFO"%string)
       then modify (set_fifo_queue (fifo_queue self ++ [pagina]))
       else if decide (algoritmo self = "LRU"%string)
       then modify (set_uso_recente (dict_set pagina (clock self) (uso_recente self)))
       else ret tt) ;;;
      ret quadro
  | None =>
      if decide (algoritmo self = "FIFO"%string) then substituicao_fifo pagina
      else if decide (algoritmo self = "LRU"%string) then substituicao_lru pagina
      else raise (SystemExit AlgoritmoInvalido)
  end.

(** The value of a byte as [bytes.__getitem__] gives it: 0..255. *)
Definition byte_value (b : byte) : Z := Z.of_N (Byte.to_N b).

(** The conversion of [ler_memoria]. *)
Definition signed (byte_value : Z) : Z :=
  if decide (byte_value > 127) then byte_value - 256 else byte_value.

(** [offset] comes from a mask, so it is never negative and Python's
    negative indexing does not arise. *)
Definition ler_memoria (quadro : nat) (offset : Z) : M Z :=
  self <- get_self ;;
  match physical_memory self !! quadro with
  | None => raise IndexError
  | Some None => raise TypeError
  | Some (Some page_data) =>
      match page_data !! Z.to_nat offset with
      | None => raise IndexError
      | Some b => ret (signed (byte_value b))
      end
  end.

(** The first lines of [acessar]: mask to 16 bits, then split. *)
Definition split (endereco_virtual : Z) : Z * Z :=
  let endereco_virtual := Z.land endereco_virtual 0xFFFF in
  let pagina := Z.shiftr endereco_virtual offset_bits in
  let offset := Z.land endereco_virtual (Z.shiftl 1 offset_bits - 1) in
  (pagina, offset).
Global Arguments split : simpl never.

Definition pagina_valida (pt : gmap Z PTE) (pagina : Z) : option nat :=
  match pt !! pagina with
  | Some info => if valido info then Some (quadro info) else None
  | None => None
  end.

Definition acessar (endereco_virtual : Z) : M (Z * Z) :=
  modify incr_acessos_clock ;;;
  let '(pagina, offset) := split endereco_virtual in
  na_tlb <- buscar_na_tlb pagina ;;
  quadro <-
    match na_tlb with
    | Some quadro => modify incr_tlb_hits ;;; ret quadro
    | None =>
        self <- get_self ;;
        match pagina_valida (page_table self) pagina with
        | Some quadro => atualiza_tlb pagina quadro ;;; ret quadro
        | None =>
            modify incr_page_faults ;;;
            quadro <- tratar_page_fault pagina ;;
            modify (set_page_table (<[pagina := {| quadro := quadro; valido := true |}]>)) ;;;
            atualiza_tlb pagina quadro ;;;
            ret quadro
        end
    end ;;
  self <- get_self ;;
  (if decide (algoritmo self = "LRU"%string)
   then modify (set_uso_recente (dict_set pagina (clock self) (uso_recente self)))
   else ret tt) ;;;
  let endereco_fisico := Z.lor (Z.shiftl (Z.of_nat quadro) offset_bits) offset in
  conteudo <- ler_memoria quadro offset ;;
  ret (endereco_fisico, conteudo).

(** The checks of [main] on its arguments, which run before the
    constructor: the frame count ([int(sys.argv[2])]) must be 128 or 256
    and the upper-cased policy must be FIFO or LRU. *)
Definition main_cria (fs : option (list byte)) (num_quadros : Z) (arg : string)
  : result MemoryManager :=
  if decide (num_quadros ≠ 128 ∧ num_quadros ≠ 256)
  then Raise (SystemExit QuadrosNaoSuportados)
  else
    let algoritmo_substituicao := upper arg in
    if decide (¬ (algoritmo_substituicao = "FIFO"%string ∨
                  algoritmo_substituicao = "LRU"%string))
    then Raise (SystemExit ArgumentoInvalido)
    else init fs (Z.to_nat num_quadros) algoritmo_substituicao.

(** A run: the calls of [acessar] in order, stopping at the first
    exception. *)
Fixpoint acessar_todos (enderecos : list Z) (s : MemoryManager)
  : result (list (Z * Z) * MemoryManager) :=
  match enderecos with
  | [] => Ok ([], s)
  | e :: es =>
      match acessar e s with
      | Raise x => Raise x
      | Ok (r, s') =>
          match acessar_todos es s' with
          | Raise x => Raise x
          | Ok (rs, s'') => Ok (r :: rs, s'')
          end
      end
  end.

(** ** The two helpers of simulador_v2.py that differ from simulador_v3.py *)

Module V2.

(** [obter_pagina]: no mask before the shift. *)
Definition obter_pagina (endereco_virtual : Z) : Z :=
  Z.shiftr endereco_virtual offset_bits.

Definition obter_offset (endereco_virtual : Z) : Z :=
  Z.land endereco_virtual (Z.shiftl 1 offset_bits - 1).

(** [ler_memoria]: an explicit test for an empty frame, and the byte
    returned as it is. *)
Definition ler_memoria (quadro : nat) (offset : Z) : M Z :=
  self <- get_self ;;
  match physical_memory self !! quadro with
  | None => raise IndexError
  | Some None => raise (SystemExit (QuadroSemDados quadro))
  | Some (Some page_data) =>
      match page_data !! Z.to_nat offset with
      | None => raise IndexError
      | Some b => ret (byte_value b)
      end
  end.

(** [acessar] of simulador_v2.py: the address is split by [obter_pagina]
    and [obter_offset], without a mask, and the byte is read by this
    version's [ler_memoria].  The other methods it calls are the same in
    both files. *)
Definition acessar (endereco_virtual : Z) : M (Z * Z) :=
  modify incr_acessos_clock ;;;
  let pagina := obter_pagina endereco_virtual in
  let offset := obter_offset endereco_virtual in
  na_tlb <- buscar_na_tlb pagina ;;
  quadro <-
    match na_tlb with
    | Some quadro => modify incr_tlb_hits ;;; ret quadro
    | None =>
        self <- get_self ;;
        match pagina_valida (page_table self) pagina with
        | Some quadro => atualiza_tlb pagina quadro ;;; ret quadro
        | None =>
            modify incr_page_faults ;;;
            quadro <- tratar_page_fault pagina ;;
            modify (set_page_table (<[pagina := {| quadro := quadro; valido := true |}]>)) ;;;
            atualiza_tlb pagina quadro ;;;
            ret quadro
        end
    end ;;
  self <- get_self ;;
  (if decide (algoritmo self = "LRU"%string)
   then modify (set_uso_recente (dict_set pagina (clock self) (uso_recente self)))
   else ret tt) ;;;
  let endereco_fisico := Z.lor (Z.shiftl (Z.of_nat quadro) offset_bits) offset in
  conteudo <- ler_memoria quadro offset ;;
  ret (endereco_fisico, conteudo).

(** The states of a run of simulador_v2.py. *)
Inductive reachable_v2 : MemoryManager → Prop :=
| reachable_v2_init fs n alg s :
    init fs n alg = Ok s → reachable_v2 s
| reachable_v2_acessar s endereco_virtual r s' :
    reachable_v2 s → acessar endereco_virtual s = Ok (r, s') → reachable_v2 s'.

End V2.

(** ** The effect of each method, as a function on states

    These are not part of the program: they name the state that a method
    leaves behind, and the lemmas below relate each method to them. *)

Definition push_tlb (pagina : Z) (quadro : nat) (t : list TLBEntry) : list TLBEntry :=
  (if decide (tlb_size ≤ length t)%nat then drop 1 t else t)
    ++ [ {| tlb_pagina := pagina; tlb_quadro := quadro |} ].

Definition loadable (store : list byte) (pagina : Z) : Prop :=
  0 ≤ pagina * page_size ∧ Z.of_nat (length (read_at store pagina)) = page_size.

Definition instalado (pagina : Z) (quadro : nat) (s : MemoryManager) : MemoryManager :=
  set_quadros (<[quadro := Some pagina]> (quadros s))
    (set_physical_memory
       (<[quadro := Some (read_at (backing_store s) pagina)]> (physical_memory s)) s).

Definition despejado (vitima : Z) (quadro : nat) (s : MemoryManager) : MemoryManager :=
  set_tlb (filter (λ entrada, tlb_pagina entrada ≠ vitima))
    (set_page_table (<[vitima := {| quadro := quadro; valido := false |}]>) s).

Definition registrado (pagina : Z) (s : MemoryManager) : MemoryManager :=
  if decide (algoritmo s = "FIFO"%string)
  then set_fifo_queue (fifo_queue s ++ [pagina]) s
  else if decide (algoritmo s = "LRU"%string)
  then set_uso_recente (dict_set pagina (clock s) (uso_recente s)) s
  else s.

Definition tocado (pagina : Z) (s : MemoryManager) : MemoryManager :=
  if decide (algoritmo s = "LRU"%string)
  then set_uso_recente (dict_set pagina (clock s) (uso_recente s)) s
  else s.

Definition mapeado (pagina : Z) (quadro : nat) (s : MemoryManager) : MemoryManager :=
  set_tlb (push_tlb pagina quadro)
    (set_page_table (<[pagina := {| quadro := quadro; valido := true |}]>) s).

(** The state after [substituicao_fifo] evicted [vitima] from [quadro]. *)
Definition fifo_substituido (pagina_nova vitima : Z) (quadro : nat) (s : MemoryManager) :=
  let s1 := instalado pagina_nova quadro
              (despejado vitima quadro (set_fifo_queue (tail (fifo_queue s)) s)) in
  set_fifo_queue (fifo_queue s1 ++ [pagina_nova]) s1.

(** The state after [substituicao_lru] evicted [vitima] from [quadro]. *)
Definition lru_substituido (pagina_nova vitima : Z) (quadro : nat) (s : MemoryManager) :=
  let s1 := despejado vitima quadro s in
  let s2 := instalado pagina_nova quadro
              (set_uso_recente (filter (λ kv : Z * Z, kv.1 ≠ vitima) (uso_recente s1)) s1) in
  set_uso_recente (dict_set pagina_nova (clock s2) (uso_recente s2)) s2.

(** The ways in which [tratar_page_fault] returns a frame. *)
Inductive falta (pagina : Z) (s : MemoryManager) : nat → MemoryManager → Prop :=
| falta_quadro_livre quadro :
    index_None (quadros s) = Some quadro →
    (quadro < length (physical_memory s))%nat →
    loadable (backing_store s) pagina →
    falta pagina s quadro (registrado pagina (instalado pagina quadro s))
| falta_fifo vitima resto info :
    index_None (quadros s) = None →
    algoritmo s = "FIFO"%string →
    fifo_queue s = vitima :: resto →
    page_table s !! vitima = Some info →
    (quadro info < length (physical_memory s))%nat →
    (quadro info < length (quadros s))%nat →
    loadable (backing_store s) pagina →
    falta pagina s (quadro info) (fifo_substituido pagina vitima (quadro info) s)
| falta_lru vitima info :
    index_None (quadros s) = None →
    algoritmo s = "LRU"%string →
    py_min (uso_recente s) = Ok vitima →
    page_table s !! vitima = Some info →
    is_Some (dict_get vitima (uso_recente s)) →
    (quadro info < length (physical_memory s))%nat →
    (quadro info < length (quadros s))%nat →
    loadable (backing_store s) pagina →
    falta pagina s (quadro info) (lru_substituido pagina vitima (quadro info) s).

(** The ways in which [acessar] finds the frame of a page. *)
Inductive resolve (pagina : Z) (s : MemoryManager) : nat → MemoryManager → Prop :=
| resolve_tlb_hit quadro :
    buscar pagina (tlb s) = Some quadro →
    resolve pagina s quadro (incr_tlb_hits s)
| resolve_tabela quadro :
    buscar pagina (tlb s) = None →
    pagina_valida (page_table s) pagina = Some quadro →
    resolve pagina s quadro (set_tlb (push_tlb pagina quadro) s)
| resolve_falta quadro s1 :
    buscar pagina (tlb s) = None →
    pagina_valida (page_table s) pagina = None →
    falta pagina (incr_page_faults s) quadro s1 →
    resolve pagina s quadro (mapeado pagina quadro s1).

(** ** Reachable states and the invariant *)

(** The states of a run: the state the constructor leaves, for any frame
    count, policy name and backing store, and then the state after each
    call of [acessar] that returns.  A call that raises ends the run, as
    in [main], where [sys.exit] and every exception but [ValueError]
    escape the loop and [ValueError] (raised by [min] on an empty [dict])
    cannot arise with the 128 or 256 frames that [main] accepts. *)
Inductive reachable : MemoryManager → Prop :=
| reachable_init fs n alg s :
    init fs n alg = Ok s → reachable s
| reachable_acessar s endereco_virtual r s' :
    reachable s → acessar endereco_virtual s = Ok (r, s') → reachable s'.

(** The part of the invariant that relates the page table, the TLB, the
    frame list and physical memory. *)
Record core_inv (pt : gmap Z PTE) (t : list TLBEntry) (qs : list (option Z))
    (pm : list (option (list byte))) (store : list byte) : Prop := {
  core_tlb : ∀ e, e ∈ t → pagina_valida pt (tlb_pagina e) = Some (tlb_quadro e);
  core_tlb_size : (length t ≤ tlb_size)%nat;
  core_quadros : ∀ p f, pagina_valida pt p = Some f ↔ qs !! f = Some (Some p);
  core_memory : ∀ p f, pagina_valida pt p = Some f →
                pm !! f = Some (Some (read_at store p)) ∧ loadable store p;
  core_len : length pm = length qs
}.

(** The same while frame [q] is being handed over: no valid entry names
    it, whatever the frame list says about it. *)
Record hole_inv (q : nat) (pt : gmap Z PTE) (t : list TLBEntry)
    (qs : list (option Z)) (pm : list (option (list byte))) (store : list byte)
  : Prop := {
  hole_tlb : ∀ e, e ∈ t → pagina_valida pt (tlb_pagina e) = Some (tlb_quadro e);
  hole_tlb_size : (length t ≤ tlb_size)%nat;
  hole_quadros : ∀ p f, pagina_valida pt p = Some f → qs !! f = Some (Some p) ∧ f ≠ q;
  hole_quadros_inv : ∀ p f, f ≠ q → qs !! f = Some (Some p) → pagina_valida pt p = Some f;
  hole_memory : ∀ p f, pagina_valida pt p = Some f →
                pm !! f = Some (Some (read_at store p)) ∧ loadable store p;
  hole_len : length pm = length qs;
  hole_lt : (q < length qs)%nat
}.

(** The replacement bookkeeping lists exactly the resident pages, once
    each. *)
Definition fila_ok (l : list Z) (pt : gmap Z PTE) : Prop :=
  NoDup l ∧ ∀ p, p ∈ l ↔ is_Some (pagina_valida pt p).

Record Inv (s : MemoryManager) : Prop := {
  inv_core : core_inv (page_table s) (tlb s) (quadros s) (physical_memory s)
               (backing_store s);
  inv_num : length (quadros s) = num_quadros s;
  inv_fifo : algoritmo s = "FIFO"%string → fila_ok (fifo_queue s) (page_table s);
  inv_lru : algoritmo s = "LRU"%string → fila_ok (uso_recente s).*1 (page_table s)
}.

(** The page that [acessar endereco_virtual] evicts in state [s], if any:
    the call misses the TLB and the page table, [None in self.quadros] is
    false, and the policy picks the head of the queue (FIFO) or the page
    of least timestamp (LRU). *)
Definition vitima (s : MemoryManager) (endereco_virtual : Z) : option Z :=
  let pagina := (split endereco_virtual).1 in
  match buscar pagina (tlb s), pagina_valida (page_table s) pagina,
        index_None (quadros s) with
  | None, None, None =>
      if decide (algoritmo s = "FIFO"%string) then head (fifo_queue s)
      else if decide (algoritmo s = "LRU"%string)
      then match py_min (uso_recente s) with Ok v => Some v | Raise _ => None end
      else None
  | _, _, _ => None
  end.

(** A manager as [main] builds it over a full backing store: a known
    policy, at least one frame, and every page of the address space on
    file. *)
Definition politica_conhecida (s : MemoryManager) : Prop :=
  algoritmo s = "FIFO"%string ∨ algoritmo s = "LRU"%string.

Definition bem_configurado (s : MemoryManager) : Prop :=
  politica_conhecida s ∧ (1 ≤ num_quadros s)%nat ∧
  ∀ p, 0 ≤ p < 256 → loadable (backing_store s) p.

(** A manager ready to run over [store] under the known policy [alg]. *)
Definition pronto (store : list byte) (alg : string) (s : MemoryManager) : Prop :=
  Inv s ∧ algoritmo s = alg ∧ (1 ≤ num_quadros s)%nat ∧ backing_store s = store ∧
  (alg = "FIFO"%string ∨ alg = "LRU"%string).

(** The exception of the last branch of [tratar_page_fault]. *)
Definition erro_de_politica (e : exn) : Prop := e = SystemExit AlgoritmoInvalido.

(** ** A small concrete run, used to exercise the theorems

    A backing store of twenty pages, page [p] filled with the byte
    [200 + p], and the manager after a list of requests (the state reached
    before the first exception, if any). *)
Definition byte_exemplo (p : nat) : byte :=
  default x00 (Byte.of_N (N.of_nat (200 + p))).

Definition store_exemplo : list byte :=
  mjoin ((λ p, replicate 256 (byte_exemplo p)) <$> seq 0 20).

Definition estado_apos (alg : string) (n : nat) (enderecos : list Z) : MemoryManager :=
  match acessar_todos enderecos (inicial store_exemplo n alg) with
  | Ok (_, s) => s
  | Raise _ => inicial store_exemplo n alg
  end.

(** The timestamps of [uso_recente] are at most the clock and differ
    from one another. *)
Definition carimbos_ok (s : MemoryManager) : Prop :=
  (∀ kv, kv ∈ uso_recente s → kv.2 ≤ clock s) ∧ NoDup (uso_recente s).*2.

(** ** Shapes of the frame list

    The free frames form a suffix of the frame list, and a frame has no
    bytes exactly when it has no page. *)
Definition livres_no_fim (qs : list (option Z)) : Prop :=
  ∀ i j, (i ≤ j)%nat → qs !! i = Some None → (j < length qs)%nat → qs !! j = Some None.

Definition memoria_vazia_sse_livre (s : MemoryManager) : Prop :=
  ∀ i, physical_memory s !! i = Some None ↔ quadros s !! i = Some None.

(** ** More states of the concrete run

    Two frames under FIFO, both taken, and the state after the fault that
    evicts page 0; the same under LRU, and the state after a hit on page
    0; four frames with one taken, by page 0 and by page 18. *)
Definition exemplo_fifo : MemoryManager := estado_apos "FIFO" 2 [0; 256].
Definition exemplo_fifo_depois : MemoryManager := estado_apos "FIFO" 2 [0; 256; 512].
Definition exemplo_lru : MemoryManager := estado_apos "LRU" 2 [0; 256].
Definition exemplo_lru_depois : MemoryManager := estado_apos "LRU" 2 [0; 256; 0].
Definition exemplo_livre : MemoryManager := estado_apos "FIFO" 4 [0].
Definition exemplo_v2 : MemoryManager := estado_apos "FIFO" 4 [4660].

(** * Properties

    ** Running the monad *)

Tactic Notation "run_monad" :=
  cbv beta iota zeta delta [bind ret raise get_self modify lift].
Tactic Notation "run_monad" "in" hyp(H) :=
  cbv beta iota zeta delta [bind ret raise get_self modify lift] in H.

Lemma bind_Ok {A B} (c : M A) (k : A → M B) s b s2 :
  bind c k s = Ok (b, s2) ↔ ∃ a s1, c s = Ok (a, s1) ∧ k a s1 = Ok (b, s2).
Proof.
  unfold bind. destruct (c s) as [[a s1]|e].
  - split; [eauto|]. intros (a' & s1' & Heq & Hk). by simplify_eq.
  - split; [done|]. by intros (a' & s1' & Heq & Hk).
Qed.

Lemma buscar_na_tlb_run p s : buscar_na_tlb p s = Ok (buscar p (tlb s), s).
Proof. reflexivity. Qed.

Lemma atualiza_tlb_run p q s :
  atualiza_tlb p q s = Ok (tt, set_tlb (push_tlb p q) s).
Proof.
  unfold atualiza_tlb, push_tlb. run_monad.
  case_decide; unfold set_tlb; simpl;
    [rewrite decide_True by done | rewrite decide_False by done]; reflexivity.
Qed.

Lemma remover_da_tlb_run p s :
  remover_da_tlb p s = Ok (tt, set_tlb (filter (λ e, tlb_pagina e ≠ p)) s).
Proof. reflexivity. Qed.

Lemma carrega_pagina_Ok p s d s' :
  carrega_pagina p s = Ok (d, s') ↔
  loadable (backing_store s) p ∧ d = read_at (backing_store s) p ∧ s' = s.
Proof.
  unfold carrega_pagina, loadable. run_monad.
  split.
  - repeat case_decide; intros ?; simplify_eq. split; [split; lia | done].
  - intros ([? ?] & -> & ->). rewrite decide_False by lia.
    rewrite decide_False by lia. done.
Qed.

Lemma carrega_pagina_run p s :
  loadable (backing_store s) p →
  carrega_pagina p s = Ok (read_at (backing_store s) p, s).
Proof. intros. by apply carrega_pagina_Ok. Qed.

Lemma instala_Ok p q s u s' :
  instala p q s = Ok (u, s') ↔
  loadable (backing_store s) p ∧ (q < length (physical_memory s))%nat ∧
  (q < length (quadros s))%nat ∧ s' = instalado p q s.
Proof.
  destruct u. unfold instala, instalado, py_setitem. run_monad.
  destruct (carrega_pagina p s) as [[d s1]|e] eqn:Hc.
  - apply carrega_pagina_Ok in Hc as (Hl & -> & ->).
    split.
    + repeat case_decide; simpl in *; intros ?; simplify_eq. done.
    + intros (_ & ? & ? & ->). rewrite decide_True by done. simpl.
      rewrite decide_True by done. done.
  - split; [done|]. intros (Hl & _).
    rewrite carrega_pagina_run in Hc by done. done.
Qed.

Lemma instala_run p q s :
  loadable (backing_store s) p → (q < length (physical_memory s))%nat →
  (q < length (quadros s))%nat →
  instala p q s = Ok (tt, instalado p q s).
Proof. intros. by apply instala_Ok. Qed.

Lemma substituicao_fifo_Ok p s q s' :
  substituicao_fifo p s = Ok (q, s') ↔
  ∃ vitima resto info,
    fifo_queue s = vitima :: resto ∧ page_table s !! vitima = Some info ∧
    q = quadro info ∧
    loadable (backing_store s) p ∧ (q < length (physical_memory s))%nat ∧
    (q < length (quadros s))%nat ∧ s' = fifo_substituido p vitima q s.
Proof.
  unfold substituicao_fifo, fifo_substituido, page_table_getitem, remover_da_tlb.
  run_monad. destruct (fifo_queue s) as [|v resto] eqn:Hq.
  { split; [done|]. by intros (? & ? & ? & ? & _). }
  simpl. destruct (page_table s !! v) as [info|] eqn:Hpt.
  2:{ split; [done|]. intros (? & ? & ? & ? & ? & _). by simplify_eq. }
  match goal with |- context [instala p (quadro info) ?s0] =>
    destruct (instala p (quadro info) s0) as [[[] s1]|e] eqn:Hi end.
  - apply instala_Ok in Hi as (Hl & Hpm & Hqs & ->). simpl in *.
    split.
    + intros ?; simplify_eq. by exists v, resto, info.
    + intros (v' & r' & i' & ? & ? & -> & _ & _ & _ & ->). by simplify_eq.
  - split; [done|]. intros (v' & r' & i' & ? & ? & -> & ? & ? & ? & _). simplify_eq.
    rewrite instala_run in Hi by done. done.
Qed.

Lemma dict_del_Ok k d d' :
  dict_del k d = Ok d' ↔
  is_Some (dict_get k d) ∧ d' = filter (λ kv : Z * Z, kv.1 ≠ k) d.
Proof.
  unfold dict_del. destruct (dict_get k d); split.
  - intros ?; simplify_eq. eauto.
  - by intros [_ ->].
  - done.
  - by intros [[? ?] _].
Qed.

Lemma substituicao_lru_Ok p s q s' :
  substituicao_lru p s = Ok (q, s') ↔
  ∃ vitima info,
    py_min (uso_recente s) = Ok vitima ∧ page_table s !! vitima = Some info ∧
    q = quadro info ∧ is_Some (dict_get vitima (uso_recente s)) ∧
    loadable (backing_store s) p ∧ (q < length (physical_memory s))%nat ∧
    (q < length (quadros s))%nat ∧ s' = lru_substituido p vitima q s.
Proof.
  unfold substituicao_lru, lru_substituido, page_table_getitem, remover_da_tlb.
  run_monad. destruct (py_min (uso_recente s)) as [v|e] eqn:Hmin.
  2:{ split; [done|]. by intros (? & ? & ? & _). }
  destruct (page_table s !! v) as [info|] eqn:Hpt.
  2:{ split; [done|]. intros (? & ? & ? & ? & _). by simplify_eq. }
  simpl. destruct (dict_del v (uso_recente s)) as [d|e] eqn:Hdel.
  2:{ split; [done|]. intros (v' & i' & Hm & _ & _ & [x Hx] & _).
      assert (v' = v) as -> by congruence.
      unfold dict_del in Hdel. by rewrite Hx in Hdel. }
  apply dict_del_Ok in Hdel as [Hs ->].
  match goal with |- context [instala p (quadro info) ?s0] =>
    destruct (instala p (quadro info) s0) as [[[] s1]|e] eqn:Hi end.
  - apply instala_Ok in Hi as (Hl & Hpm & Hqs & ->). simpl in *.
    split.
    + intros ?; simplify_eq. by exists v, info.
    + intros (v' & i' & ? & ? & -> & _ & _ & _ & _ & ->). by simplify_eq.
  - split; [done|].
    intros (v' & i' & ? & ? & -> & ? & ? & ? & ? & _). simplify_eq.
    rewrite instala_run in Hi by done. done.
Qed.

Lemma tratar_page_fault_Ok p s q s' :
  tratar_page_fault p s = Ok (q, s') ↔ falta p s q s'.
Proof.
  unfold tratar_page_fault. run_monad.
  destruct (index_None (quadros s)) as [f|] eqn:Hidx.
  - assert (f < length (quadros s))%nat as Hf.
    { unfold index_None in Hidx. destruct (list_find _ _) as [[i x]|] eqn:Hfind; simplify_eq/=.
      apply list_find_Some in Hfind as (Hl & _). by eapply lookup_lt_Some. }
    destruct (instala p f s) as [[[] s1]|e] eqn:Hi.
    + apply instala_Ok in Hi as (Hl & Hpm & Hqs & ->).
      assert (∀ s0, (if decide (algoritmo s0 = "FIFO"%string)
                then λ s2 : MemoryManager, Ok ((), set_fifo_queue (fifo_queue s0 ++ [p]) s2)
                else if decide (algoritmo s0 = "LRU"%string)
                then λ s2 : MemoryManager,
                    Ok ((), set_uso_recente (dict_set p (clock s0) (uso_recente s0)) s2)
                else λ s2 : MemoryManager, Ok ((), s2)) s0 = Ok (tt, registrado p s0)) as ->.
      { intros s0. unfold registrado. by repeat case_decide. }
      split.
      * intros ?; simplify_eq. by constructor.
      * intros Hf'. inversion Hf'; simplify_eq. reflexivity.
    + split; [done|]. intros Hf'. inversion Hf'; simplify_eq.
      rewrite instala_run in Hi by done. done.
  - repeat case_decide.
    + rewrite substituicao_fifo_Ok. split.
      * intros (v & resto & info & ? & ? & -> & ? & ? & ? & ->). by econstructor.
      * intros Hf'. inversion Hf'; simplify_eq; try congruence. by eexists _, _, _.
    + rewrite substituicao_lru_Ok. split.
      * intros (v & info & ? & ? & -> & ? & ? & ? & ? & ->). by econstructor.
      * intros Hf'. inversion Hf'; simplify_eq; try congruence. by eexists _, _.
    + split; [done|]. intros Hf'. inversion Hf'; simplify_eq; congruence.
Qed.

Lemma ler_memoria_Ok q off s v s' :
  ler_memoria q off s = Ok (v, s') ↔
  ∃ page_data b,
    physical_memory s !! q = Some (Some page_data) ∧
    page_data !! Z.to_nat off = Some b ∧ v = signed (byte_value b) ∧ s' = s.
Proof.
  unfold ler_memoria. run_monad.
  destruct (physical_memory s !! q) as [[d|]|].
  2,3: split; [done | intros (?&?&?&_); done].
  destruct (d !! Z.to_nat off) as [b|] eqn:Hb.
  - split; [intros ?; simplify_eq; by eexists _, _|].
    intros (?&?&?&?&->&->). by simplify_eq.
  - split; [done|]. intros (?&?&?&?&_). by simplify_eq.
Qed.

Lemma tocado_run p s :
  (if decide (algoritmo s = "LRU"%string)
   then modify (set_uso_recente (dict_set p (clock s) (uso_recente s)))
   else ret tt) s = Ok (tt, tocado p s).
Proof. unfold tocado. by case_decide. Qed.

Lemma acessar_Ok va s pa v s' :
  acessar va s = Ok ((pa, v), s') ↔
  ∃ q s1 page_data b,
    resolve (split va).1 (incr_acessos_clock s) q s1 ∧
    s' = tocado (split va).1 s1 ∧
    physical_memory s' !! q = Some (Some page_data) ∧
    page_data !! Z.to_nat (split va).2 = Some b ∧
    pa = Z.lor (Z.shiftl (Z.of_nat q) offset_bits) (split va).2 ∧
    v = signed (byte_value b).
Proof.
  unfold acessar. destruct (split va) as [p off]. simpl.
  set (s0 := incr_acessos_clock s).
  assert (∀ q s1,
    (self <- get_self ;;
     (if decide (algoritmo self = "LRU"%string)
      then modify (set_uso_recente (dict_set p (clock self) (uso_recente self)))
      else ret ()) ;;;
     conteudo <- ler_memoria q off ;;
     ret (Z.lor (Z.shiftl (Z.of_nat q) offset_bits) off, conteudo)) s1 = Ok (pa, v, s') ↔
    ∃ page_data b, s' = tocado p s1 ∧
      physical_memory s' !! q = Some (Some page_data) ∧
      page_data !! Z.to_nat off = Some b ∧
      pa = Z.lor (Z.shiftl (Z.of_nat q) offset_bits) off ∧
      v = signed (byte_value b)) as Htail.
  { intros q s1. unfold bind at 1. unfold get_self at 1.
    unfold bind at 1. rewrite tocado_run.
    unfold bind at 1.
    destruct (ler_memoria q off (tocado p s1)) as [[c s2]|e] eqn:Hler.
    - apply ler_memoria_Ok in Hler as (d & b & Hd & Hb & -> & ->).
      unfold ret. split.
      + intros ?; simplify_eq. by exists d, b.
      + intros (d' & b' & -> & ? & ? & -> & ->). by simplify_eq.
    - split; [done|]. intros (d' & b' & -> & ? & ? & -> & ->).
      assert (ler_memoria q off (tocado p s1) = Ok (signed (byte_value b'), tocado p s1)) as Hx
        by (apply ler_memoria_Ok; by exists d', b').
      congruence. }
  unfold bind at 1. unfold modify at 1. fold s0.
  unfold bind at 1. rewrite buscar_na_tlb_run.
  unfold bind at 1.
  destruct (buscar p (tlb s0)) as [q|] eqn:Hb.
  - unfold bind at 1, modify at 1, ret at 1.
    rewrite (Htail q (incr_tlb_hits s0)).
    split.
    + intros (d & b & ?). exists q, (incr_tlb_hits s0), d, b. split; [by constructor|done].
    + intros (q' & s1 & d & b & Hr & Hrest). inversion Hr; simplify_eq. by exists d, b.
  - unfold bind at 1, get_self at 1.
    destruct (pagina_valida (page_table s0) p) as [q|] eqn:Hv.
    + unfold bind at 1. rewrite atualiza_tlb_run. unfold ret at 1.
      rewrite (Htail q (set_tlb (push_tlb p q) s0)).
      split.
      * intros (d & b & ?). exists q, (set_tlb (push_tlb p q) s0), d, b.
        split; [by constructor|done].
      * intros (q' & s1 & d & b & Hr & Hrest). inversion Hr; simplify_eq. by exists d, b.
    + unfold bind at 1, modify at 1. unfold bind at 1.
      destruct (tratar_page_fault p (incr_page_faults s0)) as [[q s1]|e] eqn:Hf.
      * apply tratar_page_fault_Ok in Hf.
        unfold bind at 1, modify at 1. unfold bind at 1. rewrite atualiza_tlb_run.
        unfold ret at 1. fold (mapeado p q s1).
        rewrite (Htail q (mapeado p q s1)).
        split.
        -- intros (d & b & ?). exists q, (mapeado p q s1), d, b.
           split; [by constructor|done].
        -- intros (q' & s1' & d & b & Hr & Hrest). inversion Hr; simplify_eq.
           apply tratar_page_fault_Ok in Hf.
           match goal with H : falta _ _ _ _ |- _ =>
             apply tratar_page_fault_Ok in H; rewrite Hf in H end.
           simplify_eq. by exists d, b.
      * split; [done|].
        intros (q' & s1' & d & b & Hr & Hrest). inversion Hr; simplify_eq.
        match goal with H : falta _ _ _ _ |- _ =>
          apply tratar_page_fault_Ok in H; rewrite Hf in H end.
        done.
Qed.

(** ** Page table, frame list and dictionary lemmas *)

Lemma pagina_valida_Some pt p f :
  pagina_valida pt p = Some f ↔ pt !! p = Some {| quadro := f; valido := true |}.
Proof.
  unfold pagina_valida. destruct (pt !! p) as [[q [|]]|]; simpl; split; intros ?; by simplify_eq.
Qed.

Lemma pagina_valida_insert pt x info p :
  pagina_valida (<[x := info]> pt) p =
  if decide (x = p) then (if valido info then Some (quadro info) else None)
  else pagina_valida pt p.
Proof.
  unfold pagina_valida. case_decide as Hx.
  - subst. by rewrite lookup_insert_eq.
  - by rewrite lookup_insert_ne.
Qed.

Lemma index_None_Some l q : index_None l = Some q → l !! q = Some None.
Proof.
  unfold index_None. destruct (list_find _ l) as [[i x]|] eqn:Hf; intros ?; simplify_eq/=.
  apply list_find_Some in Hf as (Hl & -> & _). done.
Qed.

Lemma index_None_None l i x : index_None l = None → l !! i = Some x → is_Some x.
Proof.
  unfold index_None. destruct (list_find _ l) as [[j y]|] eqn:Hf; intros ?; simplify_eq/=.
  intros Hl. apply list_find_None in Hf. rewrite Forall_forall in Hf.
  destruct x; [eauto|]. exfalso. eapply Hf; [|done]. eapply list_elem_of_lookup_2; eauto.
Qed.

Lemma min_from_in best d : min_from best d = best ∨ min_from best d ∈ d.
Proof.
  revert best. induction d as [|kv d IH]; intros best; simpl; [by left|].
  case_match.
  - right. destruct (IH kv) as [->|?]; [left|right]; done.
  - destruct (IH best) as [->|?]; [by left|right; by right].
Qed.

Lemma py_min_in d v : py_min d = Ok v → v ∈ d.*1.
Proof.
  destruct d as [|kv d]; intros ?; simplify_eq/=.
  destruct (min_from_in kv d) as [->|Hin]; [left|right].
  by apply list_elem_of_fmap_2.
Qed.

Lemma dict_set_keys k v d :
  (dict_set k v d).*1 = if decide (k ∈ d.*1) then d.*1 else d.*1 ++ [k].
Proof.
  induction d as [|[k' v'] d IH].
  - reflexivity.
  - cbn [dict_set fmap list_fmap fst].
    destruct (decide (k' = k)) as [->|Hne].
    + cbn [fmap list_fmap fst]. rewrite decide_True; [done|left].
    + cbn [fmap list_fmap fst]. rewrite IH. destruct (decide (k ∈ d.*1)).
      * rewrite decide_True; [done|by right].
      * rewrite decide_False; [done|]. rewrite elem_of_cons. naive_solver.
Qed.

Lemma dict_filter_keys k (d : list (Z * Z)) :
  (filter (λ kv : Z * Z, kv.1 ≠ k) d).*1 = filter (λ x, x ≠ k) d.*1.
Proof.
  induction d as [|[k' v'] d IH]; [done|].
  rewrite fmap_cons, !filter_cons. cbn [fst].
  case_decide; [rewrite fmap_cons|]; by rewrite IH.
Qed.

Lemma dict_get_is_Some k d : is_Some (dict_get k d) ↔ k ∈ d.*1.
Proof.
  unfold dict_get. rewrite !fmap_is_Some. split.
  - intros [[i [k' v]] Hf]. apply list_find_Some in Hf as (Hl & Hk & _).
    apply list_elem_of_fmap. exists (k', v). split; [done|]. by eapply list_elem_of_lookup_2.
  - intros Hin. apply list_elem_of_fmap in Hin as ([k' v] & -> & Hin).
    apply list_find_elem_of with (x := (k', v)); done.
Qed.

Lemma elem_of_push_tlb p q t e :
  e ∈ push_tlb p q t → e = {| tlb_pagina := p; tlb_quadro := q |} ∨ e ∈ t.
Proof.
  unfold push_tlb. rewrite elem_of_app, list_elem_of_singleton.
  intros [He|He]; [right|by left].
  case_decide; [|done]. by eapply subseteq_drop.
Qed.

Lemma length_push_tlb p q t :
  (length t ≤ tlb_size → length (push_tlb p q t) ≤ tlb_size)%nat.
Proof.
  unfold push_tlb, tlb_size. intros Hl. rewrite length_app. simpl.
  case_decide; [rewrite length_drop|]; lia.
Qed.

Lemma buscar_app_new p q t :
  buscar p t = None →
  buscar p (t ++ [ {| tlb_pagina := p; tlb_quadro := q |} ]) = Some q.
Proof.
  induction t as [|e t IH]; simpl.
  - by rewrite decide_True.
  - case_decide; [done|]. apply IH.
Qed.

Lemma buscar_drop p t n : buscar p t = None → buscar p (drop n t) = None.
Proof.
  revert n. induction t as [|e t IH]; intros [|n]; simpl; try done.
  case_decide; [done|]. apply IH.
Qed.

Lemma buscar_push_tlb p q t : buscar p t = None → buscar p (push_tlb p q t) = Some q.
Proof.
  intros Hb. unfold push_tlb. apply buscar_app_new.
  case_decide; [by apply buscar_drop|done].
Qed.

Lemma buscar_Some p t q :
  buscar p t = Some q → {| tlb_pagina := p; tlb_quadro := q |} ∈ t.
Proof.
  induction t as [|[p' q'] t IH]; simpl; [done|].
  case_decide; intros ?; simplify_eq; [left|right; auto].
Qed.

Lemma buscar_None p t e : buscar p t = None → e ∈ t → tlb_pagina e ≠ p.
Proof.
  induction t as [|e' t IH]; simpl; [by intros _ ?%elem_of_nil|].
  case_decide; [done|]. intros Hb [->|Hin]%elem_of_cons; auto.
Qed.

(** ** The core invariant across a page fault *)

Section core.
Context (pt : gmap Z PTE) (t : list TLBEntry) (qs : list (option Z))
        (pm : list (option (list byte))) (store : list byte).

Lemma hole_free q :
  core_inv pt t qs pm store → index_None qs = Some q →
  hole_inv q pt t qs pm store.
Proof.
  intros [Ht Hsz Hq Hm Hl] Hidx%index_None_Some. split; try done.
  - intros p f Hv. apply Hq in Hv as Hqs. split; [done|]. intros ->. congruence.
  - intros p f _ Hqs. by apply Hq.
  - by eapply lookup_lt_Some.
Qed.

Lemma hole_evict v info :
  core_inv pt t qs pm store → pagina_valida pt v = Some (quadro info) →
  hole_inv (quadro info) (<[v := {| quadro := quadro info; valido := false |}]> pt)
    (filter (λ e, tlb_pagina e ≠ v) t) qs pm store.
Proof.
  intros [Ht Hsz Hq Hm Hl] Hv.
  assert (∀ p f, pagina_valida
            (<[v := {| quadro := quadro info; valido := false |}]> pt) p = Some f ↔
          p ≠ v ∧ pagina_valida pt p = Some f) as Hpv.
  { intros p f. rewrite pagina_valida_insert. simpl. case_decide; naive_solver. }
  split.
  - intros e [He Hin]%list_elem_of_filter. apply Hpv. auto.
  - etrans; [apply length_filter|done].
  - intros p f [Hne Hp]%Hpv. split; [by apply Hq|]. intros ->.
    apply Hq in Hp, Hv. congruence.
  - intros p f Hne Hqs. apply Hpv. split; [|by apply Hq].
    intros ->. apply Hq in Hqs. congruence.
  - intros p f [Hne Hp]%Hpv. by apply Hm.
  - done.
  - apply Hq in Hv. by eapply lookup_lt_Some.
Qed.

Lemma hole_install q p :
  hole_inv q pt t qs pm store → pagina_valida pt p = None → loadable store p →
  core_inv (<[p := {| quadro := q; valido := true |}]> pt) (push_tlb p q t)
    (<[q := Some p]> qs) (<[q := Some (read_at store p)]> pm) store.
Proof.
  intros [Ht Hsz Hq Hqi Hm Hl Hlt] Hp Hload.
  assert (∀ x f, pagina_valida (<[p := {| quadro := q; valido := true |}]> pt) x = Some f ↔
          (x = p ∧ f = q) ∨ (x ≠ p ∧ pagina_valida pt x = Some f)) as Hpv.
  { intros x f. rewrite pagina_valida_insert. simpl. case_decide; naive_solver. }
  split.
  - intros e [->|Hin]%elem_of_push_tlb; apply Hpv; [by left|right].
    split; [|by apply Ht]. intros Heq. apply Ht in Hin. congruence.
  - by apply length_push_tlb.
  - intros x f. rewrite Hpv. split.
    + intros [[-> ->]|[Hne Hx]].
      * by rewrite list_lookup_insert_eq.
      * apply Hq in Hx as [Hx Hf]. by rewrite list_lookup_insert_ne.
    + destruct (decide (f = q)) as [->|Hf].
      * rewrite list_lookup_insert_eq by done. intros ?; simplify_eq. by left.
      * rewrite list_lookup_insert_ne by done. intros Hx. right.
        apply Hqi in Hx; [|done]. split; [|done]. intros ->. congruence.
  - intros x f [[-> ->]|[Hne Hx]]%Hpv.
    + rewrite list_lookup_insert_eq by lia. done.
    + apply Hq in Hx as Hx'. destruct Hx' as [_ Hf].
      rewrite list_lookup_insert_ne by done. by apply Hm.
  - by rewrite !length_insert.
Qed.
End core.

(** ** The bookkeeping lists across a page fault *)

Lemma fila_append l pt p q :
  fila_ok l pt → pagina_valida pt p = None →
  fila_ok (l ++ [p]) (<[p := {| quadro := q; valido := true |}]> pt).
Proof.
  intros [Hnd Hin] Hp. split.
  - apply NoDup_app. split_and!; [done| |apply NoDup_singleton].
    intros x Hx ->%list_elem_of_singleton. apply Hin in Hx as [f Hf]. congruence.
  - intros x. rewrite elem_of_app, list_elem_of_singleton, pagina_valida_insert. simpl.
    case_decide; subst.
    + split; [eauto|by right].
    + rewrite Hin. naive_solver.
Qed.

Lemma fila_remove l pt v q :
  fila_ok l pt →
  fila_ok (filter (λ x, x ≠ v) l) (<[v := {| quadro := q; valido := false |}]> pt).
Proof.
  intros [Hnd Hin]. split.
  - by apply NoDup_filter.
  - intros x. rewrite list_elem_of_filter, pagina_valida_insert. simpl.
    case_decide; subst.
    + split; [naive_solver|]. by intros [? ?].
    + rewrite Hin. naive_solver.
Qed.

Lemma filter_head_NoDup (v : Z) resto :
  NoDup (v :: resto) → filter (λ x, x ≠ v) (v :: resto) = resto.
Proof.
  intros [Hv _]%NoDup_cons. rewrite filter_cons_False by (by intros ?).
  induction resto as [|x resto IH]; [done|].
  apply not_elem_of_cons in Hv as [Hne Hv].
  rewrite filter_cons_True by done. by rewrite IH.
Qed.

(** ** The invariant holds initially and across [acessar] *)

Lemma pagina_valida_empty p : pagina_valida ∅ p = None.
Proof. unfold pagina_valida. by rewrite lookup_empty. Qed.

Lemma Inv_init fs n alg s : init fs n alg = Ok s → Inv s.
Proof.
  destruct fs as [store|]; intros ?; simplify_eq/=.
  assert (fila_ok [] ∅) as Hfila.
  { split; [apply NoDup_nil_2|]. intros p. rewrite pagina_valida_empty.
    split; [by intros ?%elem_of_nil|by intros [? ?]]. }
  split; simpl; try done.
  - split.
    + by intros e ?%elem_of_nil.
    + simpl. unfold tlb_size. lia.
    + intros p f. rewrite pagina_valida_empty. split; [done|].
      intros [? _]%lookup_replicate. done.
    + intros p f. by rewrite pagina_valida_empty.
    + by rewrite !length_replicate.
  - by rewrite length_replicate.
Qed.

Lemma core_push pt t qs pm store p q :
  core_inv pt t qs pm store → pagina_valida pt p = Some q →
  core_inv pt (push_tlb p q t) qs pm store.
Proof.
  intros [Ht Hsz Hq Hm Hl] Hp. split; try done.
  - by intros e [->|Hin]%elem_of_push_tlb; [|apply Ht].
  - by apply length_push_tlb.
Qed.

Lemma Inv_tocado p s :
  Inv s → is_Some (pagina_valida (page_table s) p) → Inv (tocado p s).
Proof.
  intros [Hc Hn Hf Hl] Hp. unfold tocado. case_decide as Halg; [|done].
  split; simpl; try done.
  intros _. rewrite dict_set_keys. rewrite decide_True; [by apply Hl|].
  by apply (Hl Halg).
Qed.

Lemma Inv_falta p s q s1 :
  Inv s → pagina_valida (page_table s) p = None → falta p s q s1 →
  Inv (mapeado p q s1).
Proof.
  intros [Hc Hn Hf Hl] Hp Hfalta.
  destruct Hfalta as [q Hidx Hpm Hload|v resto info Hidx Halg Hq Hv Hpm Hqs Hload
                     |v info Hidx Halg Hmin Hv Hget Hpm Hqs Hload].
  - pose proof (hole_install _ _ _ _ _ _ _ (hole_free _ _ _ _ _ _ Hc Hidx) Hp Hload) as Hc'.
    unfold registrado.
    repeat case_decide; simpl in *; split; simpl; try done;
      try (by rewrite length_insert); try (intros; congruence).
    + intros _. by apply fila_append; [apply Hf|].
    + intros Halg. rewrite dict_set_keys.
      rewrite decide_False; [by apply fila_append; [apply Hl|]|].
      intros Hin. apply (Hl Halg) in Hin as [? ?]. congruence.
  - specialize (Hf Halg).
    assert (pagina_valida (page_table s) v = Some (quadro info)) as Hvv.
    { assert (v ∈ fifo_queue s) as Hin by (rewrite Hq; left).
      apply Hf in Hin as [f Hf']. rewrite Hf'.
      apply pagina_valida_Some in Hf'. rewrite Hv in Hf'. by simplify_eq. }
    pose proof (hole_evict _ _ _ _ _ _ _ Hc Hvv) as Hh.
    assert (pagina_valida (<[v:={| quadro := quadro info; valido := false |}]> (page_table s)) p
            = None) as Hp'.
    { rewrite pagina_valida_insert. by case_decide. }
    pose proof (hole_install _ _ _ _ _ _ _ Hh Hp' Hload) as Hc'.
    split; simpl; try done; try (by rewrite length_insert); try (intros; congruence).
    intros _. rewrite Hq. simpl. apply fila_append; [|done].
      rewrite <-(filter_head_NoDup v resto) by (rewrite <-Hq; apply Hf).
      rewrite <-Hq. by apply fila_remove.
  - specialize (Hl Halg).
    assert (pagina_valida (page_table s) v = Some (quadro info)) as Hvv.
    { apply py_min_in, Hl in Hmin as [f Hf']. rewrite Hf'.
      apply pagina_valida_Some in Hf'. rewrite Hv in Hf'. by simplify_eq. }
    pose proof (hole_evict _ _ _ _ _ _ _ Hc Hvv) as Hh.
    assert (pagina_valida (<[v:={| quadro := quadro info; valido := false |}]> (page_table s)) p
            = None) as Hp'.
    { rewrite pagina_valida_insert. by case_decide. }
    pose proof (hole_install _ _ _ _ _ _ _ Hh Hp' Hload) as Hc'.
    pose proof (fila_remove _ _ v (quadro info) Hl) as Hrem.
    split; simpl; try done; try (by rewrite length_insert); try (intros; congruence).
    intros _. rewrite dict_set_keys, dict_filter_keys.
    rewrite decide_False; [by apply fila_append|].
    intros Hin. apply Hrem in Hin as [? ?]. congruence.
Qed.

Lemma Inv_resolve p s q s1 :
  Inv s → resolve p s q s1 →
  Inv s1 ∧ pagina_valida (page_table s1) p = Some q.
Proof.
  intros Hinv Hr. destruct Hr as [q Hb|q Hb Hv|q s1 Hb Hv Hf].
  - split; [by destruct Hinv|].
    apply buscar_Some in Hb. by apply (core_tlb _ _ _ _ _ (inv_core _ Hinv)) in Hb.
  - split; [|done]. destruct Hinv as [Hc Hn Hf Hl]. split; simpl; try done.
    by apply core_push.
  - split.
    + apply (Inv_falta p (incr_page_faults s)); [by destruct Hinv|done|done].
    + simpl. rewrite pagina_valida_insert. by rewrite decide_True.
Qed.

Lemma Inv_acessar va s r s' : Inv s → acessar va s = Ok (r, s') → Inv s'.
Proof.
  intros Hinv Hac. destruct r as [pa v].
  apply acessar_Ok in Hac as (q & s1 & d & b & Hr & -> & _).
  apply Inv_resolve in Hr as [Hinv1 Hq]; [|by destruct Hinv].
  apply Inv_tocado; [done|]. by rewrite Hq.
Qed.

Lemma reachable_Inv s : reachable s → Inv s.
Proof.
  induction 1 as [fs n alg s Hi|s va r s' _ IH Hac].
  - by eapply Inv_init.
  - by eapply Inv_acessar.
Qed.

(** ** Address decomposition *)

Lemma split_eq va :
  split va = (Z.shiftr (Z.land va 0xFFFF) 8, Z.land va 0xFF).
Proof.
  unfold split, offset_bits. f_equal.
  rewrite <-Z.land_assoc. reflexivity.
Qed.

Lemma split_range va :
  0 ≤ (split va).1 < 256 ∧ 0 ≤ (split va).2 < 256.
Proof.
  rewrite split_eq. simpl.
  change 0xFFFF with (Z.ones 16). change 0xFF with (Z.ones 8).
  rewrite !Z.land_ones by lia. rewrite Z.shiftr_div_pow2 by lia.
  change (2 ^ 16) with 65536. change (2 ^ 8) with 256.
  pose proof (Z.mod_pos_bound va 65536). pose proof (Z.mod_pos_bound va 256).
  split; [|lia]. split.
  - apply Z.div_pos; lia.
  - apply Z.div_lt_upper_bound; lia.
Qed.

Lemma split_recompose va :
  Z.land va 0xFFFF = (split va).1 * 256 + (split va).2.
Proof.
  rewrite split_eq. simpl.
  change 0xFFFF with (Z.ones 16). change 0xFF with (Z.ones 8).
  rewrite !Z.land_ones by lia. rewrite Z.shiftr_div_pow2 by lia.
  change (2 ^ 16) with 65536. change (2 ^ 8) with 256.
  assert (va mod 256 = (va mod 65536) mod 256) as ->.
  { symmetry. apply Zdiv.Z.mod_mod_divide. by exists 256. }
  pose proof (Z.div_mod (va mod 65536) 256). lia.
Qed.

(** ** Progress: a well-configured manager answers every request *)

Lemma py_min_is_Ok d : d ≠ [] → ∃ v, py_min d = Ok v.
Proof. destruct d; [done|]. simpl. eauto. Qed.

Lemma falta_progress p s :
  Inv s → politica_conhecida s → (1 ≤ num_quadros s)%nat →
  loadable (backing_store s) p →
  ∃ q s1, falta p s q s1.
Proof.
  intros [Hc Hn Hf Hl] Halg Hnum Hstore.
  destruct (index_None (quadros s)) as [q|] eqn:Hidx.
  - exists q. eexists. apply falta_quadro_livre; [done| |done].
    rewrite (core_len _ _ _ _ _ Hc). apply index_None_Some in Hidx.
    by eapply lookup_lt_Some.
  - assert (∃ p0, pagina_valida (page_table s) p0 = Some 0%nat) as [p0 Hp0].
    { destruct (lookup_lt_is_Some_2 (quadros s) 0%nat) as [x Hx]; [lia|].
      destruct (index_None_None _ _ _ Hidx Hx) as [p0 ->].
      exists p0. by apply (core_quadros _ _ _ _ _ Hc). }
    assert (∀ v, is_Some (pagina_valida (page_table s) v) →
              ∃ info, page_table s !! v = Some info ∧
                      (quadro info < length (physical_memory s))%nat ∧
                      (quadro info < length (quadros s))%nat) as Hres.
    { intros v [f Hv]. exists {| quadro := f; valido := true |}.
      split; [by apply pagina_valida_Some|]. simpl.
      apply (core_quadros _ _ _ _ _ Hc) in Hv. apply lookup_lt_Some in Hv.
      rewrite (core_len _ _ _ _ _ Hc). done. }
    destruct Halg as [Halg|Halg].
    + destruct (Hf Halg) as [_ Hin].
      destruct (fifo_queue s) as [|v resto] eqn:Hq.
      { assert (p0 ∈ @nil Z) as ?%elem_of_nil by (apply Hin; eauto). done. }
      destruct (Hres v) as (info & Hv & Hpm & Hqs); [apply Hin; left|].
      exists (quadro info). eexists. eapply falta_fifo; eauto.
    + destruct (Hl Halg) as [_ Hin].
      destruct (py_min_is_Ok (uso_recente s)) as [v Hmin].
      { intros Hnil. assert (p0 ∈ (uso_recente s).*1) as Hp0' by (apply Hin; eauto).
        rewrite Hnil in Hp0'. by apply elem_of_nil in Hp0'. }
      pose proof (py_min_in _ _ Hmin) as Hvin.
      destruct (Hres v) as (info & Hv & Hpm & Hqs); [by apply Hin|].
      exists (quadro info). eexists. eapply falta_lru; eauto.
      by apply dict_get_is_Some.
Qed.

Lemma resolve_progress p s :
  Inv s → politica_conhecida s → (1 ≤ num_quadros s)%nat →
  loadable (backing_store s) p →
  ∃ q s1, resolve p s q s1.
Proof.
  intros Hinv Halg Hnum Hstore.
  destruct (buscar p (tlb s)) as [q|] eqn:Hb.
  { exists q. eexists. by apply resolve_tlb_hit. }
  destruct (pagina_valida (page_table s) p) as [q|] eqn:Hv.
  { exists q. eexists. by apply resolve_tabela. }
  destruct (falta_progress p (incr_page_faults s)) as (q & s1 & Hf); [by destruct Hinv|done..|].
  exists q. eexists. by apply resolve_falta.
Qed.

(** Whenever the frame of the page is found, the call returns: the
    invariant guarantees the frame holds 256 bytes. *)
Lemma acessar_resolve va s q s1 :
  Inv s → resolve (split va).1 (incr_acessos_clock s) q s1 →
  ∃ r, acessar va s = Ok (r, tocado (split va).1 s1).
Proof.
  intros Hinv Hr.
  destruct (Inv_resolve _ _ _ _ (ltac:(by destruct Hinv) : Inv (incr_acessos_clock s)) Hr)
    as [Hinv1 Hq].
  destruct (core_memory _ _ _ _ _ (inv_core _ Hinv1) _ _ Hq) as [Hm [_ Hlen]].
  destruct (lookup_lt_is_Some_2 (read_at (backing_store s1) (split va).1)
              (Z.to_nat (split va).2)) as [b Hb].
  { pose proof (split_range va). unfold page_size in Hlen. lia. }
  eexists (_, _). apply acessar_Ok.
  exists q, s1, (read_at (backing_store s1) (split va).1), b. split_and!; try done.
  unfold tocado. by case_decide.
Qed.

Lemma acessar_progress va s :
  Inv s → politica_conhecida s → (1 ≤ num_quadros s)%nat →
  loadable (backing_store s) (split va).1 →
  ∃ r s', acessar va s = Ok (r, s').
Proof.
  intros Hinv Halg Hnum Hstore.
  destruct (resolve_progress (split va).1 (incr_acessos_clock s))
    as (q & s1 & Hr); [by destruct Hinv|done..|].
  destruct (acessar_resolve va s q s1) as [r Hr']; eauto.
Qed.

(** ** Configuration is constant *)

Lemma falta_config p s q s1 :
  falta p s q s1 →
  algoritmo s1 = algoritmo s ∧ num_quadros s1 = num_quadros s ∧
  backing_store s1 = backing_store s ∧ physical_memory s1 !! q =
    Some (Some (read_at (backing_store s) p)).
Proof.
  intros [q' Hidx Hpm Hl|v resto info _ _ _ _ Hpm _ _|v info _ _ _ _ _ Hpm _ _].
  - unfold registrado. repeat case_decide; simpl; by rewrite list_lookup_insert_eq.
  - simpl. by rewrite list_lookup_insert_eq.
  - simpl. by rewrite list_lookup_insert_eq.
Qed.

Lemma resolve_config p s q s1 :
  resolve p s q s1 →
  algoritmo s1 = algoritmo s ∧ num_quadros s1 = num_quadros s ∧
  backing_store s1 = backing_store s.
Proof.
  intros [q' Hb|q' Hb Hv|q' s1' Hb Hv Hf]; simpl; try done.
  apply falta_config in Hf as (? & ? & ? & _). done.
Qed.

Lemma tocado_config p s :
  algoritmo (tocado p s) = algoritmo s ∧ num_quadros (tocado p s) = num_quadros s ∧
  backing_store (tocado p s) = backing_store s ∧
  physical_memory (tocado p s) = physical_memory s ∧
  page_table (tocado p s) = page_table s ∧ tlb (tocado p s) = tlb s ∧
  quadros (tocado p s) = quadros s ∧ fifo_queue (tocado p s) = fifo_queue s ∧
  page_faults (tocado p s) = page_faults s ∧ clock (tocado p s) = clock s.
Proof. unfold tocado. by case_decide. Qed.

Lemma acessar_config va s r s' :
  acessar va s = Ok (r, s') →
  algoritmo s' = algoritmo s ∧ num_quadros s' = num_quadros s ∧
  backing_store s' = backing_store s.
Proof.
  destruct r as [pa v]. intros (q & s1 & d & b & Hr & -> & _)%acessar_Ok.
  apply resolve_config in Hr as (Ha & Hn & Hb). simpl in Ha, Hn, Hb.
  destruct (tocado_config (split va).1 s1) as (-> & -> & -> & _). done.
Qed.

Lemma bem_configurado_acessar va s r s' :
  bem_configurado s → acessar va s = Ok (r, s') → bem_configurado s'.
Proof.
  intros Hcfg (Ha & Hn & Hb)%acessar_config.
  unfold bem_configurado, politica_conhecida. by rewrite Ha, Hn, Hb.
Qed.

(** A whole trace is answered. *)
Lemma acessar_todos_progress enderecos s :
  Inv s → bem_configurado s →
  ∃ rs s', acessar_todos enderecos s = Ok (rs, s') ∧ length rs = length enderecos.
Proof.
  revert s. induction enderecos as [|va l IH]; intros s Hinv Hcfg; simpl.
  - by exists [], s.
  - destruct (acessar_progress va s) as (r & s1 & Hac);
      [done|apply Hcfg..|apply Hcfg, split_range|]. rewrite Hac.
    destruct (IH s1) as (rs & s2 & -> & Hlen).
    + by eapply Inv_acessar.
    + by eapply bem_configurado_acessar.
    + exists (r :: rs), s2. simpl. by rewrite Hlen.
Qed.

Lemma acessar_todos_reachable enderecos s rs s' :
  reachable s → acessar_todos enderecos s = Ok (rs, s') → reachable s'.
Proof.
  revert s rs. induction enderecos as [|va l IH]; intros s rs Hr; simpl.
  - intros ?; by simplify_eq.
  - destruct (acessar va s) as [[r s1]|] eqn:Hac; [|done].
    destruct (acessar_todos l s1) as [[rs' s2]|] eqn:Hl; [|done].
    intros ?; simplify_eq. eapply IH; [|done]. by eapply reachable_acessar.
Qed.

(** ** What one call changes, field by field *)

Lemma dict_set_idemp k v d : dict_set k v (dict_set k v d) = dict_set k v d.
Proof.
  induction d as [|[k' v'] d IH]; simpl.
  - by rewrite decide_True.
  - case_decide; simpl.
    + by rewrite decide_True.
    + rewrite decide_False by done. by rewrite IH.
Qed.

Lemma Inv_invalid_not_in_tlb s p :
  Inv s → pagina_valida (page_table s) p = None →
  buscar p (tlb s) = None ∧ ∀ e, e ∈ tlb s → tlb_pagina e ≠ p.
Proof.
  intros Hinv Hp.
  assert (∀ e, e ∈ tlb s → tlb_pagina e ≠ p) as Hne.
  { intros e He Heq. apply (core_tlb _ _ _ _ _ (inv_core _ Hinv)) in He. congruence. }
  split; [|done]. destruct (buscar p (tlb s)) as [q|] eqn:Hb; [|done].
  apply buscar_Some in Hb. apply Hne in Hb. done.
Qed.

(** No page fault: only the TLB and, under LRU, the timestamp change. *)
Lemma acessar_sem_falta va s r s' f :
  Inv s → acessar va s = Ok (r, s') →
  pagina_valida (page_table s) (split va).1 = Some f →
  page_table s' = page_table s ∧ quadros s' = quadros s ∧
  physical_memory s' = physical_memory s ∧ fifo_queue s' = fifo_queue s ∧
  page_faults s' = page_faults s ∧ clock s' = clock s + 1 ∧
  tlb s' = match buscar (split va).1 (tlb s) with
           | Some _ => tlb s
           | None => push_tlb (split va).1 f (tlb s)
           end ∧
  uso_recente s' = (if decide (algoritmo s = "LRU"%string)
                    then dict_set (split va).1 (clock s + 1) (uso_recente s)
                    else uso_recente s) ∧
  r.1 = Z.lor (Z.shiftl (Z.of_nat f) 8) (split va).2.
Proof.
  intros Hinv Hac Hv. destruct r as [pa v].
  apply acessar_Ok in Hac as (q & s1 & d & b & Hr & -> & _ & _ & -> & _).
  set (p := (split va).1) in *. unfold tocado.
  destruct Hr as [q Hb|q Hb Hv'|q s1 Hb Hv' Hf]; simpl in *.
  - assert (q = f) as ->.
    { apply buscar_Some, (core_tlb _ _ _ _ _ (inv_core _ Hinv)) in Hb. simpl in Hb.
      congruence. }
    rewrite Hb. by case_decide.
  - assert (q = f) as -> by congruence. rewrite Hb. by case_decide.
  - congruence.
Qed.

(** A page fault with a free frame. *)
Lemma acessar_quadro_livre va s r s' q :
  Inv s → acessar va s = Ok (r, s') →
  pagina_valida (page_table s) (split va).1 = None →
  index_None (quadros s) = Some q →
  page_table s' = <[(split va).1 := {| quadro := q; valido := true |}]> (page_table s) ∧
  tlb s' = push_tlb (split va).1 q (tlb s) ∧
  quadros s' = <[q := Some (split va).1]> (quadros s) ∧
  physical_memory s' =
    <[q := Some (read_at (backing_store s) (split va).1)]> (physical_memory s) ∧
  fifo_queue s' = (if decide (algoritmo s = "FIFO"%string)
                   then fifo_queue s ++ [(split va).1] else fifo_queue s) ∧
  uso_recente s' = (if decide (algoritmo s = "LRU"%string)
                    then dict_set (split va).1 (clock s + 1) (uso_recente s)
                    else uso_recente s) ∧
  page_faults s' = page_faults s + 1 ∧ clock s' = clock s + 1 ∧
  r.1 = Z.lor (Z.shiftl (Z.of_nat q) 8) (split va).2.
Proof.
  intros Hinv Hac Hv Hidx. destruct r as [pa v].
  apply acessar_Ok in Hac as (q' & s1 & d & b & Hr & -> & _ & _ & -> & _).
  set (p := (split va).1) in *. unfold tocado.
  destruct Hr as [q' Hb|q' Hb Hv'|q' s1 Hb Hv' Hf]; simpl in *.
  - destruct (Inv_invalid_not_in_tlb s p Hinv Hv) as [Hb' _]. congruence.
  - congruence.
  - destruct Hf as [q' Hidx' Hpm Hload|w resto info Hidx'|w info Hidx']; simpl in *;
      [|congruence..].
    assert (q' = q) as -> by congruence.
    unfold registrado; simpl.
    repeat case_decide; simpl in *; try congruence; split_and!; try done.
    by rewrite dict_set_idemp.
Qed.

(** A page fault with no free frame: the victim's entry is invalidated and
    its frame handed to the new page. *)
Lemma acessar_substitui va s r s' v :
  Inv s → acessar va s = Ok (r, s') → vitima s va = Some v →
  ∃ f, pagina_valida (page_table s) v = Some f ∧ v ≠ (split va).1 ∧
    page_table s' = <[(split va).1 := {| quadro := f; valido := true |}]>
                      (<[v := {| quadro := f; valido := false |}]> (page_table s)) ∧
    tlb s' = push_tlb (split va).1 f (filter (λ e, tlb_pagina e ≠ v) (tlb s)) ∧
    quadros s' = <[f := Some (split va).1]> (quadros s) ∧
    physical_memory s' =
      <[f := Some (read_at (backing_store s) (split va).1)]> (physical_memory s) ∧
    fifo_queue s' = (if decide (algoritmo s = "FIFO"%string)
                     then tail (fifo_queue s) ++ [(split va).1] else fifo_queue s) ∧
    uso_recente s' = (if decide (algoritmo s = "LRU"%string)
                      then dict_set (split va).1 (clock s + 1)
                             (filter (λ kv : Z * Z, kv.1 ≠ v) (uso_recente s))
                      else uso_recente s) ∧
    page_faults s' = page_faults s + 1 ∧ clock s' = clock s + 1 ∧
    r.1 = Z.lor (Z.shiftl (Z.of_nat f) 8) (split va).2.
Proof.
  intros Hinv Hac Hvit. destruct r as [pa x].
  apply acessar_Ok in Hac as (q' & s1 & d & b & Hr & -> & _ & _ & -> & _).
  unfold vitima in Hvit. set (p := (split va).1) in *. unfold tocado.
  destruct (buscar p (tlb s)) eqn:Hb; [done|].
  destruct (pagina_valida (page_table s) p) eqn:Hv; [done|].
  destruct (index_None (quadros s)) eqn:Hidx; [done|].
  assert (∀ info, page_table s !! v = Some info →
            is_Some (pagina_valida (page_table s) v) →
            pagina_valida (page_table s) v = Some (quadro info) ∧ v ≠ p) as Hres.
  { intros info Hi [f Hf]. split; [|congruence].
    rewrite Hf. apply pagina_valida_Some in Hf. rewrite Hi in Hf. by simplify_eq. }
  destruct Hr as [q' Hb'|q' Hb' Hv'|q' s1 Hb' Hv' Hf]; simpl in *; [congruence..|].
  destruct Hf as [q' Hidx'|v' resto info Hidx' Halg Hq Hi
                 |v' info Hidx' Halg Hmin Hi]; simpl in *; [congruence|..].
  - rewrite decide_True in Hvit by done. rewrite Hq in Hvit. simplify_eq/=.
    destruct (Hres info Hi) as [Hvv Hne].
    { apply (inv_fifo _ Hinv Halg). rewrite Hq. apply list_elem_of_here. }
    exists (quadro info).
    rewrite !(decide_False (P := algoritmo s = "LRU"%string)) by congruence.
    rewrite !(decide_True (P := algoritmo s = "FIFO"%string)) by done.
    split_and!; simpl; rewrite ?Hq; done.
  - rewrite decide_False in Hvit by congruence. rewrite decide_True in Hvit by done.
    rewrite Hmin in Hvit. simplify_eq/=.
    destruct (Hres info Hi) as [Hvv Hne].
    { apply (inv_lru _ Hinv Halg). by apply py_min_in. }
    exists (quadro info).
    rewrite !(decide_False (P := algoritmo s = "FIFO"%string)) by congruence.
    rewrite !(decide_True (P := algoritmo s = "LRU"%string)) by done.
    simpl. rewrite dict_set_idemp. split_and!; done.
Qed.

Lemma residente_exists s :
  Inv s → (1 ≤ num_quadros s)%nat → index_None (quadros s) = None →
  ∃ p0, pagina_valida (page_table s) p0 = Some 0%nat.
Proof.
  intros Hinv Hnum Hidx.
  destruct (lookup_lt_is_Some_2 (quadros s) 0%nat) as [x Hx].
  { rewrite (inv_num _ Hinv). lia. }
  destruct (index_None_None _ _ _ Hidx Hx) as [p0 ->].
  exists p0. by apply (core_quadros _ _ _ _ _ (inv_core _ Hinv)).
Qed.

(** A victim is chosen exactly when the call faults with every frame
    taken. *)
Lemma vitima_is_Some va s :
  Inv s → politica_conhecida s → (1 ≤ num_quadros s)%nat →
  pagina_valida (page_table s) (split va).1 = None →
  index_None (quadros s) = None →
  is_Some (vitima s va).
Proof.
  intros Hinv Halg Hnum Hv Hidx. unfold vitima.
  destruct (Inv_invalid_not_in_tlb s _ Hinv Hv) as [-> _]. rewrite Hv, Hidx.
  destruct (residente_exists s Hinv Hnum Hidx) as [p0 Hp0].
  destruct Halg as [Halg|Halg].
  - rewrite decide_True by done.
    destruct (fifo_queue s) as [|v resto] eqn:Hq; [|by eexists].
    assert (p0 ∈ fifo_queue s) as Hin by (apply (inv_fifo _ Hinv Halg); eauto).
    rewrite Hq in Hin. by apply elem_of_nil in Hin.
  - rewrite decide_False by congruence. rewrite decide_True by done.
    destruct (uso_recente s) as [|kv d] eqn:Hq; [|by eexists].
    assert (p0 ∈ (uso_recente s).*1) as Hin by (apply (inv_lru _ Hinv Halg); eauto).
    rewrite Hq in Hin. by apply elem_of_nil in Hin.
Qed.

(** ** The least timestamp, first in insertion order *)

Lemma min_from_spec best d :
  (min_from best d = best ∧ ∀ kv, kv ∈ d → best.2 ≤ kv.2) ∨
  (∃ l1 l2, d = l1 ++ (min_from best d :: l2) ∧ (min_from best d).2 < best.2 ∧
     (∀ kv, kv ∈ l1 → (min_from best d).2 < kv.2) ∧
     (∀ kv, kv ∈ l2 → (min_from best d).2 ≤ kv.2)).
Proof.
  revert best. induction d as [|x d IH]; intros best; simpl.
  { left. split; [done|]. by intros kv ?%elem_of_nil. }
  destruct (Z.ltb_spec x.2 best.2) as [Hlt|Hge].
  - right. destruct (IH x) as [[-> Hall]|(l1 & l2 & Hd & Hlt' & H1 & H2)].
    + exists [], d. split_and!; try done. by intros kv ?%elem_of_nil.
    + exists (x :: l1), l2. split_and!.
      * simpl. by rewrite <-Hd.
      * lia.
      * intros kv [->|Hin]%elem_of_cons; [done|by apply H1].
      * done.
  - destruct (IH best) as [[-> Hall]|(l1 & l2 & Hd & Hlt' & H1 & H2)].
    + left. split; [done|]. intros kv [->|Hin]%elem_of_cons; [done|by apply Hall].
    + right. exists (x :: l1), l2. split_and!.
      * simpl. by rewrite <-Hd.
      * done.
      * intros kv [->|Hin]%elem_of_cons; [lia|by apply H1].
      * done.
Qed.

Lemma py_min_spec d v :
  py_min d = Ok v →
  ∃ t l1 l2, d = l1 ++ ((v, t) :: l2) ∧
    (∀ kv, kv ∈ l1 → t < kv.2) ∧ (∀ kv, kv ∈ l2 → t ≤ kv.2).
Proof.
  destruct d as [|x d]; intros ?; simplify_eq/=.
  destruct (min_from_spec x d) as [[Heq Hall]|(l1 & l2 & Hd & Hlt & H1 & H2)].
  - rewrite Heq. exists x.2, [], d. destruct x as [k t]. split_and!; try done.
    by intros kv ?%elem_of_nil.
  - destruct (min_from x d) as [k t] eqn:Hm. simpl in *.
    exists t, (x :: l1), l2. split_and!.
    + by rewrite Hd.
    + intros kv [->|Hin]%elem_of_cons; [done|by apply H1].
    + done.
Qed.

(** ** Two identical requests in a row *)

Lemma read_at_lookup store p (i : nat) :
  0 ≤ p → (i < 256)%nat →
  read_at store p !! i = store !! (Z.to_nat p * 256 + i)%nat.
Proof.
  intros Hp Hi. unfold read_at, page_size.
  rewrite lookup_take_lt by (change (Z.to_nat 256) with 256%nat; lia).
  rewrite lookup_drop. f_equal. rewrite Z2Nat.inj_mul by lia.
  change (Z.to_nat 256) with 256%nat. lia.
Qed.

Lemma buscar_filter_None p v t :
  buscar p t = None → buscar p (filter (λ e, tlb_pagina e ≠ v) t) = None.
Proof.
  induction t as [|e t IH]; [done|]. simpl. case_decide; [done|]. intros Hb.
  rewrite filter_cons. case_decide; simpl; [|by apply IH].
  rewrite decide_False by done. by apply IH.
Qed.

Lemma falta_tlb p s q s1 :
  falta p s q s1 → buscar p (tlb s) = None → buscar p (tlb s1) = None.
Proof.
  intros [q' _ _ _|v resto info _ _ _ _ _ _ _|v info _ _ _ _ _ _ _ _] Hb; simpl.
  - unfold registrado. by repeat case_decide.
  - by apply buscar_filter_None.
  - by apply buscar_filter_None.
Qed.

Lemma resolve_tlb p s q s1 : resolve p s q s1 → buscar p (tlb s1) = Some q.
Proof.
  intros [q' Hb|q' Hb Hv|q' s1' Hb Hv Hf]; simpl; [done|by apply buscar_push_tlb|].
  apply buscar_push_tlb. eapply falta_tlb; [done|]. done.
Qed.

(** The second of two identical requests hits the TLB; this holds from
    any state in which the first one returns. *)
Lemma acessar_twice va s r s1 :
  acessar va s = Ok (r, s1) →
  ∃ s2, acessar va s1 = Ok (r, s2) ∧ page_faults s2 = page_faults s1 ∧
        tlb_hits s2 = tlb_hits s1 + 1.
Proof.
  destruct r as [pa v].
  intros (q & s' & d & b & Hr & -> & Hpm & Hb & -> & ->)%acessar_Ok.
  set (p := (split va).1) in *. apply resolve_tlb in Hr.
  destruct (tocado_config p s') as (_ & _ & _ & Hpm1 & _ & Ht1 & _).
  set (s1 := tocado p s') in *.
  exists (tocado p (incr_tlb_hits (incr_acessos_clock s1))).
  destruct (tocado_config p (incr_tlb_hits (incr_acessos_clock s1)))
    as (_ & _ & _ & Hpm2 & _ & _ & _ & _ & Hpf & _).
  split; [|split].
  - apply acessar_Ok. exists q, (incr_tlb_hits (incr_acessos_clock s1)), d, b.
    split_and!; try done.
    + apply resolve_tlb_hit. simpl. by rewrite Ht1.
    + by rewrite Hpm2.
  - by rewrite Hpf.
  - unfold tocado. by case_decide.
Qed.

Lemma acessar_falta_vitima va s r s' :
  Inv s → acessar va s = Ok (r, s') →
  pagina_valida (page_table s) (split va).1 = None →
  index_None (quadros s) = None →
  is_Some (vitima s va).
Proof.
  intros Hinv Hac Hv Hidx. destruct r as [pa x].
  apply acessar_Ok in Hac as (q & s1 & d & b & Hr & _).
  unfold vitima. destruct (Inv_invalid_not_in_tlb s _ Hinv Hv) as [Hb _].
  rewrite Hb, Hv, Hidx.
  destruct Hr as [q Hb'|q Hb' Hv'|q s1 Hb' Hv' Hf]; simpl in *; [congruence..|].
  destruct Hf as [q Hidx'|v resto info _ Halg Hq|v info _ Halg Hmin]; simpl in *.
  - congruence.
  - rewrite decide_True by done. rewrite Hq. by eexists.
  - rewrite decide_False by congruence. rewrite decide_True by done.
    rewrite Hmin. by eexists.
Qed.

(** Eviction changes the validity of the victim and of the new page only. *)
Lemma acessar_substitui_outros va s r s' v x :
  Inv s → acessar va s = Ok (r, s') → vitima s va = Some v →
  x ≠ v → x ≠ (split va).1 →
  pagina_valida (page_table s') x = pagina_valida (page_table s) x.
Proof.
  intros Hinv Hac Hvit Hxv Hxp.
  destruct (acessar_substitui va s r s' v Hinv Hac Hvit) as (f & _ & _ & -> & _).
  rewrite !pagina_valida_insert. by rewrite !decide_False by done.
Qed.

(** ** Following a run step by step *)

Lemma pronto_acessar store alg s va r s' :
  pronto store alg s → acessar va s = Ok (r, s') → pronto store alg s'.
Proof.
  intros (Hinv & Ha & Hn & Hs & Hp) Hac.
  destruct (acessar_config va s r s' Hac) as (Ha' & Hn' & Hs').
  split_and!; [by eapply Inv_acessar|congruence|lia|congruence|done].
Qed.

Lemma pronto_progress store alg s va :
  pronto store alg s → loadable store (split va).1 →
  ∃ r s', acessar va s = Ok (r, s').
Proof.
  intros (Hinv & Ha & Hn & Hs & Hp) Hl.
  apply acessar_progress; [done| |done|by rewrite Hs].
  unfold politica_conhecida. by rewrite Ha.
Qed.

Lemma passo_sem_falta store alg s va f :
  pronto store alg s →
  pagina_valida (page_table s) (split va).1 = Some f →
  ∃ r s', acessar va s = Ok (r, s') ∧ pronto store alg s' ∧
    page_table s' = page_table s ∧ quadros s' = quadros s ∧
    fifo_queue s' = fifo_queue s ∧ clock s' = clock s + 1 ∧
    page_faults s' = page_faults s ∧
    uso_recente s' = (if decide (alg = "LRU"%string)
                      then dict_set (split va).1 (clock s + 1) (uso_recente s)
                      else uso_recente s).
Proof.
  intros Hp Hv. pose proof Hp as (Hinv & Ha & Hn & Hs & Hpol).
  destruct (pronto_progress store alg s va Hp) as (r & s' & Hac).
  { destruct (core_memory _ _ _ _ _ (inv_core _ Hinv) _ _ Hv) as [_ Hl]. by rewrite <-Hs. }
  exists r, s'. split; [done|]. split; [by eapply pronto_acessar|].
  destruct (acessar_sem_falta va s r s' f Hinv Hac Hv)
    as (? & ? & ? & ? & ? & ? & ? & ? & ?).
  rewrite <-Ha. split_and!; done.
Qed.

Lemma passo_quadro_livre store alg s va q :
  pronto store alg s → loadable store (split va).1 →
  pagina_valida (page_table s) (split va).1 = None →
  index_None (quadros s) = Some q →
  ∃ r s', acessar va s = Ok (r, s') ∧ pronto store alg s' ∧
    page_table s' = <[(split va).1 := {| quadro := q; valido := true |}]> (page_table s) ∧
    quadros s' = <[q := Some (split va).1]> (quadros s) ∧
    fifo_queue s' = (if decide (alg = "FIFO"%string)
                     then fifo_queue s ++ [(split va).1] else fifo_queue s) ∧
    clock s' = clock s + 1 ∧ page_faults s' = page_faults s + 1 ∧
    uso_recente s' = (if decide (alg = "LRU"%string)
                      then dict_set (split va).1 (clock s + 1) (uso_recente s)
                      else uso_recente s).
Proof.
  intros Hp Hl Hv Hidx. pose proof Hp as (Hinv & Ha & Hn & Hs & Hpol).
  destruct (pronto_progress store alg s va Hp Hl) as (r & s' & Hac).
  exists r, s'. split; [done|]. split; [by eapply pronto_acessar|].
  destruct (acessar_quadro_livre va s r s' q Hinv Hac Hv Hidx)
    as (? & ? & ? & ? & ? & ? & ? & ? & ?).
  rewrite <-Ha. split_and!; done.
Qed.

Lemma passo_substitui store alg s va v :
  pronto store alg s → loadable store (split va).1 →
  pagina_valida (page_table s) (split va).1 = None →
  index_None (quadros s) = None →
  (if decide (alg = "FIFO"%string) then head (fifo_queue s) = Some v
   else py_min (uso_recente s) = Ok v) →
  ∃ r s' f, acessar va s = Ok (r, s') ∧ pronto store alg s' ∧
    vitima s va = Some v ∧ pagina_valida (page_table s) v = Some f ∧
    page_table s' = <[(split va).1 := {| quadro := f; valido := true |}]>
                      (<[v := {| quadro := f; valido := false |}]> (page_table s)) ∧
    quadros s' = <[f := Some (split va).1]> (quadros s) ∧
    fifo_queue s' = (if decide (alg = "FIFO"%string)
                     then tail (fifo_queue s) ++ [(split va).1] else fifo_queue s) ∧
    clock s' = clock s + 1 ∧ page_faults s' = page_faults s + 1 ∧
    uso_recente s' = (if decide (alg = "LRU"%string)
                      then dict_set (split va).1 (clock s + 1)
                             (filter (λ kv : Z * Z, kv.1 ≠ v) (uso_recente s))
                      else uso_recente s).
Proof.
  intros Hp Hl Hv Hidx Hsel. pose proof Hp as (Hinv & Ha & Hn & Hs & Hpol).
  destruct (pronto_progress store alg s va Hp Hl) as (r & s' & Hac).
  assert (vitima s va = Some v) as Hvit.
  { unfold vitima. destruct (Inv_invalid_not_in_tlb s _ Hinv Hv) as [-> _].
    rewrite Hv, Hidx, Ha. destruct Hpol as [->| ->].
    - by rewrite decide_True in * by done.
    - rewrite decide_False in * by done. rewrite decide_True by done. by rewrite Hsel. }
  destruct (acessar_substitui va s r s' v Hinv Hac Hvit)
    as (f & ? & ? & ? & ? & ? & ? & ? & ? & ? & ? & ?).
  exists r, s', f. split; [done|]. split; [by eapply pronto_acessar|].
  rewrite <-Ha. split_and!; done.
Qed.

Lemma pronto_init store alg s n :
  init (Some store) n alg = Ok s → (1 ≤ n)%nat →
  upper alg = "FIFO"%string ∨ upper alg = "LRU"%string →
  pronto store (upper alg) s ∧ page_table s = ∅ ∧ quadros s = replicate n None ∧
  fifo_queue s = [] ∧ uso_recente s = [] ∧ clock s = 0 ∧ page_faults s = 0.
Proof.
  intros Hi Hn Hpol. pose proof (Inv_init _ _ _ _ Hi) as Hinv.
  simplify_eq/=. by split_and!.
Qed.

Ltac resolve_pagina :=
  rewrite ?pagina_valida_insert, ?pagina_valida_empty; simpl;
  repeat first [rewrite decide_True by done | rewrite decide_False by done].

Lemma NoDup_5_ne (p0 p1 p2 p3 p4 : Z) :
  NoDup [p0; p1; p2; p3; p4] →
  p0 ≠ p1 ∧ p0 ≠ p2 ∧ p0 ≠ p3 ∧ p0 ≠ p4 ∧ p1 ≠ p2 ∧ p1 ≠ p3 ∧ p1 ≠ p4 ∧
  p2 ≠ p3 ∧ p2 ≠ p4 ∧ p3 ≠ p4.
Proof.
  rewrite !NoDup_cons, !not_elem_of_cons. naive_solver.
Qed.

Local Opaque split.

Lemma cenario_fifo store alg a0 a1 a2 a3 a4 s0 :
  upper alg = "FIFO"%string → init (Some store) 4 alg = Ok s0 →
  NoDup [(split a0).1; (split a1).1; (split a2).1; (split a3).1; (split a4).1] →
  Forall (λ a, loadable store (split a).1) [a0; a1; a2; a3; a4] →
  ∃ rs s4 r s5,
    acessar_todos [a0; a1; a2; a3] s0 = Ok (rs, s4) ∧
    acessar a4 s4 = Ok (r, s5) ∧
    fifo_queue s4 = [(split a0).1; (split a1).1; (split a2).1; (split a3).1] ∧
    vitima s4 a4 = Some (split a0).1 ∧
    pagina_valida (page_table s4) (split a0).1 = Some 0%nat ∧
    pagina_valida (page_table s5) (split a0).1 = None ∧
    pagina_valida (page_table s5) (split a1).1 = Some 1%nat ∧
    pagina_valida (page_table s5) (split a2).1 = Some 2%nat ∧
    pagina_valida (page_table s5) (split a3).1 = Some 3%nat ∧
    pagina_valida (page_table s5) (split a4).1 = Some 0%nat ∧
    fifo_queue s5 = [(split a1).1; (split a2).1; (split a3).1; (split a4).1] ∧
    page_faults s5 = 5.
Proof.
  intros Halg Hi Hnd Hload.
  apply NoDup_5_ne in Hnd as (?&?&?&?&?&?&?&?&?&?).
  assert (loadable store (split a0).1 ∧ loadable store (split a1).1 ∧
          loadable store (split a2).1 ∧ loadable store (split a3).1 ∧
          loadable store (split a4).1) as (L0 & L1 & L2 & L3 & L4).
  { rewrite !Forall_cons in Hload. tauto. }
  destruct (pronto_init store alg s0 4 Hi) as (P0 & Hpt0 & Hq0 & Hf0 & _ & _ & Hpf0);
    [lia|by left|].
  rewrite Halg in P0.
  destruct (passo_quadro_livre _ _ s0 a0 0%nat P0 L0)
    as (r0 & s1 & Hac0 & P1 & Hpt1 & Hq1 & Hf1 & _ & Hpf1 & _).
  { rewrite Hpt0. by resolve_pagina. }
  { by rewrite Hq0. }
  rewrite Hpt0 in Hpt1. rewrite Hq0 in Hq1. rewrite Hf0 in Hf1. simpl in Hq1, Hf1.
  destruct (passo_quadro_livre _ _ s1 a1 1%nat P1 L1)
    as (r1 & s2 & Hac1 & P2 & Hpt2 & Hq2 & Hf2 & _ & Hpf2 & _).
  { rewrite Hpt1. by resolve_pagina. }
  { by rewrite Hq1. }
  rewrite Hpt1 in Hpt2. rewrite Hq1 in Hq2. rewrite Hf1 in Hf2. simpl in Hq2, Hf2.
  destruct (passo_quadro_livre _ _ s2 a2 2%nat P2 L2)
    as (r2 & s3 & Hac2 & P3 & Hpt3 & Hq3 & Hf3 & _ & Hpf3 & _).
  { rewrite Hpt2. by resolve_pagina. }
  { by rewrite Hq2. }
  rewrite Hpt2 in Hpt3. rewrite Hq2 in Hq3. rewrite Hf2 in Hf3. simpl in Hq3, Hf3.
  destruct (passo_quadro_livre _ _ s3 a3 3%nat P3 L3)
    as (r3 & s4 & Hac3 & P4 & Hpt4 & Hq4 & Hf4 & _ & Hpf4 & _).
  { rewrite Hpt3. by resolve_pagina. }
  { by rewrite Hq3. }
  rewrite Hpt3 in Hpt4. rewrite Hq3 in Hq4. rewrite Hf3 in Hf4. simpl in Hq4, Hf4.
  destruct (passo_substitui _ _ s4 a4 (split a0).1 P4 L4)
    as (r4 & s5 & f & Hac4 & P5 & Hvit & Hv0 & Hpt5 & Hq5 & Hf5 & _ & Hpf5 & _).
  { rewrite Hpt4. by resolve_pagina. }
  { by rewrite Hq4. }
  { simpl. by rewrite Hf4. }
  assert (pagina_valida (page_table s4) (split a0).1 = Some 0%nat) as Hv0'.
  { rewrite Hpt4. by resolve_pagina. }
  assert (f = 0%nat) as -> by congruence.
  rewrite Hpt4 in Hpt5. rewrite Hf4 in Hf5. simpl in Hf5.
  exists [r0; r1; r2; r3], s4, r4, s5. split_and!; try done.
  - simpl. by rewrite Hac0, Hac1, Hac2, Hac3.
  - rewrite Hpt5. by resolve_pagina.
  - rewrite Hpt5. by resolve_pagina.
  - rewrite Hpt5. by resolve_pagina.
  - rewrite Hpt5. by resolve_pagina.
  - rewrite Hpt5. by resolve_pagina.
  - lia.
Qed.

Ltac distinto := first [done | congruence | by intros Hx; apply Hx].

Ltac resolve_dict :=
  repeat (simpl;
          first [rewrite decide_True by distinto | rewrite decide_False by distinto]);
  simpl.

Ltac soma H :=
  repeat first
    [ progress change (0 + 1) with 1 in H | progress change (1 + 1) with 2 in H
    | progress change (2 + 1) with 3 in H | progress change (3 + 1) with 4 in H
    | progress change (4 + 1) with 5 in H | progress change (5 + 1) with 6 in H ].

Lemma cenario_lru store alg a0 a1 a2 a3 a4 s0 :
  upper alg = "LRU"%string → init (Some store) 4 alg = Ok s0 →
  NoDup [(split a0).1; (split a1).1; (split a2).1; (split a3).1; (split a4).1] →
  Forall (λ a, loadable store (split a).1) [a0; a1; a2; a3; a4] →
  ∃ rs s5 r s6,
    acessar_todos [a0; a1; a2; a3; a0] s0 = Ok (rs, s5) ∧
    acessar a4 s5 = Ok (r, s6) ∧
    uso_recente s5 = [((split a0).1, 5); ((split a1).1, 2);
                      ((split a2).1, 3); ((split a3).1, 4)] ∧
    vitima s5 a4 = Some (split a1).1 ∧
    pagina_valida (page_table s5) (split a1).1 = Some 1%nat ∧
    pagina_valida (page_table s6) (split a1).1 = None ∧
    pagina_valida (page_table s6) (split a0).1 = Some 0%nat ∧
    pagina_valida (page_table s6) (split a2).1 = Some 2%nat ∧
    pagina_valida (page_table s6) (split a3).1 = Some 3%nat ∧
    pagina_valida (page_table s6) (split a4).1 = Some 1%nat ∧
    uso_recente s6 = [((split a0).1, 5); ((split a2).1, 3);
                      ((split a3).1, 4); ((split a4).1, 6)] ∧
    page_faults s6 = 5.
Proof.
  intros Halg Hi Hnd Hload.
  apply NoDup_5_ne in Hnd as (?&?&?&?&?&?&?&?&?&?).
  assert (loadable store (split a0).1 ∧ loadable store (split a1).1 ∧
          loadable store (split a2).1 ∧ loadable store (split a3).1 ∧
          loadable store (split a4).1) as (L0 & L1 & L2 & L3 & L4).
  { rewrite !Forall_cons in Hload. tauto. }
  destruct (pronto_init store alg s0 4 Hi) as (P0 & Hpt0 & Hq0 & _ & Hu0 & Hc0 & Hpf0);
    [lia|by right|].
  rewrite Halg in P0.
  destruct (passo_quadro_livre _ _ s0 a0 0%nat P0 L0)
    as (r0 & s1 & Hac0 & P1 & Hpt1 & Hq1 & _ & Hc1 & Hpf1 & Hu1).
  { rewrite Hpt0. by resolve_pagina. }
  { by rewrite Hq0. }
  rewrite Hpt0 in Hpt1. rewrite Hq0 in Hq1. rewrite Hu0, Hc0 in Hu1. soma Hu1. rewrite Hc0 in Hc1. soma Hc1.
  simpl in Hq1, Hu1, Hc1.
  destruct (passo_quadro_livre _ _ s1 a1 1%nat P1 L1)
    as (r1 & s2 & Hac1 & P2 & Hpt2 & Hq2 & _ & Hc2 & Hpf2 & Hu2).
  { rewrite Hpt1. by resolve_pagina. }
  { by rewrite Hq1. }
  rewrite Hpt1 in Hpt2. rewrite Hq1 in Hq2. rewrite Hu1, Hc1 in Hu2. soma Hu2. rewrite Hc1 in Hc2. soma Hc2.
  revert Hu2. resolve_dict. intros Hu2. simpl in Hq2, Hc2.
  destruct (passo_quadro_livre _ _ s2 a2 2%nat P2 L2)
    as (r2 & s3 & Hac2 & P3 & Hpt3 & Hq3 & _ & Hc3 & Hpf3 & Hu3).
  { rewrite Hpt2. by resolve_pagina. }
  { by rewrite Hq2. }
  rewrite Hpt2 in Hpt3. rewrite Hq2 in Hq3. rewrite Hu2, Hc2 in Hu3. soma Hu3. rewrite Hc2 in Hc3. soma Hc3.
  revert Hu3. resolve_dict. intros Hu3. simpl in Hq3, Hc3.
  destruct (passo_quadro_livre _ _ s3 a3 3%nat P3 L3)
    as (r3 & s4 & Hac3 & P4 & Hpt4 & Hq4 & _ & Hc4 & Hpf4 & Hu4).
  { rewrite Hpt3. by resolve_pagina. }
  { by rewrite Hq3. }
  rewrite Hpt3 in Hpt4. rewrite Hq3 in Hq4. rewrite Hu3, Hc3 in Hu4. soma Hu4. rewrite Hc3 in Hc4. soma Hc4.
  revert Hu4. resolve_dict. intros Hu4. simpl in Hq4, Hc4.
  destruct (passo_sem_falta _ _ s4 a0 0%nat P4)
    as (r4 & s5 & Hac4 & P5 & Hpt5 & Hq5 & _ & Hc5 & Hpf5 & Hu5).
  { rewrite Hpt4. by resolve_pagina. }
  rewrite Hpt4 in Hpt5. rewrite Hq4 in Hq5. rewrite Hu4, Hc4 in Hu5. soma Hu5. rewrite Hc4 in Hc5. soma Hc5.
  revert Hu5. resolve_dict. intros Hu5. simpl in Hc5.
  destruct (passo_substitui _ _ s5 a4 (split a1).1 P5 L4)
    as (r5 & s6 & f & Hac5 & P6 & Hvit & Hv1 & Hpt6 & Hq6 & _ & _ & Hpf6 & Hu6).
  { rewrite Hpt5. by resolve_pagina. }
  { by rewrite Hq5. }
  { simpl. by rewrite Hu5. }
  assert (pagina_valida (page_table s5) (split a1).1 = Some 1%nat) as Hv1'.
  { rewrite Hpt5. by resolve_pagina. }
  assert (f = 1%nat) as -> by congruence.
  rewrite Hpt5 in Hpt6. rewrite Hu5, Hc5 in Hu6. soma Hu6.
  rewrite !filter_cons, filter_nil in Hu6. revert Hu6. resolve_dict. intros Hu6.
  exists [r0; r1; r2; r3; r4], s5, r5, s6. split_and!; try done.
  all: try (rewrite Hpt6; by resolve_pagina).
  - simpl. by rewrite Hac0, Hac1, Hac2, Hac3, Hac4.
  - lia.
Qed.

Local Transparent split.

(** ** Timestamps *)

Lemma dict_get_dict_set k v d : dict_get k (dict_set k v d) = Some v.
Proof.
  unfold dict_get. induction d as [|[k' v'] d IH]; simpl.
  - by rewrite decide_True.
  - destruct (decide (k' = k)) as [->|Hne]; simpl.
    + by rewrite decide_True.
    + rewrite decide_False by done.
      destruct (list_find _ (dict_set k v d)) as [[i kv]|]; simplify_eq/=; done.
Qed.

Lemma falta_clock p s q s1 : falta p s q s1 → clock s1 = clock s.
Proof.
  intros [q' _ _ _|v resto info _ _ _ _ _ _ _|v info _ _ _ _ _ _ _ _]; simpl; try done.
  unfold registrado. by repeat case_decide.
Qed.

Lemma resolve_clock p s q s1 : resolve p s q s1 → clock s1 = clock s.
Proof.
  intros [q' Hb|q' Hb Hv|q' s1' Hb Hv Hf]; simpl; try done.
  by apply falta_clock in Hf.
Qed.

(** Every call that returns, hit or fault, stamps its page with the new
    clock. *)
Lemma acessar_lru_touch va s r s' :
  algoritmo s = "LRU"%string → acessar va s = Ok (r, s') →
  clock s' = clock s + 1 ∧
  dict_get (split va).1 (uso_recente s') = Some (clock s').
Proof.
  intros Halg Hac. destruct r as [pa v].
  apply acessar_Ok in Hac as (q & s1 & d & b & Hr & -> & _).
  pose proof (resolve_clock _ _ _ _ Hr) as Hc.
  apply resolve_config in Hr as (Ha & _). simpl in Ha, Hc.
  unfold tocado. rewrite decide_True by congruence. simpl.
  split; [done|]. apply dict_get_dict_set.
Qed.

(** ** Which exceptions a call can raise *)

Lemma bind_Raise {A B} (c : M A) (k : A → M B) s e :
  bind c k s = Raise e ↔
  c s = Raise e ∨ ∃ a s1, c s = Ok (a, s1) ∧ k a s1 = Raise e.
Proof.
  unfold bind. destruct (c s) as [[a s1]|e'].
  - split; [eauto|]. intros [?|(a' & s1' & ? & ?)]; by simplify_eq.
  - split; [intros ?; simplify_eq; by left|]. intros [?|(a' & s1' & ? & ?)]; by simplify_eq.
Qed.

Lemma instala_Raise p q s e : instala p q s = Raise e → ¬ erro_de_politica e.
Proof.
  unfold instala, carrega_pagina, py_setitem, erro_de_politica. run_monad.
  repeat case_decide; simpl; repeat case_decide; intros ?; by simplify_eq.
Qed.

Lemma substituicao_fifo_Raise p s e :
  substituicao_fifo p s = Raise e → ¬ erro_de_politica e.
Proof.
  unfold substituicao_fifo, page_table_getitem, remover_da_tlb. run_monad.
  destruct (fifo_queue s) as [|v resto]; [by intros ?; simplify_eq|].
  simpl. destruct (page_table s !! v) as [info|]; [|by intros ?; simplify_eq].
  match goal with |- context [instala p ?q ?s0] =>
    destruct (instala p q s0) as [[[] s1]|e'] eqn:Hi end; [done|].
  intros ?; simplify_eq. by eapply instala_Raise.
Qed.

Lemma substituicao_lru_Raise p s e :
  substituicao_lru p s = Raise e → ¬ erro_de_politica e.
Proof.
  unfold substituicao_lru, page_table_getitem, remover_da_tlb. run_monad.
  destruct (py_min (uso_recente s)) as [v|e'] eqn:Hmin.
  2:{ destruct (uso_recente s); simplify_eq/=. by intros ?; simplify_eq. }
  destruct (page_table s !! v) as [info|]; [|by intros ?; simplify_eq].
  simpl. unfold dict_del. destruct (dict_get v (uso_recente s)); [|by intros ?; simplify_eq].
  match goal with |- context [instala p ?q ?s0] =>
    destruct (instala p q s0) as [[[] s1]|e'] eqn:Hi end; [done|].
  intros ?; simplify_eq. by eapply instala_Raise.
Qed.

Lemma tratar_page_fault_Raise p s e :
  politica_conhecida s → tratar_page_fault p s = Raise e → ¬ erro_de_politica e.
Proof.
  intros Hpol. unfold tratar_page_fault. run_monad.
  destruct (index_None (quadros s)) as [f|].
  - destruct (instala p f s) as [[[] s1]|e'] eqn:Hi.
    + by repeat case_decide.
    + intros ?; simplify_eq. by eapply instala_Raise.
  - repeat case_decide.
    + apply substituicao_fifo_Raise.
    + apply substituicao_lru_Raise.
    + by destruct Hpol.
Qed.

(** The branch is taken exactly by an unknown policy with no free frame. *)
Lemma tratar_page_fault_politica p s :
  ¬ politica_conhecida s → index_None (quadros s) = None →
  tratar_page_fault p s = Raise (SystemExit AlgoritmoInvalido).
Proof.
  intros Hpol Hidx. unfold tratar_page_fault, politica_conhecida in *. run_monad.
  rewrite Hidx. repeat case_decide; tauto.
Qed.

Lemma acessar_Raise va s e :
  politica_conhecida s → acessar va s = Raise e → ¬ erro_de_politica e.
Proof.
  intros Hpol. unfold acessar. destruct (split va) as [p off].
  unfold buscar_na_tlb, ler_memoria. run_monad.
  assert (∀ q s1, match
      match physical_memory s1 !! q with
      | Some (Some page_data) =>
          match page_data !! Z.to_nat off with
          | Some b => λ s : MemoryManager, Ok (signed (byte_value b), s)
          | None => λ _ : MemoryManager, Raise IndexError
          end
      | Some None => λ _ : MemoryManager, Raise TypeError
      | None => λ _ : MemoryManager, Raise IndexError
      end s1
    with
    | Ok (a0, s'1) => Ok (Z.lor (Z.shiftl (Z.of_nat q) offset_bits) off, a0, s'1)
    | Raise e => Raise e
    end = Raise e → ¬ erro_de_politica e) as Hler.
  { intros q s1. unfold erro_de_politica. repeat case_match; intros ?; by simplify_eq. }
  destruct (buscar p (tlb (incr_acessos_clock s))) as [q|].
  { repeat case_decide; apply Hler. }
  destruct (pagina_valida _ p) as [q|].
  { rewrite atualiza_tlb_run. repeat case_decide; apply Hler. }
  destruct (tratar_page_fault p _) as [[q s1]|e'] eqn:Hf.
  - rewrite atualiza_tlb_run. repeat case_decide; apply Hler.
  - intros ?; simplify_eq. eapply tratar_page_fault_Raise; [|done]. done.
Qed.

(** ** What a request returns, end to end *)

Lemma lor_shiftl_add f off :
  0 ≤ off < 256 → Z.lor (Z.shiftl f 8) off = f * 256 + off.
Proof.
  intros Hoff. rewrite Z.shiftl_mul_pow2 by lia.
  assert (Z.land (f * 2 ^ 8) off = 0) as Hland.
  { apply Z.bits_inj'. intros n Hn. rewrite Z.land_spec, Z.bits_0.
    destruct (Z.lt_ge_cases n 8) as [Hlt|Hge].
    - by rewrite Z.mul_pow2_bits_low.
    - destruct (decide (off = 0)) as [->|Hne].
      + by rewrite Z.bits_0, andb_false_r.
      + rewrite (Z.bits_above_log2 off n); [apply andb_false_r|lia|].
        assert (Z.log2 off < 8); [|lia]. apply Z.log2_lt_pow2; [lia|].
        change (2 ^ 8) with 256. lia. }
  change (2 ^ 8) with 256 in *.
  rewrite <-Z.lxor_lor by done. by rewrite Z.add_nocarry_lxor.
Qed.

(** The value is the byte of the backing store at the masked virtual
    address, read as a signed byte. *)
Lemma acessar_reads_backing_store va s pa v s' :
  reachable s → acessar va s = Ok ((pa, v), s') →
  ∃ f b,
    pagina_valida (page_table s') (split va).1 = Some f ∧
    pa = Z.of_nat f * 256 + (split va).2 ∧
    backing_store s !! Z.to_nat (Z.land va 0xFFFF) = Some b ∧
    v = signed (byte_value b).
Proof.
  intros Hr%reachable_Inv Hac.
  pose proof (acessar_config _ _ _ _ Hac) as (_ & _ & Hstore).
  apply acessar_Ok in Hac as (q & s1 & d & b & Hres & -> & Hpm & Hb & -> & ->).
  apply Inv_resolve in Hres as [Hinv1 Hq]; [|by destruct Hr].
  destruct (tocado_config (split va).1 s1) as (_ & _ & Hbs & Hpm' & Hpt & _).
  rewrite Hbs in Hstore. rewrite Hpm' in Hpm.
  destruct (core_memory _ _ _ _ _ (inv_core _ Hinv1) _ _ Hq) as [Hm _].
  rewrite Hm in Hpm. simplify_eq.
  pose proof (split_range va) as [Hp Ho]. pose proof (split_recompose va) as Hrec.
  exists q, b. split_and!; try done.
  - by rewrite Hpt.
  - unfold offset_bits. apply lor_shiftl_add. lia.
  - rewrite read_at_lookup in Hb by lia. rewrite <-Hstore, <-Hb. f_equal. lia.
Qed.

(** ** Under LRU the timestamps are pairwise distinct *)

Lemma dict_set_values k c d x :
  x ∈ (dict_set k c d).*2 → x = c ∨ x ∈ d.*2.
Proof.
  induction d as [|[k' v'] d IH]; simpl.
  - intros ?%list_elem_of_singleton. by left.
  - case_decide; simpl; rewrite !elem_of_cons; naive_solver.
Qed.

Lemma dict_set_fresh k c d :
  (∀ x, x ∈ d.*2 → x < c) → NoDup d.*2 →
  NoDup (dict_set k c d).*2 ∧ ∀ x, x ∈ (dict_set k c d).*2 → x ≤ c.
Proof.
  intros Hlt Hnd. split.
  - induction d as [|[k' v'] d IH]; simpl; [apply NoDup_singleton|].
    simpl in Hlt, Hnd. apply NoDup_cons in Hnd as [Hv Hnd].
    case_decide; simpl; apply NoDup_cons.
    + split; [|done]. intros Hin. assert (c < c); [|lia]. apply Hlt. by right.
    + split.
      * intros [->|Hin]%dict_set_values; [|done].
        assert (c < c); [|lia]. apply Hlt. left.
      * apply IH; [|done]. intros x Hx. apply Hlt. by right.
  - intros x [->|Hx]%dict_set_values; [lia|]. apply Hlt in Hx. lia.
Qed.

Lemma acessar_uso_recente va s r s' :
  Inv s → algoritmo s = "LRU"%string → acessar va s = Ok (r, s') →
  clock s' = clock s + 1 ∧
  ∃ d, d `sublist_of` uso_recente s ∧
       uso_recente s' = dict_set (split va).1 (clock s + 1) d.
Proof.
  intros Hinv Halg Hac.
  destruct (pagina_valida (page_table s) (split va).1) as [f|] eqn:Hv.
  { destruct (acessar_sem_falta va s r s' f Hinv Hac Hv) as (_&_&_&_&_&Hc&_&Hu&_).
    rewrite decide_True in Hu by done. split; [done|]. by exists (uso_recente s). }
  destruct (index_None (quadros s)) as [q|] eqn:Hidx.
  { destruct (acessar_quadro_livre va s r s' q Hinv Hac Hv Hidx)
      as (_&_&_&_&_&Hu&_&Hc&_).
    rewrite decide_True in Hu by done. split; [done|]. by exists (uso_recente s). }
  destruct (acessar_falta_vitima va s r s' Hinv Hac Hv Hidx) as [v Hvit].
  destruct (acessar_substitui va s r s' v Hinv Hac Hvit)
    as (f & _ & _ & _ & _ & _ & _ & _ & Hu & _ & Hc & _).
  rewrite decide_True in Hu by done. split; [done|].
  eexists. split; [|done]. apply sublist_filter.
Qed.

Lemma carimbos_ok_acessar va s r s' :
  Inv s → algoritmo s = "LRU"%string → carimbos_ok s →
  acessar va s = Ok (r, s') → carimbos_ok s'.
Proof.
  intros Hinv Halg [Hle Hnd] Hac.
  destruct (acessar_uso_recente va s r s' Hinv Halg Hac) as (Hc & d & Hsub & Hu).
  assert (d.*2 `sublist_of` (uso_recente s).*2) as Hsub2 by (by apply fmap_sublist).
  destruct (dict_set_fresh (split va).1 (clock s + 1) d) as [Hnd' Hle'].
  - intros x Hx. eapply sublist_subseteq in Hx; [|done].
    apply list_elem_of_fmap in Hx as (kv & -> & Hkv). apply Hle in Hkv. lia.
  - by eapply sublist_NoDup.
  - split; rewrite Hu, ?Hc; [|done].
    intros kv Hkv. apply Hle'. by apply list_elem_of_fmap_2.
Qed.

(** So the least timestamp belongs to one page only, and the order of
    insertion never has to break a tie in a run. *)
Lemma reachable_carimbos_ok s :
  reachable s → algoritmo s = "LRU"%string → carimbos_ok s.
Proof.
  induction 1 as [fs n alg s Hi|s va r s' Hr IH Hac]; intros Halg.
  - destruct fs; simplify_eq/=. split; [by intros kv ?%elem_of_nil|apply NoDup_nil_2].
  - destruct (acessar_config _ _ _ _ Hac) as (Ha & _).
    eapply carimbos_ok_acessar; [by apply reachable_Inv|congruence|apply IH; congruence|done].
Qed.

(** ** The properties of the specification *)

(** C8. The address is masked to 16 bits and then split: the page is
    [(va & 0xFFFF) >> 8] and the offset [va & 0xFF]; the split is a total
    function (no error, no state), both parts are below 256 and they
    recompose the masked address; 0x1234 gives page 18 and offset 52. *)
Theorem split_masks_then_splits :
  (∀ va, split va = (Z.shiftr (Z.land va 0xFFFF) 8, Z.land va 0xFF)) ∧
  (∀ va, 0 ≤ (split va).1 < 256 ∧ 0 ≤ (split va).2 < 256 ∧
         Z.land va 0xFFFF = (split va).1 * 256 + (split va).2) ∧
  split 0x1234 = (18, 52).
Proof.
  split_and!.
  - apply split_eq.
  - intros va. pose proof (split_range va). pose proof (split_recompose va). tauto.
  - reflexivity.
Qed.

(** simulador_v2.py splits without the mask: it agrees with [split] on
    the addresses below 65536 and differs from there on. *)
Lemma V2_obter_pagina_sem_mascara :
  (∀ va, 0 ≤ va < 65536 →
     (V2.obter_pagina va, V2.obter_offset va) = split va) ∧
  V2.obter_pagina 65536 = 256 ∧ (split 65536).1 = 0.
Proof.
  split_and!; [|done..]. intros va Hva.
  rewrite split_eq. unfold V2.obter_pagina, V2.obter_offset, offset_bits.
  change 0xFFFF with (Z.ones 16). rewrite Z.land_ones by lia.
  by rewrite Z.mod_small by lia.
Qed.

Lemma byte_value_range b : 0 ≤ byte_value b ≤ 255.
Proof.
  unfold byte_value. pose proof (Byte.to_N_bounded b). lia.
Qed.

Lemma signed_spec raw :
  0 ≤ raw ≤ 255 →
  signed raw = (if decide (raw > 127) then raw - 256 else raw) ∧
  -128 ≤ signed raw ≤ 127 ∧ (signed raw) mod 256 = raw.
Proof.
  intros Hr. unfold signed. split; [done|]. case_decide.
  - split; [lia|]. symmetry. apply (Z.mod_unique _ _ (-1)); lia.
  - split; [lia|]. apply Z.mod_small. lia.
Qed.

(** C6. The value returned by [acessar] is the raw byte at (frame,
    offset) of physical memory read as a signed 8-bit integer: the raw
    byte minus 256 when it exceeds 127, the raw byte otherwise; a raw
    byte of 200 is reported as -56. *)
Theorem acessar_value_signed va s pa v s' :
  acessar va s = Ok ((pa, v), s') →
  ∃ (quadro : nat) page_data b,
    physical_memory s' !! quadro = Some (Some page_data) ∧
    page_data !! Z.to_nat (split va).2 = Some b ∧
    pa = Z.lor (Z.shiftl (Z.of_nat quadro) 8) (split va).2 ∧
    v = (if decide (byte_value b > 127) then byte_value b - 256 else byte_value b) ∧
    -128 ≤ v ≤ 127 ∧ v mod 256 = byte_value b ∧
    (byte_value b = 200 → v = -56).
Proof.
  intros (q & s1 & d & b & _ & -> & Hpm & Hb & -> & ->)%acessar_Ok.
  exists q, d, b. pose proof (signed_spec _ (byte_value_range b)) as (Hs & Hr & Hm).
  split_and!; try done; try lia. intros Hb200. unfold signed. by rewrite Hb200.
Qed.

(** simulador_v2.py returns the byte as it is stored, 0..255. *)
Lemma V2_ler_memoria_sem_sinal q off s v s' :
  V2.ler_memoria q off s = Ok (v, s') →
  ∃ page_data b, physical_memory s !! q = Some (Some page_data) ∧
    page_data !! Z.to_nat off = Some b ∧ v = byte_value b ∧ 0 ≤ v ≤ 255 ∧ s' = s.
Proof.
  unfold V2.ler_memoria. run_monad.
  destruct (physical_memory s !! q) as [[d|]|]; [|done..].
  destruct (d !! Z.to_nat off) as [b|] eqn:Hb; [|done].
  intros ?; simplify_eq. exists d, b. split_and!; try done; apply byte_value_range.
Qed.

(** C1. In every reachable state each TLB entry (page, frame) has a
    page-table entry for that page that is valid and names the same
    frame; so a page without a valid entry has no TLB entry, and after a
    call that evicts a victim no TLB entry for the victim remains. *)
Theorem tlb_entries_are_valid_mappings s :
  reachable s →
  (∀ e, e ∈ tlb s →
     page_table s !! tlb_pagina e =
       Some {| quadro := tlb_quadro e; valido := true |}) ∧
  (∀ p, pagina_valida (page_table s) p = None →
     buscar p (tlb s) = None ∧ ∀ e, e ∈ tlb s → tlb_pagina e ≠ p) ∧
  (∀ va r s' v, acessar va s = Ok (r, s') → vitima s va = Some v →
     pagina_valida (page_table s') v = None ∧ buscar v (tlb s') = None ∧
     ∀ e, e ∈ tlb s' → tlb_pagina e ≠ v).
Proof.
  intros Hr. pose proof (reachable_Inv s Hr) as Hinv. split_and!.
  - intros e He. apply pagina_valida_Some.
    by apply (core_tlb _ _ _ _ _ (inv_core _ Hinv)).
  - intros p Hp. by apply Inv_invalid_not_in_tlb.
  - intros va r s' v Hac Hvit.
    assert (pagina_valida (page_table s') v = None) as Hv.
    { destruct (acessar_substitui va s r s' v Hinv Hac Hvit) as (f & _ & Hne & -> & _).
      rewrite !pagina_valida_insert. rewrite decide_False by done.
      by rewrite decide_True. }
    split; [done|]. apply Inv_invalid_not_in_tlb; [|done].
    by eapply Inv_acessar.
Qed.

(** C9. In every reachable state the TLB holds at most 16 entries. *)
Theorem tlb_size_bounded s :
  reachable s → (length (tlb s) ≤ tlb_size)%nat ∧ tlb_size = 16%nat.
Proof.
  intros Hr%reachable_Inv. split; [|done].
  apply (core_tlb_size _ _ _ _ _ (inv_core _ Hr)).
Qed.

(** C10. In every reachable state two distinct pages with valid
    page-table entries are in distinct frames: a frame holds at most one
    resident page. *)
Theorem valid_pages_have_distinct_frames s p1 p2 info1 info2 :
  reachable s → p1 ≠ p2 →
  page_table s !! p1 = Some info1 → valido info1 = true →
  page_table s !! p2 = Some info2 → valido info2 = true →
  quadro info1 ≠ quadro info2 ∧
  quadros s !! quadro info1 = Some (Some p1) ∧
  quadros s !! quadro info2 = Some (Some p2).
Proof.
  intros Hr%reachable_Inv Hne H1 Hv1 H2 Hv2.
  destruct info1 as [f1 ?], info2 as [f2 ?]; simplify_eq/=.
  apply pagina_valida_Some, (core_quadros _ _ _ _ _ (inv_core _ Hr)) in H1, H2.
  split_and!; try done. intros ->. congruence.
Qed.

(** C4. In every reachable state (so after every call, evictions
    included) the frame of each valid page-table entry holds the 256
    bytes of the backing store that start at byte [page * 256]. *)
Theorem valid_frame_holds_page_bytes s p info :
  reachable s →
  page_table s !! p = Some info → valido info = true →
  ∃ page_data,
    physical_memory s !! quadro info = Some (Some page_data) ∧
    page_data = take 256 (drop (Z.to_nat (p * 256)) (backing_store s)) ∧
    length page_data = 256%nat ∧
    ∀ i, (i < 256)%nat →
      page_data !! i = backing_store s !! (Z.to_nat p * 256 + i)%nat.
Proof.
  intros Hr%reachable_Inv Hp Hv. destruct info as [f ?]; simplify_eq/=.
  apply pagina_valida_Some in Hp.
  destruct (core_memory _ _ _ _ _ (inv_core _ Hr) _ _ Hp) as [Hm [Hpos Hlen]].
  exists (read_at (backing_store s) p). split_and!; try done.
  - unfold page_size in Hlen. lia.
  - intros i Hi. apply read_at_lookup; [|done]. unfold page_size in Hpos. lia.
Qed.

(** C5. From a reachable state, the same virtual address issued twice in
    a row: the second call returns, with the same (physical address,
    value) pair, and leaves [page_faults] unchanged. *)
Theorem same_address_twice s va r s1 :
  reachable s → acessar va s = Ok (r, s1) →
  ∃ s2, acessar va s1 = Ok (r, s2) ∧ page_faults s2 = page_faults s1.
Proof.
  intros _ Hac. destruct (acessar_twice va s r s1 Hac) as (s2 & H2 & Hpf & _).
  by exists s2.
Qed.

Lemma estado_apos_reachable alg n enderecos : reachable (estado_apos alg n enderecos).
Proof.
  assert (reachable (inicial store_exemplo n alg)) as H0.
  { by apply (reachable_init (Some store_exemplo) n alg). }
  unfold estado_apos.
  destruct (acessar_todos _ _) as [[rs s]|e] eqn:Hrun; [|done].
  by eapply acessar_todos_reachable.
Qed.

(** C3. Under FIFO, a page fault with no free frame evicts the head of
    the residency queue, which lists the resident pages in load order (a
    load appends at the tail, an eviction pops the head, a hit leaves the
    queue alone); with 4 frames, touching 5 distinct pages p0..p4 in order
    makes the 5th access evict p0 and leaves p1..p4 resident. *)
Theorem fifo_evicts_queue_head :
  (∀ s va r s',
     reachable s → algoritmo s = "FIFO"%string → acessar va s = Ok (r, s') →
     pagina_valida (page_table s) (split va).1 = None →
     index_None (quadros s) = None →
     ∃ v resto f,
       fifo_queue s = v :: resto ∧ vitima s va = Some v ∧
       pagina_valida (page_table s) v = Some f ∧
       pagina_valida (page_table s') v = None ∧
       pagina_valida (page_table s') (split va).1 = Some f ∧
       fifo_queue s' = resto ++ [(split va).1] ∧
       ∀ x, x ≠ v → x ≠ (split va).1 →
            pagina_valida (page_table s') x = pagina_valida (page_table s) x) ∧
  (∀ s va r s',
     reachable s → algoritmo s = "FIFO"%string → acessar va s = Ok (r, s') →
     (is_Some (pagina_valida (page_table s) (split va).1) →
        fifo_queue s' = fifo_queue s) ∧
     (pagina_valida (page_table s) (split va).1 = None →
      is_Some (index_None (quadros s)) →
        fifo_queue s' = fifo_queue s ++ [(split va).1])) ∧
  (∀ s, reachable s → algoritmo s = "FIFO"%string →
     NoDup (fifo_queue s) ∧
     ∀ p, p ∈ fifo_queue s ↔ is_Some (pagina_valida (page_table s) p)) ∧
  (∀ store alg a0 a1 a2 a3 a4 s0,
     upper alg = "FIFO"%string → init (Some store) 4 alg = Ok s0 →
     NoDup [(split a0).1; (split a1).1; (split a2).1; (split a3).1; (split a4).1] →
     Forall (λ a, loadable store (split a).1) [a0; a1; a2; a3; a4] →
     ∃ rs s4 r s5,
       acessar_todos [a0; a1; a2; a3] s0 = Ok (rs, s4) ∧
       acessar a4 s4 = Ok (r, s5) ∧
       fifo_queue s4 = [(split a0).1; (split a1).1; (split a2).1; (split a3).1] ∧
       vitima s4 a4 = Some (split a0).1 ∧
       pagina_valida (page_table s4) (split a0).1 = Some 0%nat ∧
       pagina_valida (page_table s5) (split a0).1 = None ∧
       pagina_valida (page_table s5) (split a1).1 = Some 1%nat ∧
       pagina_valida (page_table s5) (split a2).1 = Some 2%nat ∧
       pagina_valida (page_table s5) (split a3).1 = Some 3%nat ∧
       pagina_valida (page_table s5) (split a4).1 = Some 0%nat ∧
       fifo_queue s5 = [(split a1).1; (split a2).1; (split a3).1; (split a4).1] ∧
       page_faults s5 = 5).
Proof.
  split_and!.
  - intros s va r s' Hr%reachable_Inv Halg Hac Hv Hidx.
    destruct (acessar_falta_vitima va s r s' Hr Hac Hv Hidx) as [v Hvit].
    destruct (acessar_substitui va s r s' v Hr Hac Hvit)
      as (f & Hvf & Hne & Hpt & _ & _ & _ & Hq & _).
    rewrite decide_True in Hq by done.
    assert (fifo_queue s = v :: tail (fifo_queue s)) as Hhd.
    { unfold vitima in Hvit. destruct (Inv_invalid_not_in_tlb s _ Hr Hv) as [Hb _].
      rewrite Hb, Hv, Hidx, decide_True in Hvit by done.
      destruct (fifo_queue s); by simplify_eq/=. }
    exists v, (tail (fifo_queue s)), f. split_and!; try done.
    + rewrite Hpt, !pagina_valida_insert. rewrite decide_False by done.
      by rewrite decide_True.
    + rewrite Hpt, pagina_valida_insert. by rewrite decide_True.
    + intros x ? ?. by eapply acessar_substitui_outros.
  - intros s va r s' Hr%reachable_Inv Halg Hac. split.
    + intros [f Hv]. by destruct (acessar_sem_falta va s r s' f Hr Hac Hv) as (_&_&_&?&_).
    + intros Hv [q Hq].
      destruct (acessar_quadro_livre va s r s' q Hr Hac Hv Hq) as (_&_&_&_&Hf&_).
      by rewrite decide_True in Hf.
  - intros s Hr%reachable_Inv Halg. by apply (inv_fifo _ Hr).
  - apply cenario_fifo.
Qed.

(** C2. Under LRU, a page fault with no free frame evicts the resident
    page of least timestamp, the first such entry in insertion order when
    several are equal; every call stamps its page with the new clock, hits
    included (so in a run the timestamps of the resident pages are
    pairwise distinct); with 4 frames, after loading p0..p3 and accessing
    p0 again, the fault for p4 evicts p1 and keeps p0. *)
Theorem lru_evicts_least_recent :
  (∀ s va r s',
     reachable s → algoritmo s = "LRU"%string → acessar va s = Ok (r, s') →
     pagina_valida (page_table s) (split va).1 = None →
     index_None (quadros s) = None →
     ∃ v t l1 l2 f,
       uso_recente s = l1 ++ ((v, t) :: l2) ∧
       (∀ kv, kv ∈ l1 → t < kv.2) ∧ (∀ kv, kv ∈ l2 → t ≤ kv.2) ∧
       vitima s va = Some v ∧
       pagina_valida (page_table s) v = Some f ∧
       pagina_valida (page_table s') v = None ∧
       pagina_valida (page_table s') (split va).1 = Some f ∧
       (v ∉ (uso_recente s').*1) ∧
       ∀ x, x ≠ v → x ≠ (split va).1 →
            pagina_valida (page_table s') x = pagina_valida (page_table s) x) ∧
  (∀ s va r s',
     reachable s → algoritmo s = "LRU"%string → acessar va s = Ok (r, s') →
     clock s' = clock s + 1 ∧
     dict_get (split va).1 (uso_recente s') = Some (clock s')) ∧
  (∀ s, reachable s → algoritmo s = "LRU"%string →
     NoDup (uso_recente s).*1 ∧ NoDup (uso_recente s).*2 ∧
     ∀ p, p ∈ (uso_recente s).*1 ↔ is_Some (pagina_valida (page_table s) p)) ∧
  (∀ store alg a0 a1 a2 a3 a4 s0,
     upper alg = "LRU"%string → init (Some store) 4 alg = Ok s0 →
     NoDup [(split a0).1; (split a1).1; (split a2).1; (split a3).1; (split a4).1] →
     Forall (λ a, loadable store (split a).1) [a0; a1; a2; a3; a4] →
     ∃ rs s5 r s6,
       acessar_todos [a0; a1; a2; a3; a0] s0 = Ok (rs, s5) ∧
       acessar a4 s5 = Ok (r, s6) ∧
       uso_recente s5 = [((split a0).1, 5); ((split a1).1, 2);
                         ((split a2).1, 3); ((split a3).1, 4)] ∧
       vitima s5 a4 = Some (split a1).1 ∧
       pagina_valida (page_table s5) (split a1).1 = Some 1%nat ∧
       pagina_valida (page_table s6) (split a1).1 = None ∧
       pagina_valida (page_table s6) (split a0).1 = Some 0%nat ∧
       pagina_valida (page_table s6) (split a2).1 = Some 2%nat ∧
       pagina_valida (page_table s6) (split a3).1 = Some 3%nat ∧
       pagina_valida (page_table s6) (split a4).1 = Some 1%nat ∧
       uso_recente s6 = [((split a0).1, 5); ((split a2).1, 3);
                         ((split a3).1, 4); ((split a4).1, 6)] ∧
       page_faults s6 = 5).
Proof.
  split_and!.
  - intros s va r s' Hr%reachable_Inv Halg Hac Hv Hidx.
    destruct (acessar_falta_vitima va s r s' Hr Hac Hv Hidx) as [v Hvit].
    destruct (acessar_substitui va s r s' v Hr Hac Hvit)
      as (f & Hvf & Hne & Hpt & _ & _ & _ & _ & Hu & _).
    rewrite decide_True in Hu by done.
    assert (py_min (uso_recente s) = Ok v) as Hmin.
    { unfold vitima in Hvit. destruct (Inv_invalid_not_in_tlb s _ Hr Hv) as [Hb _].
      rewrite Hb, Hv, Hidx in Hvit. rewrite decide_False in Hvit by congruence.
      rewrite decide_True in Hvit by done.
      destruct (py_min (uso_recente s)); by simplify_eq. }
    destruct (py_min_spec _ _ Hmin) as (t & l1 & l2 & Hd & H1 & H2).
    exists v, t, l1, l2, f. split_and!; try done.
    + rewrite Hpt, !pagina_valida_insert. rewrite decide_False by done.
      by rewrite decide_True.
    + rewrite Hpt, pagina_valida_insert. by rewrite decide_True.
    + rewrite Hu, dict_set_keys, dict_filter_keys.
      case_decide; rewrite ?elem_of_app, list_elem_of_filter, ?list_elem_of_singleton;
        naive_solver.
    + intros x ? ?. by eapply acessar_substitui_outros.
  - intros s va r s' _ Halg Hac. by eapply acessar_lru_touch.
  - intros s Hr Halg. destruct (reachable_carimbos_ok s Hr Halg) as [_ Hnd].
    apply reachable_Inv in Hr. destruct (inv_lru _ Hr Halg) as [? ?]. done.
  - apply cenario_lru.
Qed.

Lemma upper_FIFO_LRU : upper "FIFO" = "FIFO"%string ∧ upper "LRU" = "LRU"%string.
Proof. split; reflexivity. Qed.

(** C7, as the code has it.  The constructor stores any policy name,
    upper-cased, and never rejects one; the check for FIFO/LRU is made by
    [main] before it constructs the manager.  Both are stated for ASCII
    names, on which [upper] is [str.upper()].  A manager built through
    [main] has a known policy (and 128 or 256 frames); with a known policy
    neither [tratar_page_fault] nor [acessar] raises the invalid-policy
    exit, and over a full backing store such a manager answers every
    trace without any exception; a manager constructed directly with
    another name raises the invalid-policy exit at the first page fault
    that finds no free frame. *)
Theorem policy_checked_by_main :
  (∀ store n alg,
     isascii alg = true →
     init (Some store) n alg = Ok (inicial store n alg) ∧
     algoritmo (inicial store n alg) = upper alg) ∧
  (∀ fs n arg,
     isascii arg = true →
     upper arg ≠ "FIFO"%string → upper arg ≠ "LRU"%string →
     main_cria fs n arg = Raise (SystemExit QuadrosNaoSuportados) ∨
     main_cria fs n arg = Raise (SystemExit ArgumentoInvalido)) ∧
  (∀ fs n arg s,
     main_cria fs n arg = Ok s →
     politica_conhecida s ∧ reachable s ∧
     (num_quadros s = 128%nat ∨ num_quadros s = 256%nat)) ∧
  (∀ store n arg s enderecos,
     main_cria (Some store) n arg = Ok s →
     (∀ p, 0 ≤ p < 256 → loadable store p) →
     ∃ rs s', acessar_todos enderecos s = Ok (rs, s') ∧
              length rs = length enderecos) ∧
  (∀ s, politica_conhecida s →
     (∀ p e, tratar_page_fault p s = Raise e → ¬ erro_de_politica e) ∧
     (∀ va e, acessar va s = Raise e → ¬ erro_de_politica e) ∧
     (∀ va r s', acessar va s = Ok (r, s') → politica_conhecida s')) ∧
  (∀ s p, ¬ politica_conhecida s → index_None (quadros s) = None →
     tratar_page_fault p s = Raise (SystemExit AlgoritmoInvalido)).
Proof.
  assert (∀ fs n arg s, main_cria fs n arg = Ok s →
            politica_conhecida s ∧ reachable s ∧
            (num_quadros s = 128%nat ∨ num_quadros s = 256%nat) ∧
            ∀ store, fs = Some store → backing_store s = store) as Hmain.
  { intros fs n arg s. unfold main_cria.
    case_decide as Hn; [done|]. case_decide as Hpol; [done|].
    intros Hi. split_and!.
    - destruct fs as [store|]; simplify_eq/=. unfold politica_conhecida. simpl.
      destruct (decide (upper arg = "FIFO"%string)) as [->|?]; [by left|].
      destruct (decide (upper arg = "LRU"%string)) as [->|?]; [by right|tauto].
    - by eapply reachable_init.
    - destruct fs as [store|]; simplify_eq/=.
      destruct (decide (n = 128)) as [->|?]; [by left|].
      destruct (decide (n = 256)) as [->|?]; [by right|tauto].
    - intros store ->. by simplify_eq/=. }
  split_and!.
  - done.
  - intros fs n arg _ H1 H2. unfold main_cria. case_decide; [by left|right].
    rewrite decide_True; [done|tauto].
  - intros fs n arg s Hm. destruct (Hmain _ _ _ _ Hm) as (? & ? & ? & _). done.
  - intros store n arg s enderecos Hm Hstore.
    destruct (Hmain _ _ _ _ Hm) as (Hpol & Hr & Hn & Hs).
    apply acessar_todos_progress; [by apply reachable_Inv|].
    split_and!; [done|lia|]. by rewrite (Hs store eq_refl).
  - intros s Hpol. split_and!.
    + intros p e. by apply tratar_page_fault_Raise.
    + intros va e. by apply acessar_Raise.
    + intros va r s' (Ha & _)%acessar_config. unfold politica_conhecida. by rewrite Ha.
  - intros s p. apply tratar_page_fault_politica.
Qed.

(** The claim of C7 as stated fails: the constructor accepts the policy
    name XYZ, and on that manager (one frame) the second request reaches
    the invalid-policy exit of [tratar_page_fault]. *)
Lemma constructor_accepts_unknown_policy :
  upper "XYZ" ≠ "FIFO"%string ∧ upper "XYZ" ≠ "LRU"%string ∧
  init (Some store_exemplo) 1 "XYZ" = Ok (inicial store_exemplo 1 "XYZ") ∧
  acessar_todos [0; 256] (inicial store_exemplo 1 "XYZ")
    = Raise (SystemExit AlgoritmoInvalido).
Proof. split_and!; [done|done|reflexivity|by vm_compute]. Qed.

(** ** The theorems at concrete inputs *)

Lemma tlb_entries_are_valid_mappings_witness :
  reachable (estado_apos "FIFO" 4 [0; 256; 512; 768; 1024]) ∧
  ∀ e, e ∈ tlb (estado_apos "FIFO" 4 [0; 256; 512; 768; 1024]) →
    page_table (estado_apos "FIFO" 4 [0; 256; 512; 768; 1024]) !! tlb_pagina e =
      Some {| quadro := tlb_quadro e; valido := true |}.
Proof.
  split; [apply estado_apos_reachable|].
  apply (tlb_entries_are_valid_mappings (estado_apos "FIFO" 4 [0; 256; 512; 768; 1024])).
  apply estado_apos_reachable.
Defined.

Lemma tlb_size_bounded_witness :
  reachable (estado_apos "LRU" 32
               [0; 256; 512; 768; 1024; 1280; 1536; 1792; 2048; 2304; 2560; 2816;
                3072; 3328; 3584; 3840; 4096; 4352]) ∧
  length (tlb (estado_apos "LRU" 32
               [0; 256; 512; 768; 1024; 1280; 1536; 1792; 2048; 2304; 2560; 2816;
                3072; 3328; 3584; 3840; 4096; 4352])) = 16%nat ∧
  (length (tlb (estado_apos "LRU" 32
               [0; 256; 512; 768; 1024; 1280; 1536; 1792; 2048; 2304; 2560; 2816;
                3072; 3328; 3584; 3840; 4096; 4352]%Z)) ≤ tlb_size)%nat.
Proof.
  split; [apply estado_apos_reachable|]. split; [by vm_compute|].
  apply (tlb_size_bounded (estado_apos "LRU" 32
               [0; 256; 512; 768; 1024; 1280; 1536; 1792; 2048; 2304; 2560; 2816;
                3072; 3328; 3584; 3840; 4096; 4352])).
  apply estado_apos_reachable.
Defined.

Lemma valid_pages_have_distinct_frames_witness :
  quadro {| quadro := 0; valido := true |} ≠ quadro {| quadro := 1; valido := true |} ∧
  quadros (estado_apos "FIFO" 4 [0; 256]) !! 0%nat = Some (Some 0) ∧
  quadros (estado_apos "FIFO" 4 [0; 256]) !! 1%nat = Some (Some 1).
Proof.
  apply (valid_pages_have_distinct_frames (estado_apos "FIFO" 4 [0; 256]) 0 1
           {| quadro := 0; valido := true |} {| quadro := 1; valido := true |}).
  - apply estado_apos_reachable.
  - lia.
  - by vm_compute.
  - reflexivity.
  - by vm_compute.
  - reflexivity.
Defined.

Lemma valid_frame_holds_page_bytes_witness :
  ∃ page_data,
    physical_memory (estado_apos "FIFO" 4 [0; 256; 512; 768; 1024]) !! 0%nat
      = Some (Some page_data) ∧
    page_data = take 256 (drop (Z.to_nat (4 * 256)) store_exemplo) ∧
    length page_data = 256%nat ∧
    ∀ i, (i < 256)%nat →
      page_data !! i = store_exemplo !! (Z.to_nat 4 * 256 + i)%nat.
Proof.
  apply (valid_frame_holds_page_bytes (estado_apos "FIFO" 4 [0; 256; 512; 768; 1024]) 4
           {| quadro := 0; valido := true |}).
  - apply estado_apos_reachable.
  - by vm_compute.
  - reflexivity.
Defined.

Lemma same_address_twice_witness :
  ∃ s2, acessar 256 (estado_apos "FIFO" 4 [0; 256]) = Ok ((256, -55), s2) ∧
        page_faults s2 = page_faults (estado_apos "FIFO" 4 [0; 256]).
Proof.
  apply (same_address_twice (estado_apos "FIFO" 4 [0]) 256 (256, -55)
           (estado_apos "FIFO" 4 [0; 256])).
  - apply estado_apos_reachable.
  - by vm_compute.
Defined.

Lemma acessar_value_signed_witness :
  ∃ (quadro : nat) page_data b,
    physical_memory (estado_apos "FIFO" 4 [0]) !! quadro = Some (Some page_data) ∧
    page_data !! Z.to_nat (split 0).2 = Some b ∧
    0 = Z.lor (Z.shiftl (Z.of_nat quadro) 8) (split 0).2 ∧
    -56 = (if decide (byte_value b > 127) then byte_value b - 256 else byte_value b) ∧
    -128 ≤ -56 ≤ 127 ∧ -56 mod 256 = byte_value b ∧
    (byte_value b = 200 → -56 = -56).
Proof.
  apply (acessar_value_signed 0 (inicial store_exemplo 4 "FIFO") 0 (-56)
           (estado_apos "FIFO" 4 [0])).
  by vm_compute.
Defined.

Lemma loadable_exemplo :
  Forall (λ a, loadable store_exemplo (split a).1) [0; 256; 512; 768; 1024].
Proof. repeat constructor; by vm_compute. Qed.

Lemma NoDup_exemplo :
  NoDup [(split 0).1; (split 256).1; (split 512).1; (split 768).1; (split 1024).1].
Proof. by apply (bool_decide_unpack _). Qed.

Lemma fifo_evicts_queue_head_witness :
  ∃ rs s4 r s5,
    acessar_todos [0; 256; 512; 768] (inicial store_exemplo 4 "fifo") = Ok (rs, s4) ∧
    acessar 1024 s4 = Ok (r, s5) ∧
    fifo_queue s4 = [(split 0).1; (split 256).1; (split 512).1; (split 768).1] ∧
    vitima s4 1024 = Some (split 0).1 ∧
    pagina_valida (page_table s4) (split 0).1 = Some 0%nat ∧
    pagina_valida (page_table s5) (split 0).1 = None ∧
    pagina_valida (page_table s5) (split 256).1 = Some 1%nat ∧
    pagina_valida (page_table s5) (split 512).1 = Some 2%nat ∧
    pagina_valida (page_table s5) (split 768).1 = Some 3%nat ∧
    pagina_valida (page_table s5) (split 1024).1 = Some 0%nat ∧
    fifo_queue s5 = [(split 256).1; (split 512).1; (split 768).1; (split 1024).1] ∧
    page_faults s5 = 5.
Proof.
  apply (proj2 (proj2 (proj2 fifo_evicts_queue_head))
           store_exemplo "fifo"%string 0 256 512 768 1024).
  - reflexivity.
  - reflexivity.
  - apply NoDup_exemplo.
  - apply loadable_exemplo.
Defined.

Lemma lru_evicts_least_recent_witness :
  ∃ rs s5 r s6,
    acessar_todos [0; 256; 512; 768; 0] (inicial store_exemplo 4 "lru") = Ok (rs, s5) ∧
    acessar 1024 s5 = Ok (r, s6) ∧
    uso_recente s5 = [((split 0).1, 5); ((split 256).1, 2);
                      ((split 512).1, 3); ((split 768).1, 4)] ∧
    vitima s5 1024 = Some (split 256).1 ∧
    pagina_valida (page_table s5) (split 256).1 = Some 1%nat ∧
    pagina_valida (page_table s6) (split 256).1 = None ∧
    pagina_valida (page_table s6) (split 0).1 = Some 0%nat ∧
    pagina_valida (page_table s6) (split 512).1 = Some 2%nat ∧
    pagina_valida (page_table s6) (split 768).1 = Some 3%nat ∧
    pagina_valida (page_table s6) (split 1024).1 = Some 1%nat ∧
    uso_recente s6 = [((split 0).1, 5); ((split 512).1, 3);
                      ((split 768).1, 4); ((split 1024).1, 6)] ∧
    page_faults s6 = 5.
Proof.
  apply (proj2 (proj2 (proj2 lru_evicts_least_recent))
           store_exemplo "lru"%string 0 256 512 768 1024).
  - reflexivity.
  - reflexivity.
  - apply NoDup_exemplo.
  - apply loadable_exemplo.
Defined.

Lemma policy_checked_by_main_witness :
  (main_cria (Some store_exemplo) 128 "xyz" = Raise (SystemExit QuadrosNaoSuportados) ∨
   main_cria (Some store_exemplo) 128 "xyz" = Raise (SystemExit ArgumentoInvalido)) ∧
  politica_conhecida (inicial store_exemplo 128 "LRU") ∧
  reachable (inicial store_exemplo 128 "LRU") ∧
  (num_quadros (inicial store_exemplo 128 "LRU") = 128%nat ∨
   num_quadros (inicial store_exemplo 128 "LRU") = 256%nat).
Proof.
  split.
  - apply (proj1 (proj2 policy_checked_by_main) (Some store_exemplo) 128 "xyz"%string).
    + reflexivity.
    + by vm_compute.
    + by vm_compute.
  - apply (proj1 (proj2 (proj2 policy_checked_by_main))
             (Some store_exemplo) 128 "lru"%string).
    reflexivity.
Defined.

(** * Further properties of the code *)

(** * Further properties of the code

    ** The statistics *)

Lemma falta_counters p s q s1 :
  falta p s q s1 →
  tlb_hits s1 = tlb_hits s ∧ page_faults s1 = page_faults s ∧ acessos s1 = acessos s.
Proof.
  intros [q' _ _ _|v resto info _ _ _ _ _ _ _|v info _ _ _ _ _ _ _ _]; simpl; try done.
  unfold registrado. by repeat case_decide.
Qed.

Lemma tocado_counters p s :
  tlb_hits (tocado p s) = tlb_hits s ∧ acessos (tocado p s) = acessos s.
Proof. unfold tocado. by case_decide. Qed.

(** X1. A call that returns counts one access and one clock tick, and
    exactly one of: a TLB hit, a page-table hit (no counter), a page
    fault, according to where the page was found. *)
Theorem acessar_counts_once va s r s' :
  acessar va s = Ok (r, s') →
  acessos s' = acessos s + 1 ∧ clock s' = clock s + 1 ∧
  match buscar (split va).1 (tlb s), pagina_valida (page_table s) (split va).1 with
  | Some _, _ => tlb_hits s' = tlb_hits s + 1 ∧ page_faults s' = page_faults s
  | None, Some _ => tlb_hits s' = tlb_hits s ∧ page_faults s' = page_faults s
  | None, None => tlb_hits s' = tlb_hits s ∧ page_faults s' = page_faults s + 1
  end.
Proof.
  destruct r as [pa v]. intros (q & s1 & d & b & Hr & -> & _)%acessar_Ok.
  destruct (tocado_counters (split va).1 s1) as [-> ->].
  destruct (tocado_config (split va).1 s1) as (_&_&_&_&_&_&_&_& -> & ->).
  destruct Hr as [q Hb|q Hb Hv|q s1 Hb Hv Hf]; simpl in *.
  - by rewrite Hb.
  - by rewrite Hb, Hv.
  - rewrite Hb, Hv. destruct (falta_counters _ _ _ _ Hf) as (-> & -> & ->).
    apply falta_clock in Hf as ->. done.
Qed.

Lemma acessar_page_table_size va s r s' :
  Inv s → acessar va s = Ok (r, s') →
  (size (page_table s') ≤ size (page_table s) + 1)%nat ∧
  (is_Some (pagina_valida (page_table s) (split va).1) →
   page_table s' = page_table s).
Proof.
  intros Hinv Hac.
  destruct (pagina_valida (page_table s) (split va).1) as [f|] eqn:Hv.
  { destruct (acessar_sem_falta va s r s' f Hinv Hac Hv) as (-> & _). split; [lia|done]. }
  split; [|by intros [? ?]].
  assert (∀ (pt : gmap Z PTE) k x, (size (<[k := x]> pt) ≤ size pt + 1)%nat) as Hins.
  { intros pt k x. destruct (pt !! k) eqn:Hk.
    - rewrite map_size_insert_Some by done. lia.
    - rewrite map_size_insert_None by done. lia. }
  destruct (index_None (quadros s)) as [q|] eqn:Hidx.
  { destruct (acessar_quadro_livre va s r s' q Hinv Hac Hv Hidx) as (-> & _). apply Hins. }
  destruct (acessar_falta_vitima va s r s' Hinv Hac Hv Hidx) as [v Hvit].
  destruct (acessar_substitui va s r s' v Hinv Hac Hvit) as (f & Hvf & _ & -> & _).
  etrans; [apply Hins|].
  apply pagina_valida_Some in Hvf. rewrite map_size_insert_Some by done. lia.
Qed.

(** X2. In every reachable state the access counter equals the clock,
    hits and faults are not negative and together do not exceed the
    accesses, and the page table has at most one entry per page fault. *)
Theorem counters_consistent s :
  reachable s →
  acessos s = clock s ∧ 0 ≤ tlb_hits s ∧ 0 ≤ page_faults s ∧
  tlb_hits s + page_faults s ≤ acessos s ∧
  Z.of_nat (size (page_table s)) ≤ page_faults s.
Proof.
  induction 1 as [fs n alg s Hi|s va r s' Hr IH Hac].
  - destruct fs; simplify_eq/=. rewrite map_size_empty. lia.
  - destruct IH as (Hc & Hh & Hf & Hle & Hsz).
    pose proof (acessar_counts_once va s r s' Hac) as (Ha & Hk & Hcase).
    pose proof (acessar_page_table_size va s r s' (reachable_Inv s Hr) Hac) as [Hsize Hsame].
    destruct (buscar _ (tlb s)) eqn:Hb.
    + assert (page_table s' = page_table s) as Hpt.
      { apply Hsame. apply buscar_Some in Hb.
        apply (core_tlb _ _ _ _ _ (inv_core _ (reachable_Inv s Hr))) in Hb. eauto. }
      rewrite Hpt. lia.
    + destruct (pagina_valida _ _) eqn:Hv.
      * rewrite Hsame by eauto. lia.
      * lia.
Qed.

(** X3. A trace that is answered without exception counts one access per
    address and returns one result per address; hits and faults only
    grow, by at most the length of the trace together. *)
Theorem acessar_todos_counts enderecos s rs s' :
  acessar_todos enderecos s = Ok (rs, s') →
  length rs = length enderecos ∧
  acessos s' = acessos s + Z.of_nat (length enderecos) ∧
  tlb_hits s ≤ tlb_hits s' ∧ page_faults s ≤ page_faults s' ∧
  (tlb_hits s' - tlb_hits s) + (page_faults s' - page_faults s)
    ≤ Z.of_nat (length enderecos).
Proof.
  revert s rs. induction enderecos as [|va l IH]; intros s rs; simpl.
  - intros ?; simplify_eq/=. lia.
  - destruct (acessar va s) as [[r s1]|] eqn:Hac; [|done].
    destruct (acessar_todos l s1) as [[rs' s2]|] eqn:Hl; [|done].
    intros ?; simplify_eq/=. destruct (IH _ _ Hl) as (Hlen & Ha & Hh & Hf & Hsum).
    pose proof (acessar_counts_once va s r s1 Hac) as (Ha1 & _ & Hcase).
    repeat case_match; lia.
Qed.

(** ** The TLB as a bounded queue *)

Lemma buscar_None_iff p t : buscar p t = None ↔ p ∉ tlb_pagina <$> t.
Proof.
  induction t as [|e t IH]; simpl.
  - split; [intros _; apply not_elem_of_nil|done].
  - rewrite not_elem_of_cons. case_decide; [|rewrite IH]; naive_solver.
Qed.

Lemma buscar_filter_ne p v t :
  p ≠ v → buscar p (filter (λ e, tlb_pagina e ≠ v) t) = buscar p t.
Proof.
  intros Hne. induction t as [|e t IH]; [done|].
  rewrite filter_cons. simpl. case_decide as He; simpl.
  - case_decide; [done|apply IH].
  - rewrite decide_False; [apply IH|]. intros Heq. congruence.
Qed.

Lemma buscar_filter_eq p t : buscar p (filter (λ e, tlb_pagina e ≠ p) t) = None.
Proof.
  apply buscar_None_iff. intros (e & -> & [Hne _]%list_elem_of_filter)%list_elem_of_fmap.
  done.
Qed.

Lemma filter_buscar_None p t :
  buscar p t = None → filter (λ e, tlb_pagina e ≠ p) t = t.
Proof.
  induction t as [|e t IH]; [done|]. simpl. case_decide; [done|]. intros Hb.
  rewrite filter_cons_True by done. by rewrite IH.
Qed.

Lemma buscar_app_other p' p q t :
  p' ≠ p →
  buscar p' (t ++ [ {| tlb_pagina := p; tlb_quadro := q |} ]) = buscar p' t.
Proof.
  intros Hne. induction t as [|e t IH]; simpl.
  - by rewrite decide_False.
  - case_decide; [done|apply IH].
Qed.

Lemma buscar_app_present p q0 q t :
  buscar p t = Some q0 →
  buscar p (t ++ [ {| tlb_pagina := p; tlb_quadro := q |} ]) = Some q0.
Proof.
  induction t as [|e t IH]; simpl; [done|]. case_decide; [done|apply IH].
Qed.

(** X4. [atualiza_tlb] followed by [buscar_na_tlb]: the page just inserted
    is found with its frame when it was absent before; the TLB never
    grows beyond 16 entries, below 16 no other lookup changes, and at 16
    only the oldest entry is lost.  The method does not look for the page:
    inserted again while present (and not the oldest of a full TLB) it
    leaves the old frame in effect. *)
Theorem atualiza_tlb_then_buscar p q s :
  ∃ s1, atualiza_tlb p q s = Ok (tt, s1) ∧
    (length (tlb s1) = if decide (tlb_size ≤ length (tlb s))%nat
                       then length (tlb s) else S (length (tlb s))) ∧
    (buscar p (tlb s) = None → buscar_na_tlb p s1 = Ok (Some q, s1)) ∧
    (∀ p', p' ≠ p → (length (tlb s) < tlb_size)%nat →
       buscar_na_tlb p' s1 = Ok (buscar p' (tlb s), s1)) ∧
    (∀ p' e t, p' ≠ p → tlb s = e :: t → tlb_pagina e ≠ p' →
       buscar_na_tlb p' s1 = Ok (buscar p' (tlb s), s1)) ∧
    (∀ q0, buscar p (tlb s) = Some q0 → (length (tlb s) < tlb_size)%nat →
       buscar_na_tlb p s1 = Ok (Some q0, s1)).
Proof.
  exists (set_tlb (push_tlb p q) s). split; [apply atualiza_tlb_run|].
  split_and!.
  - simpl. unfold push_tlb, tlb_size. rewrite length_app. simpl. case_decide.
    + rewrite length_drop. lia.
    + lia.
  - intros Hb. rewrite buscar_na_tlb_run. simpl. by rewrite (buscar_push_tlb p q).
  - intros p' Hne Hlt. rewrite buscar_na_tlb_run. simpl. unfold push_tlb.
    rewrite decide_False by lia. by rewrite buscar_app_other.
  - intros p' e t Hne Ht He. rewrite buscar_na_tlb_run. simpl. unfold push_tlb.
    rewrite buscar_app_other by done. rewrite Ht. simpl.
    rewrite (decide_False (P := tlb_pagina e = p')) by done.
    destruct (decide (tlb_size ≤ S (length t))%nat); simpl; [done|].
    by rewrite decide_False.
  - intros q0 Hb Hlt. rewrite buscar_na_tlb_run. simpl. unfold push_tlb.
    rewrite decide_False by lia. by rewrite (buscar_app_present p q0).
Qed.

(** X5. [remover_da_tlb] removes every entry of the page and nothing
    else: the page is no longer found, every other lookup is unchanged,
    and when the page was not in the TLB the TLB is left as it was. *)
Theorem remover_da_tlb_then_buscar p s :
  ∃ s1, remover_da_tlb p s = Ok (tt, s1) ∧
    buscar_na_tlb p s1 = Ok (None, s1) ∧
    (∀ p', p' ≠ p → buscar_na_tlb p' s1 = Ok (buscar p' (tlb s), s1)) ∧
    (length (tlb s1) ≤ length (tlb s))%nat ∧
    (buscar p (tlb s) = None → s1 = s) ∧
    page_table s1 = page_table s ∧ quadros s1 = quadros s ∧
    physical_memory s1 = physical_memory s.
Proof.
  eexists. split; [apply remover_da_tlb_run|]. split_and!; try done.
  - rewrite buscar_na_tlb_run. simpl. by rewrite buscar_filter_eq.
  - intros p' Hne. rewrite buscar_na_tlb_run. simpl. by rewrite buscar_filter_ne.
  - simpl. apply length_filter.
  - intros Hb. destruct s; simpl in *. unfold set_tlb; simpl. f_equal.
    by apply filter_buscar_None.
Qed.

(** ** No page twice in the TLB *)

Lemma NoDup_push_tlb p q t :
  NoDup (tlb_pagina <$> t) → buscar p t = None →
  NoDup (tlb_pagina <$> push_tlb p q t).
Proof.
  intros Hnd Hb%buscar_None_iff. unfold push_tlb. rewrite fmap_app. simpl.
  apply NoDup_app. split_and!.
  - case_decide; [|done]. eapply sublist_NoDup; [done|].
    apply fmap_sublist, sublist_drop.
  - intros x Hx ->%list_elem_of_singleton. apply Hb.
    case_decide; [|done]. eapply sublist_subseteq; [|done].
    apply fmap_sublist, sublist_drop.
  - apply NoDup_singleton.
Qed.

Lemma NoDup_filter_tlb v t :
  NoDup (tlb_pagina <$> t) →
  NoDup (tlb_pagina <$> filter (λ e, tlb_pagina e ≠ v) t).
Proof.
  intros Hnd. eapply sublist_NoDup; [done|]. apply fmap_sublist, sublist_filter.
Qed.

Lemma tlb_NoDup_acessar va s r s' :
  Inv s → NoDup (tlb_pagina <$> tlb s) → acessar va s = Ok (r, s') →
  NoDup (tlb_pagina <$> tlb s').
Proof.
  intros Hinv Hnd Hac.
  destruct (pagina_valida (page_table s) (split va).1) as [f|] eqn:Hv.
  { destruct (acessar_sem_falta va s r s' f Hinv Hac Hv) as (_&_&_&_&_&_& -> &_).
    destruct (buscar _ (tlb s)) eqn:Hb; [done|]. by apply NoDup_push_tlb. }
  destruct (Inv_invalid_not_in_tlb s _ Hinv Hv) as [Hb _].
  destruct (index_None (quadros s)) as [q|] eqn:Hidx.
  { destruct (acessar_quadro_livre va s r s' q Hinv Hac Hv Hidx) as (_& -> &_).
    by apply NoDup_push_tlb. }
  destruct (acessar_falta_vitima va s r s' Hinv Hac Hv Hidx) as [v Hvit].
  destruct (acessar_substitui va s r s' v Hinv Hac Hvit) as (f & _ & _ & _ & -> & _).
  apply NoDup_push_tlb; [by apply NoDup_filter_tlb|by apply buscar_filter_None].
Qed.

(** X6. In every reachable state no page occurs twice in the TLB and no
    frame occurs twice in it: [atualiza_tlb] is only reached after a miss,
    although it would itself append a second entry for a page. *)
Theorem tlb_has_no_duplicates s :
  reachable s →
  NoDup (tlb_pagina <$> tlb s) ∧ NoDup (tlb_quadro <$> tlb s).
Proof.
  intros Hr.
  assert (NoDup (tlb_pagina <$> tlb s)) as Hnd.
  { induction Hr as [fs n alg s Hi|s va r s' Hr IH Hac].
    - destruct fs; simplify_eq/=. apply NoDup_nil_2.
    - eapply tlb_NoDup_acessar; [by apply reachable_Inv|done..]. }
  split; [done|]. apply reachable_Inv in Hr.
  pose proof (core_tlb _ _ _ _ _ (inv_core _ Hr)) as Ht.
  pose proof (core_quadros _ _ _ _ _ (inv_core _ Hr)) as Hq.
  revert Hnd Ht. generalize (tlb s). intros t. induction t as [|e t IH]; simpl.
  { intros _ _. apply NoDup_nil_2. }
  intros [Hne Hnd]%NoDup_cons Ht. apply NoDup_cons. split.
  - intros (e' & Hf & He')%list_elem_of_fmap. apply Hne.
    apply list_elem_of_fmap. exists e'. split; [|done].
    pose proof (Ht e (list_elem_of_here _ _)) as H1.
    pose proof (Ht e' (list_elem_of_further _ _ _ He')) as H2.
    apply Hq in H1, H2. rewrite Hf in H1. congruence.
  - apply IH; [done|]. intros e' He'. apply Ht. by right.
Qed.

(** ** Frames are handed out in index order and never given back *)

Lemma index_None_first l q i :
  index_None l = Some q → (i < q)%nat → ∃ p, l !! i = Some (Some p).
Proof.
  unfold index_None. destruct (list_find _ l) as [[k x]|] eqn:Hf; intros ?; simplify_eq/=.
  intros Hi. apply list_find_Some in Hf as (Hl & -> & Hfirst).
  destruct (lookup_lt_is_Some_2 l i) as [y Hy].
  { apply lookup_lt_Some in Hl. lia. }
  destruct y as [p|]; [by exists p|]. by destruct (Hfirst i None Hy Hi).
Qed.

(** One step seen from the frame list: either nothing changes, or exactly
    one frame receives the requested page, the lowest free one if there
    is one and the victim's otherwise. *)
Lemma acessar_quadros va s r s' :
  Inv s → acessar va s = Ok (r, s') →
  (quadros s' = quadros s ∧ physical_memory s' = physical_memory s ∧
   page_table s' = page_table s ∧
   is_Some (pagina_valida (page_table s) (split va).1)) ∨
  (∃ q, pagina_valida (page_table s) (split va).1 = None ∧
        (q < length (quadros s))%nat ∧
        (index_None (quadros s) = Some q ∨
         (index_None (quadros s) = None ∧ ∃ v, vitima s va = Some v ∧
            quadros s !! q = Some (Some v) ∧ v ≠ (split va).1 ∧
            page_table s' !! v = Some {| quadro := q; valido := false |})) ∧
        quadros s' = <[q := Some (split va).1]> (quadros s) ∧
        physical_memory s' =
          <[q := Some (read_at (backing_store s) (split va).1)]> (physical_memory s) ∧
        page_table s' !! (split va).1 = Some {| quadro := q; valido := true |} ∧
        ∀ x, x ≠ (split va).1 → is_Some (page_table s !! x) ↔ is_Some (page_table s' !! x)).
Proof.
  intros Hinv Hac.
  destruct (pagina_valida (page_table s) (split va).1) as [f|] eqn:Hv.
  { left. destruct (acessar_sem_falta va s r s' f Hinv Hac Hv) as (?&?&?&_). eauto. }
  right. destruct (index_None (quadros s)) as [q|] eqn:Hidx.
  { destruct (acessar_quadro_livre va s r s' q Hinv Hac Hv Hidx) as (Hpt&_&Hq&Hpm&_).
    exists q. split_and!; try done.
    - apply index_None_Some in Hidx. by eapply lookup_lt_Some.
    - by left.
    - rewrite Hpt. apply lookup_insert_eq.
    - intros x Hx. rewrite Hpt. by rewrite lookup_insert_ne. }
  destruct (acessar_falta_vitima va s r s' Hinv Hac Hv Hidx) as [v Hvit].
  destruct (acessar_substitui va s r s' v Hinv Hac Hvit)
    as (f & Hvf & Hne & Hpt & _ & Hq & Hpm & _).
  pose proof Hvf as Hqf. apply (core_quadros _ _ _ _ _ (inv_core _ Hinv)) in Hqf.
  exists f. split_and!; try done.
  - by eapply lookup_lt_Some.
  - right. split; [done|]. exists v. split_and!; try done.
    rewrite Hpt. rewrite lookup_insert_ne by done. apply lookup_insert_eq.
  - rewrite Hpt. apply lookup_insert_eq.
  - intros x Hx. rewrite Hpt. rewrite lookup_insert_ne by done.
    destruct (decide (x = v)) as [->|Hxv].
    + rewrite lookup_insert_eq. apply pagina_valida_Some in Hvf. rewrite Hvf.
      split; eauto.
    + by rewrite lookup_insert_ne.
Qed.

Lemma livres_no_fim_acessar va s r s' :
  Inv s → livres_no_fim (quadros s) → acessar va s = Ok (r, s') →
  livres_no_fim (quadros s').
Proof.
  intros Hinv Hfree Hac.
  destruct (acessar_quadros va s r s' Hinv Hac)
    as [(-> & _)|(q & _ & Hlt & Hcase & -> & _)]; [done|].
  intros i j Hij Hi Hj. rewrite length_insert in Hj.
  assert (i ≠ q) as Hiq.
  { intros ->. rewrite list_lookup_insert_eq in Hi by done. done. }
  rewrite list_lookup_insert_ne in Hi by done.
  assert (j ≠ q) as Hjq.
  { intros ->. destruct Hcase as [Hidx|(Hidx & _)].
    - destruct (index_None_first _ _ i Hidx) as [p Hp]; [lia|]. congruence.
    - destruct (index_None_None _ _ _ Hidx Hi) as [? ?]. done. }
  rewrite list_lookup_insert_ne by done. by eapply Hfree.
Qed.

Lemma memoria_vazia_acessar va s r s' :
  Inv s → memoria_vazia_sse_livre s → acessar va s = Ok (r, s') →
  memoria_vazia_sse_livre s'.
Proof.
  intros Hinv Hm Hac. unfold memoria_vazia_sse_livre in *.
  destruct (acessar_quadros va s r s' Hinv Hac)
    as [(-> & -> & _)|(q & _ & Hlt & _ & -> & -> & _)]; [done|].
  intros i. destruct (decide (i = q)) as [->|Hne].
  - rewrite !list_lookup_insert_eq; [done|done|].
    by rewrite (core_len _ _ _ _ _ (inv_core _ Hinv)).
  - rewrite !list_lookup_insert_ne by done. apply Hm.
Qed.

(** X7. In every reachable state the free frames are the last ones (so
    frames are first used in the order 0, 1, 2, ...), and a frame's
    memory is empty exactly when the frame is free. *)
Theorem frames_used_in_index_order s :
  reachable s →
  length (quadros s) = num_quadros s ∧
  (∀ i j, (i ≤ j)%nat → quadros s !! i = Some None → (j < num_quadros s)%nat →
          quadros s !! j = Some None) ∧
  (∀ q, index_None (quadros s) = Some q →
        (∀ i, (i < q)%nat → ∃ p, quadros s !! i = Some (Some p)) ∧
        (∀ j, (q ≤ j)%nat → (j < num_quadros s)%nat → quadros s !! j = Some None)) ∧
  (∀ i, physical_memory s !! i = Some None ↔ quadros s !! i = Some None).
Proof.
  intros Hr. pose proof (reachable_Inv s Hr) as Hinv.
  assert (livres_no_fim (quadros s) ∧ memoria_vazia_sse_livre s) as [Hfree Hmem].
  { clear Hinv. induction Hr as [fs n alg s Hi|s va r s' Hr IH Hac].
    - destruct fs; simplify_eq/=. split.
      + intros i j _ _ Hj. rewrite length_replicate in Hj.
        by rewrite lookup_replicate_2.
      + intros i. split; intros [_ ?]%lookup_replicate; by apply lookup_replicate_2.
    - destruct IH as [IH1 IH2]. pose proof (reachable_Inv s Hr).
      split; [by eapply livres_no_fim_acessar|by eapply memoria_vazia_acessar]. }
  rewrite <-(inv_num _ Hinv). split_and!; try done.
  intros q Hq. split.
  - intros i Hi. by eapply index_None_first.
  - intros j Hqj Hj. eapply Hfree; [done| |done]. by apply index_None_Some.
Qed.

(** X8. One call changes at most one frame, and only on a page fault:
    the lowest free frame if there is one, otherwise the frame of the
    victim.  A frame that holds a page never becomes free again, and no
    page-table entry is ever removed: the victim keeps its entry, marked
    invalid, with the frame it had. *)
Theorem acessar_changes_one_frame va s r s' :
  reachable s → acessar va s = Ok (r, s') →
  length (quadros s') = length (quadros s) ∧
  (∀ i p, quadros s !! i = Some (Some p) → ∃ p', quadros s' !! i = Some (Some p')) ∧
  (∀ x, is_Some (page_table s !! x) → is_Some (page_table s' !! x)) ∧
  (is_Some (pagina_valida (page_table s) (split va).1) →
     quadros s' = quadros s ∧ physical_memory s' = physical_memory s ∧
     page_table s' = page_table s) ∧
  (pagina_valida (page_table s) (split va).1 = None →
     ∃ q, (index_None (quadros s) = Some q ∨
           (index_None (quadros s) = None ∧ ∃ v, vitima s va = Some v ∧
              quadros s !! q = Some (Some v) ∧
              page_table s' !! v = Some {| quadro := q; valido := false |})) ∧
          quadros s' = <[q := Some (split va).1]> (quadros s) ∧
          physical_memory s' =
            <[q := Some (read_at (backing_store s) (split va).1)]> (physical_memory s)).
Proof.
  intros Hr%reachable_Inv Hac.
  destruct (acessar_quadros va s r s' Hr Hac)
    as [(Hq & Hpm & Hpt & Hv)|(q & Hv & Hlt & Hcase & Hq & Hpm & Hp & Hdom)].
  - rewrite Hq, Hpt. split_and!; try done; eauto.
    intros Hnone. destruct Hv as [? ?]. congruence.
  - rewrite Hq, length_insert. split_and!; try done.
    + intros i p Hi. destruct (decide (i = q)) as [->|Hne].
      * rewrite list_lookup_insert_eq by done. eauto.
      * rewrite list_lookup_insert_ne by done. eauto.
    + intros x Hx. destruct (decide (x = (split va).1)) as [->|Hne]; [by rewrite Hp|].
      by apply Hdom.
    + intros [? ?]. congruence.
    + intros _. exists q. split_and!; try done.
      destruct Hcase as [?|(? & v & ? & ? & ? & ?)]; [by left|right]. eauto 10.
Qed.

Lemma paginas_em_faixa s p :
  reachable s → is_Some (page_table s !! p) → 0 ≤ p < 256.
Proof.
  intros Hr. revert p. induction Hr as [fs n alg s Hi|s va r s' Hr IH Hac].
  - destruct fs; simplify_eq/=. intros p [? Hp]. by rewrite lookup_empty in Hp.
  - pose proof (reachable_Inv s Hr) as Hinv. intros p Hp.
    destruct (acessar_quadros va s r s' Hinv Hac)
      as [(_ & _ & Hsame & _)|(q & _ & _ & _ & _ & _ & _ & Hdom)].
    + apply IH. by rewrite <-Hsame.
    + destruct (decide (p = (split va).1)) as [->|Hne]; [apply split_range|].
      apply IH. by apply Hdom.
Qed.

Lemma residentes_em_faixa s p f :
  reachable s → pagina_valida (page_table s) p = Some f → 0 ≤ p < 256.
Proof.
  intros Hr Hp%pagina_valida_Some. apply (paginas_em_faixa s p Hr). eauto.
Qed.

Lemma tamanho_page_table s : reachable s → (size (page_table s) ≤ 256)%nat.
Proof.
  intros Hr.
  assert (dom (page_table s) ⊆@{gset Z} list_to_set (seqZ 0 256)) as Hsub.
  { intros p Hp%elem_of_dom. apply elem_of_list_to_set, elem_of_seqZ.
    pose proof (paginas_em_faixa s p Hr Hp). lia. }
  rewrite <-size_dom. etrans; [by apply subseteq_size|].
  rewrite size_list_to_set by apply NoDup_seqZ. by rewrite length_seqZ.
Qed.

(** X9. In every reachable state the pages of the page table, of the TLB
    and of the frames are page numbers of the 16-bit address space, 0 to
    255; so the page table has at most 256 entries. *)
Theorem pages_within_address_space s :
  reachable s →
  (∀ p, is_Some (page_table s !! p) → 0 ≤ p < 256) ∧
  (∀ e, e ∈ tlb s → 0 ≤ tlb_pagina e < 256) ∧
  (∀ i p, quadros s !! i = Some (Some p) → 0 ≤ p < 256) ∧
  (size (page_table s) ≤ 256)%nat.
Proof.
  intros Hr. pose proof (reachable_Inv s Hr) as Hinv.
  split_and!.
  - intros p. by apply paginas_em_faixa.
  - intros e He. eapply residentes_em_faixa; [done|].
    by apply (core_tlb _ _ _ _ _ (inv_core _ Hinv)).
  - intros i p Hi. eapply residentes_em_faixa; [done|].
    by apply (core_quadros _ _ _ _ _ (inv_core _ Hinv)).
  - by apply tamanho_page_table.
Qed.

(** ** The bookkeeping counts the occupied frames *)

Lemma NoDup_omap_id (qs : list (option Z)) :
  (∀ i j p, qs !! i = Some (Some p) → qs !! j = Some (Some p) → i = j) →
  NoDup (omap id qs).
Proof.
  induction qs as [|x qs IH]; intros Hinj; simpl; [apply NoDup_nil_2|].
  assert (NoDup (omap id qs)) as Hnd.
  { apply IH. intros i j p Hi Hj. by apply (inj S), (Hinj (S i) (S j) p). }
  destruct x as [p|]; simpl; [|done]. apply NoDup_cons. split; [|done].
  intros (y & Hy & Hid)%list_elem_of_omap. simpl in Hid. subst y.
  apply list_elem_of_lookup in Hy as [i Hi].
  by specialize (Hinj 0%nat (S i) p eq_refl Hi).
Qed.

Lemma elem_of_omap_id (qs : list (option Z)) p :
  p ∈ omap id qs ↔ ∃ i, qs !! i = Some (Some p).
Proof.
  rewrite list_elem_of_omap. split.
  - intros (y & Hy & Hid). simpl in Hid. subst y. by apply list_elem_of_lookup.
  - intros [i Hi]. exists (Some p). split; [|done]. by eapply list_elem_of_lookup_2.
Qed.

Lemma length_omap_le {A B} (f : A → option B) l : (length (omap f l) ≤ length l)%nat.
Proof.
  induction l as [|x l IH]; [done|]. csimpl.
  destruct (f x); simpl; lia.
Qed.

(** X10. In every reachable state the replacement bookkeeping holds
    exactly the pages that are in frames, each once: the FIFO queue (under
    FIFO) and the keys of the timestamp dictionary (under LRU) are
    permutations of the pages of the frame list, so they never hold more
    entries than there are frames. *)
Theorem bookkeeping_is_the_frame_contents s :
  reachable s →
  NoDup (omap id (quadros s)) ∧
  (length (omap id (quadros s)) ≤ num_quadros s)%nat ∧
  (algoritmo s = "FIFO"%string →
     fifo_queue s ≡ₚ omap id (quadros s) ∧ uso_recente s = []) ∧
  (algoritmo s = "LRU"%string →
     (uso_recente s).*1 ≡ₚ omap id (quadros s) ∧ fifo_queue s = []) ∧
  (¬ politica_conhecida s → fifo_queue s = [] ∧ uso_recente s = []).
Proof.
  intros Hr. pose proof (reachable_Inv s Hr) as Hinv.
  pose proof (core_quadros _ _ _ _ _ (inv_core _ Hinv)) as Hq.
  assert (NoDup (omap id (quadros s))) as Hnd.
  { apply NoDup_omap_id. intros i j p Hi%Hq Hj%Hq. congruence. }
  assert (∀ l, fila_ok l (page_table s) → l ≡ₚ omap id (quadros s)) as Hperm.
  { intros l [Hl Hin]. apply NoDup_Permutation; [done..|].
    intros p. rewrite Hin, elem_of_omap_id. split.
    - intros [f Hf%Hq]. eauto.
    - intros [i Hi%Hq]. eauto. }
  assert ((algoritmo s ≠ "FIFO"%string → fifo_queue s = []) ∧
          (algoritmo s ≠ "LRU"%string → uso_recente s = [])) as [Hf Hl].
  { clear Hinv Hq Hnd Hperm. induction Hr as [fs n alg s Hi|s va r s' Hr IH Hac].
    - destruct fs; by simplify_eq/=.
    - pose proof (reachable_Inv s Hr) as Hinv.
      destruct (acessar_config _ _ _ _ Hac) as (Ha & _). rewrite Ha.
      destruct IH as [IHf IHl].
      destruct (pagina_valida (page_table s) (split va).1) as [f|] eqn:Hv.
      { destruct (acessar_sem_falta va s r s' f Hinv Hac Hv) as (_&_&_& -> &_&_&_& -> &_).
        split; [done|]. intros Hne. rewrite decide_False by done. auto. }
      destruct (index_None (quadros s)) as [q|] eqn:Hidx.
      { destruct (acessar_quadro_livre va s r s' q Hinv Hac Hv Hidx)
          as (_&_&_&_& -> & -> &_).
        split; intros Hne; rewrite decide_False by done; auto. }
      destruct (acessar_falta_vitima va s r s' Hinv Hac Hv Hidx) as [v Hvit].
      destruct (acessar_substitui va s r s' v Hinv Hac Hvit)
        as (f & _ & _ & _ & _ & _ & _ & -> & -> & _).
      split; intros Hne; rewrite decide_False by done; auto. }
  split_and!; try done.
  - rewrite <-(inv_num _ Hinv). apply length_omap_le.
  - intros Halg. split; [apply Hperm; by apply (inv_fifo _ Hinv)|].
    apply Hl. congruence.
  - intros Halg. split; [apply Hperm; by apply (inv_lru _ Hinv)|].
    apply Hf. congruence.
  - intros Hpol. unfold politica_conhecida in Hpol. split; [apply Hf|apply Hl]; tauto.
Qed.

(** ** When a request fails *)

Lemma loadable_iff store p :
  loadable store p ↔ 0 ≤ p ∧ (p + 1) * 256 ≤ Z.of_nat (length store).
Proof.
  unfold loadable, read_at, page_size. rewrite length_take, length_drop.
  split; intros [H1 H2]; (split; [lia|]).
  - destruct (decide (0 ≤ p)) as [Hp|]; [|lia]. rewrite Z2Nat.inj_mul in H2 by lia.
    change (Z.to_nat 256) with 256%nat in H2. lia.
  - rewrite Z2Nat.inj_mul by lia. change (Z.to_nat 256) with 256%nat. lia.
Qed.

(** X11. [carrega_pagina] returns the 256 bytes at [pagina * 256] exactly
    when the file holds them all; on a shorter file it exits with the
    read error, for a page whose offset is at most [offset_max]; on a
    negative page whose offset is at least [offset_min] the seek fails
    with [OSError]; it never changes the manager. *)
Theorem carrega_pagina_needs_whole_page p s :
  (0 ≤ p → (p + 1) * 256 ≤ Z.of_nat (length (backing_store s)) →
     ∃ page_data, carrega_pagina p s = Ok (page_data, s) ∧
       length page_data = 256%nat ∧
       ∀ i, (i < 256)%nat →
         page_data !! i = backing_store s !! (Z.to_nat p * 256 + i)%nat) ∧
  (0 ≤ p → p * 256 ≤ offset_max →
   Z.of_nat (length (backing_store s)) < (p + 1) * 256 →
     carrega_pagina p s = Raise (SystemExit (ErroLerPagina p))) ∧
  (offset_min ≤ p * 256 → p < 0 → carrega_pagina p s = Raise OSError).
Proof.
  split_and!.
  - intros Hp Hlen. assert (loadable (backing_store s) p) as Hl by (by apply loadable_iff).
    exists (read_at (backing_store s) p). split; [by apply carrega_pagina_run|].
    destruct Hl as [_ Hl]. unfold page_size in Hl. split; [lia|].
    intros i Hi. by apply read_at_lookup.
  - intros Hp _ Hlen. unfold carrega_pagina. run_monad.
    rewrite decide_False by (unfold page_size; lia).
    rewrite decide_True; [done|]. intros Hl.
    assert (loadable (backing_store s) p) as Hl'.
    { split; [unfold page_size; lia|done]. }
    apply loadable_iff in Hl'. lia.
  - intros _ Hp. unfold carrega_pagina. run_monad.
    by rewrite decide_True by (unfold page_size; lia).
Qed.

Lemma instala_short p q s :
  0 ≤ p → ¬ loadable (backing_store s) p →
  instala p q s = Raise (SystemExit (ErroLerPagina p)).
Proof.
  intros Hp Hl. unfold instala, carrega_pagina. run_monad.
  rewrite decide_False by (unfold page_size; lia).
  rewrite decide_True; [done|]. intros Hlen. apply Hl. split; [unfold page_size; lia|done].
Qed.

Lemma acessar_falta_Raise va s e :
  buscar (split va).1 (tlb s) = None →
  pagina_valida (page_table s) (split va).1 = None →
  tratar_page_fault (split va).1 (incr_page_faults (incr_acessos_clock s)) = Raise e →
  acessar va s = Raise e.
Proof.
  intros Hb Hv Hf. unfold acessar. destruct (split va) as [p off]. simpl in *.
  unfold buscar_na_tlb. run_monad.
  change (tlb (incr_acessos_clock s)) with (tlb s). rewrite Hb.
  change (page_table (incr_acessos_clock s)) with (page_table s). rewrite Hv.
  by rewrite Hf.
Qed.

Lemma tratar_page_fault_short p s :
  Inv s → politica_conhecida s → (1 ≤ num_quadros s)%nat →
  0 ≤ p → ¬ loadable (backing_store s) p →
  tratar_page_fault p s = Raise (SystemExit (ErroLerPagina p)).
Proof.
  intros Hinv Hpol Hn Hp Hl. unfold tratar_page_fault. run_monad.
  destruct (index_None (quadros s)) as [q|] eqn:Hidx.
  { by rewrite instala_short. }
  destruct (residente_exists s Hinv Hn Hidx) as [p0 Hp0].
  assert (∀ v, is_Some (pagina_valida (page_table s) v) →
            ∃ info, page_table s !! v = Some info) as Hres.
  { intros v [f Hf%pagina_valida_Some]. eauto. }
  destruct Hpol as [Halg|Halg].
  - rewrite decide_True by done.
    unfold substituicao_fifo, page_table_getitem, remover_da_tlb. run_monad.
    destruct (fifo_queue s) as [|v resto] eqn:Hq.
    { assert (p0 ∈ fifo_queue s) as Hin by (apply (inv_fifo _ Hinv Halg); eauto).
      rewrite Hq in Hin. by apply elem_of_nil in Hin. }
    destruct (Hres v) as [info Hinfo].
    { apply (inv_fifo _ Hinv Halg). rewrite Hq. apply list_elem_of_here. }
    simpl. rewrite Hinfo. by rewrite instala_short.
  - rewrite decide_False by congruence. rewrite decide_True by done.
    unfold substituicao_lru, page_table_getitem, remover_da_tlb. run_monad.
    destruct (py_min_is_Ok (uso_recente s)) as [v Hmin].
    { intros Hnil. assert (p0 ∈ (uso_recente s).*1) as Hin
        by (apply (inv_lru _ Hinv Halg); eauto).
      rewrite Hnil in Hin. by apply elem_of_nil in Hin. }
    rewrite Hmin. pose proof (py_min_in _ _ Hmin) as Hvin.
    destruct (Hres v) as [info Hinfo]; [by apply (inv_lru _ Hinv Halg)|].
    rewrite Hinfo. simpl.
    assert (is_Some (dict_get v (uso_recente s))) as [t Ht] by (by apply dict_get_is_Some).
    unfold dict_del. rewrite Ht. by rewrite instala_short.
Qed.

(** X12. A manager with a known policy and at least one frame fails in
    one way only: a request for a page that is not resident and that the
    backing store does not hold in full exits with the read error of that
    page.  Every other request returns. *)
Theorem acessar_fails_only_on_short_read va s e :
  reachable s → politica_conhecida s → (1 ≤ num_quadros s)%nat →
  acessar va s = Raise e ↔
  pagina_valida (page_table s) (split va).1 = None ∧
  ¬ loadable (backing_store s) (split va).1 ∧
  e = SystemExit (ErroLerPagina (split va).1).
Proof.
  intros Hr%reachable_Inv Hpol Hn. pose proof (split_range va) as [Hp _].
  assert (pagina_valida (page_table s) (split va).1 = None →
          ¬ loadable (backing_store s) (split va).1 →
          acessar va s = Raise (SystemExit (ErroLerPagina (split va).1))) as Hfail.
  { intros Hv Hl. apply acessar_falta_Raise; [by apply Inv_invalid_not_in_tlb|done|].
    apply tratar_page_fault_short; [by destruct Hr|done|done|lia|done]. }
  split.
  - intros Hraise.
    destruct (decide (loadable (backing_store s) (split va).1)) as [Hl|Hl].
    { destruct (acessar_progress va s Hr Hpol Hn Hl) as (r & s' & Hok). congruence. }
    destruct (pagina_valida (page_table s) (split va).1) as [f|] eqn:Hv.
    { destruct Hl. by apply (core_memory _ _ _ _ _ (inv_core _ Hr) _ _ Hv). }
    rewrite Hfail in Hraise by done. by simplify_eq.
  - intros (Hv & Hl & ->). by apply Hfail.
Qed.

(** ** What a run returns *)

Lemma acessar_todos_passos enderecos s rs s' :
  reachable s → acessar_todos enderecos s = Ok (rs, s') →
  Forall2 (λ va r, ∃ s0 s1, reachable s0 ∧ backing_store s0 = backing_store s ∧
                            num_quadros s0 = num_quadros s ∧
                            acessar va s0 = Ok (r, s1)) enderecos rs.
Proof.
  revert s rs. induction enderecos as [|va l IH]; intros s rs Hr; simpl.
  - intros ?; simplify_eq. constructor.
  - destruct (acessar va s) as [[r s1]|] eqn:Hac; [|done].
    destruct (acessar_todos l s1) as [[rs' s2]|] eqn:Hl; [|done].
    intros ?; simplify_eq. constructor.
    + by exists s, s1.
    + destruct (acessar_config _ _ _ _ Hac) as (_ & Hn & Hb).
      eapply Forall2_impl; [eapply IH; [|done]; by eapply reachable_acessar|].
      intros va' r' (s0 & s0' & ? & ? & ? & ?). exists s0, s0'.
      split_and!; [done|congruence|congruence|done].
Qed.

Lemma acessar_endereco_fisico va s pa v s' :
  reachable s → acessar va s = Ok ((pa, v), s') →
  0 ≤ pa < Z.of_nat (num_quadros s) * 256 ∧ pa mod 256 = Z.land va 0xFF ∧
  ∃ b, backing_store s !! Z.to_nat (Z.land va 0xFFFF) = Some b ∧
       v = signed (byte_value b).
Proof.
  intros Hr Hac.
  destruct (acessar_reads_backing_store va s pa v s' Hr Hac) as (f & b & Hf & -> & Hb & ->).
  assert (Inv s') as Hinv' by (eapply Inv_acessar; [by apply reachable_Inv|done]).
  destruct (acessar_config _ _ _ _ Hac) as (_ & Hn & _).
  apply (core_quadros _ _ _ _ _ (inv_core _ Hinv')) in Hf.
  apply lookup_lt_Some in Hf. rewrite (inv_num _ Hinv'), Hn in Hf.
  pose proof (split_range va) as [_ Hoff].
  assert ((split va).2 = Z.land va 0xFF) as Hoff' by (by rewrite split_eq).
  split_and!; [lia|nia| |by exists b].
  rewrite Z.add_comm, Z.mod_add by lia. rewrite Z.mod_small by lia. done.
Qed.

(** X13. Every result of a run that returns is read off the backing
    store: the value is the signed byte at position [va & 0xFFFF] of the
    file, and the physical address lies inside physical memory and keeps
    the offset [va & 0xFF]. *)
Theorem run_returns_the_bytes_of_the_store enderecos s rs s' :
  reachable s → acessar_todos enderecos s = Ok (rs, s') →
  Forall2 (λ va r,
     0 ≤ r.1 < Z.of_nat (num_quadros s) * 256 ∧ r.1 mod 256 = Z.land va 0xFF ∧
     ∃ b, backing_store s !! Z.to_nat (Z.land va 0xFFFF) = Some b ∧
          r.2 = signed (byte_value b)) enderecos rs.
Proof.
  intros Hr Hrun.
  eapply Forall2_impl; [by eapply acessar_todos_passos|].
  intros va [pa v] (s0 & s1 & Hr0 & Hb & Hn & Hac). simpl.
  rewrite <-Hb, <-Hn. by eapply acessar_endereco_fisico.
Qed.

(** X14. The values a run returns do not depend on the replacement
    policy, the number of frames or the history of the manager: two
    managers over the same backing store return the same values for the
    same addresses. *)
Theorem values_do_not_depend_on_policy enderecos s1 s2 rs1 rs2 s1' s2' :
  reachable s1 → reachable s2 → backing_store s1 = backing_store s2 →
  acessar_todos enderecos s1 = Ok (rs1, s1') →
  acessar_todos enderecos s2 = Ok (rs2, s2') →
  rs1.*2 = rs2.*2.
Proof.
  intros Hr1 Hr2 Hb Hrun1 Hrun2.
  pose proof (acessar_todos_passos _ _ _ _ Hr1 Hrun1) as H1.
  pose proof (acessar_todos_passos _ _ _ _ Hr2 Hrun2) as H2.
  clear Hrun1 Hrun2. revert rs2 H2.
  induction H1 as [|va [pa1 v1] l rs1 (a & a' & Hra & Hba & _ & Haca) _ IH];
    intros rs2 H2; inversion H2 as [|? [pa2 v2] ? rs2' (c & c' & Hrc & Hbc & _ & Hacc) H2']; subst.
  - done.
  - simpl. f_equal; [|by apply IH].
    destruct (acessar_endereco_fisico _ _ _ _ _ Hra Haca) as (_ & _ & b1 & Hb1 & ->).
    destruct (acessar_endereco_fisico _ _ _ _ _ Hrc Hacc) as (_ & _ & b2 & Hb2 & ->).
    rewrite Hba in Hb1. rewrite Hbc, <-Hb in Hb2. congruence.
Qed.

(** ** A manager without frames *)

Lemma sem_quadros s p :
  Inv s → num_quadros s = 0%nat →
  quadros s = [] ∧ pagina_valida (page_table s) p = None.
Proof.
  intros Hinv Hn. assert (quadros s = []) as Hq.
  { apply length_zero_iff_nil. by rewrite (inv_num _ Hinv). }
  split; [done|]. destruct (pagina_valida (page_table s) p) as [f|] eqn:Hv; [|done].
  apply (core_quadros _ _ _ _ _ (inv_core _ Hinv)) in Hv. by rewrite Hq in Hv.
Qed.

(** X15. A manager built with zero frames serves no request: the first
    call of [acessar] fails in the replacement routine, with [IndexError]
    under FIFO ([pop(0)] on the empty queue), [ValueError] under LRU
    ([min] of the empty dictionary) and the invalid-policy exit
    otherwise. *)
Theorem acessar_without_frames va s :
  reachable s → num_quadros s = 0%nat →
  acessar va s =
    Raise (if decide (algoritmo s = "FIFO"%string) then IndexError
           else if decide (algoritmo s = "LRU"%string) then ValueError
           else SystemExit AlgoritmoInvalido).
Proof.
  intros Hinv%reachable_Inv Hn.
  destruct (sem_quadros s (split va).1 Hinv Hn) as [Hq Hv].
  apply acessar_falta_Raise; [by apply Inv_invalid_not_in_tlb|done|].
  unfold tratar_page_fault. run_monad.
  change (quadros (incr_page_faults (incr_acessos_clock s))) with (quadros s).
  change (algoritmo (incr_page_faults (incr_acessos_clock s))) with (algoritmo s).
  rewrite Hq. change (index_None []) with (@None nat). cbv beta iota.
  destruct (decide (algoritmo s = "FIFO"%string)) as [Halg|Hnf].
  - unfold substituicao_fifo. run_monad.
    change (fifo_queue (incr_page_faults (incr_acessos_clock s))) with (fifo_queue s).
    destruct (fifo_queue s) as [|v resto] eqn:Hfq; [done|].
    assert (is_Some (pagina_valida (page_table s) v)) as [f Hf].
    { apply (inv_fifo _ Hinv Halg). rewrite Hfq. apply list_elem_of_here. }
    by rewrite (proj2 (sem_quadros s v Hinv Hn)) in Hf.
  - destruct (decide (algoritmo s = "LRU"%string)) as [Halg|Hnl]; [|done].
    unfold substituicao_lru. run_monad.
    change (uso_recente (incr_page_faults (incr_acessos_clock s))) with (uso_recente s).
    destruct (uso_recente s) as [|kv d] eqn:Hu; [done|].
    assert (is_Some (pagina_valida (page_table s) kv.1)) as [f Hf].
    { apply (inv_lru _ Hinv Halg). rewrite Hu. apply list_elem_of_here. }
    by rewrite (proj2 (sem_quadros s kv.1 Hinv Hn)) in Hf.
Qed.

(** ** A manager with an unknown policy *)

(** X16. A manager whose policy is neither FIFO nor LRU works while
    frames are free and never evicts: a request that returns keeps every
    resident page in its frame, and a fault with every frame taken exits
    with the invalid-policy message. *)
Theorem acessar_with_unknown_policy va s :
  reachable s → ¬ politica_conhecida s →
  (pagina_valida (page_table s) (split va).1 = None →
   index_None (quadros s) = None →
   acessar va s = Raise (SystemExit AlgoritmoInvalido)) ∧
  (∀ r s', acessar va s = Ok (r, s') →
     ∀ p f, pagina_valida (page_table s) p = Some f →
            pagina_valida (page_table s') p = Some f).
Proof.
  intros Hinv%reachable_Inv Hpol. unfold politica_conhecida in Hpol. split.
  - intros Hv Hidx.
    apply acessar_falta_Raise; [by apply Inv_invalid_not_in_tlb|done|].
    unfold tratar_page_fault. run_monad.
    change (quadros (incr_page_faults (incr_acessos_clock s))) with (quadros s).
    change (algoritmo (incr_page_faults (incr_acessos_clock s))) with (algoritmo s).
    rewrite Hidx. cbv beta iota.
    rewrite decide_False by tauto. rewrite decide_False by tauto. done.
  - intros r s' Hac p f Hp.
    destruct (pagina_valida (page_table s) (split va).1) as [f'|] eqn:Hv.
    { destruct (acessar_sem_falta va s r s' f' Hinv Hac Hv) as (-> & _). done. }
    destruct (index_None (quadros s)) as [q|] eqn:Hidx.
    { destruct (acessar_quadro_livre va s r s' q Hinv Hac Hv Hidx) as (-> & _).
      rewrite pagina_valida_insert. rewrite decide_False; [done|congruence]. }
    destruct (acessar_falta_vitima va s r s' Hinv Hac Hv Hidx) as [v Hvit].
    unfold vitima in Hvit.
    destruct (Inv_invalid_not_in_tlb s _ Hinv Hv) as [Hb _].
    rewrite Hb, Hv, Hidx in Hvit.
    rewrite decide_False in Hvit by tauto. rewrite decide_False in Hvit by tauto. done.
Qed.

(** ** LRU spares the page just used *)

Lemma dict_get_elem k t d :
  NoDup d.*1 → (k, t) ∈ d → dict_get k d = Some t.
Proof.
  unfold dict_get. induction d as [|[k' t'] d IH]; intros Hnd Hin.
  - by apply elem_of_nil in Hin.
  - apply NoDup_cons in Hnd as [Hk' Hnd]. simpl.
    apply elem_of_cons in Hin as [Heq|Hin].
    + simplify_eq. by rewrite decide_True.
    + rewrite decide_False.
      * specialize (IH Hnd Hin).
        destruct (list_find _ d) as [[i kv]|]; simplify_eq/=; done.
      * intros ->. apply Hk'. apply list_elem_of_fmap. by exists (k, t).
Qed.

Lemma omap_id_cheio (qs : list (option Z)) :
  index_None qs = None → length (omap id qs) = length qs.
Proof.
  intros Hidx. induction qs as [|x qs IH]; [done|].
  assert (is_Some x) as [p ->].
  { eapply (index_None_None (x :: qs) 0%nat); [done|done]. }
  csimpl. f_equal. apply IH.
  unfold index_None in *. destruct (list_find _ qs) as [[i y]|] eqn:Hf; [|done].
  exfalso. apply list_find_Some in Hf as (Hl & -> & _).
  destruct (index_None_None (Some p :: qs) (S i) None) as [? ?]; done.
Qed.

Lemma fila_perm s l :
  Inv s → fila_ok l (page_table s) → l ≡ₚ omap id (quadros s).
Proof.
  intros Hinv [Hl Hin].
  pose proof (core_quadros _ _ _ _ _ (inv_core _ Hinv)) as Hq.
  apply NoDup_Permutation; [done| |].
  - apply NoDup_omap_id. intros i j p Hi%Hq Hj%Hq. congruence.
  - intros p. rewrite Hin, elem_of_omap_id. split.
    + intros [f Hf%Hq]. eauto.
    + intros [i Hi%Hq]. eauto.
Qed.

(** X17. Under LRU with at least two frames, the page of the request
    just served is never the victim of the next request. *)
Theorem lru_spares_the_page_just_used va va' s r s' v :
  reachable s → algoritmo s = "LRU"%string → (2 ≤ num_quadros s)%nat →
  acessar va s = Ok (r, s') → vitima s' va' = Some v →
  v ≠ (split va).1.
Proof.
  intros Hr Halg Hn Hac Hvit Heq. subst v.
  assert (reachable s') as Hr' by (by eapply reachable_acessar).
  pose proof (reachable_Inv _ Hr') as Hinv'.
  destruct (acessar_config _ _ _ _ Hac) as (Ha & Hn' & _).
  assert (algoritmo s' = "LRU"%string) as Halg' by congruence.
  destruct (reachable_carimbos_ok s' Hr' Halg') as [Hle Hnd].
  destruct (acessar_lru_touch va s r s' Halg Hac) as [_ Hget].
  unfold vitima in Hvit.
  destruct (buscar _ (tlb s')); [done|].
  destruct (pagina_valida (page_table s') _); [done|].
  destruct (index_None (quadros s')) eqn:Hidx; [done|].
  rewrite decide_False in Hvit by (rewrite Halg'; done).
  rewrite decide_True in Hvit by done.
  destruct (py_min (uso_recente s')) as [v|] eqn:Hmin; [|done]. simplify_eq.
  destruct (py_min_spec _ _ Hmin) as (t & l1 & l2 & Hd & H1 & H2).
  pose proof (inv_lru _ Hinv' Halg') as Hfila.
  assert (t = clock s') as ->.
  { assert (dict_get (split va).1 (uso_recente s') = Some t) as Ht.
    { apply dict_get_elem; [apply Hfila|]. rewrite Hd. set_solver. }
    congruence. }
  assert (length (uso_recente s') = num_quadros s') as Hlen.
  { rewrite <-(inv_num _ Hinv'), <-(omap_id_cheio _ Hidx).
    rewrite <-(length_fmap fst). by rewrite (fila_perm s' _ Hinv' Hfila). }
  destruct l1 as [|kv l1].
  - destruct l2 as [|kv l2].
    + rewrite Hd in Hlen. simpl in Hlen. lia.
    + assert (kv.2 = clock s') as Hkv.
      { assert (kv.2 ≤ clock s') by (apply Hle; rewrite Hd; set_solver).
        assert (clock s' ≤ kv.2) by (apply H2; set_solver). lia. }
      rewrite Hd in Hnd. simpl in Hnd. apply NoDup_cons in Hnd as [Hnin _].
      apply Hnin. rewrite <-Hkv. set_solver.
  - assert (kv.2 ≤ clock s') by (apply Hle; rewrite Hd; set_solver).
    assert (clock s' < kv.2) by (apply H1; set_solver). lia.
Qed.

(** ** simulador_v2.py *)

Lemma V2_ler_memoria_Ok q off s v s' :
  V2.ler_memoria q off s = Ok (v, s') ↔
  ∃ page_data b,
    physical_memory s !! q = Some (Some page_data) ∧
    page_data !! Z.to_nat off = Some b ∧ v = byte_value b ∧ s' = s.
Proof.
  unfold V2.ler_memoria. run_monad.
  destruct (physical_memory s !! q) as [[d|]|].
  2,3: split; [done | intros (?&?&?&_); done].
  destruct (d !! Z.to_nat off) as [b|] eqn:Hb.
  - split; [intros ?; simplify_eq; by eexists _, _|].
    intros (?&?&?&?&->&->). by simplify_eq.
  - split; [done|]. intros (?&?&?&?&_). by simplify_eq.
Qed.

Lemma V2_acessar_Ok va s pa v s' :
  V2.acessar va s = Ok ((pa, v), s') ↔
  ∃ q s1 page_data b,
    resolve (V2.obter_pagina va) (incr_acessos_clock s) q s1 ∧
    s' = tocado (V2.obter_pagina va) s1 ∧
    physical_memory s' !! q = Some (Some page_data) ∧
    page_data !! Z.to_nat (V2.obter_offset va) = Some b ∧
    pa = Z.lor (Z.shiftl (Z.of_nat q) offset_bits) (V2.obter_offset va) ∧
    v = byte_value b.
Proof.
  unfold V2.acessar.
  generalize (V2.obter_pagina va) (V2.obter_offset va). intros p off. cbv zeta.
  set (s0 := incr_acessos_clock s).
  assert (∀ q s1,
    (self <- get_self ;;
     (if decide (algoritmo self = "LRU"%string)
      then modify (set_uso_recente (dict_set p (clock self) (uso_recente self)))
      else ret ()) ;;;
     conteudo <- V2.ler_memoria q off ;;
     ret (Z.lor (Z.shiftl (Z.of_nat q) offset_bits) off, conteudo)) s1 = Ok (pa, v, s') ↔
    ∃ page_data b, s' = tocado p s1 ∧
      physical_memory s' !! q = Some (Some page_data) ∧
      page_data !! Z.to_nat off = Some b ∧
      pa = Z.lor (Z.shiftl (Z.of_nat q) offset_bits) off ∧
      v = byte_value b) as Htail.
  { intros q s1. unfold bind at 1. unfold get_self at 1.
    unfold bind at 1. rewrite tocado_run.
    unfold bind at 1.
    destruct (V2.ler_memoria q off (tocado p s1)) as [[c s2]|e] eqn:Hler.
    - apply V2_ler_memoria_Ok in Hler as (d & b & Hd & Hb & -> & ->).
      unfold ret. split.
      + intros ?; simplify_eq. by exists d, b.
      + intros (d' & b' & -> & ? & ? & -> & ->). by simplify_eq.
    - split; [done|]. intros (d' & b' & -> & ? & ? & -> & ->).
      assert (V2.ler_memoria q off (tocado p s1) = Ok (byte_value b', tocado p s1)) as Hx
        by (apply V2_ler_memoria_Ok; by exists d', b').
      congruence. }
  unfold bind at 1. unfold modify at 1. fold s0.
  unfold bind at 1. rewrite buscar_na_tlb_run.
  unfold bind at 1.
  destruct (buscar p (tlb s0)) as [q|] eqn:Hb.
  - unfold bind at 1, modify at 1, ret at 1.
    rewrite (Htail q (incr_tlb_hits s0)).
    split.
    + intros (d & b & ?). exists q, (incr_tlb_hits s0), d, b. split; [by constructor|done].
    + intros (q' & s1 & d & b & Hr & Hrest). inversion Hr; simplify_eq. by exists d, b.
  - unfold bind at 1, get_self at 1.
    destruct (pagina_valida (page_table s0) p) as [q|] eqn:Hv.
    + unfold bind at 1. rewrite atualiza_tlb_run. unfold ret at 1.
      rewrite (Htail q (set_tlb (push_tlb p q) s0)).
      split.
      * intros (d & b & ?). exists q, (set_tlb (push_tlb p q) s0), d, b.
        split; [by constructor|done].
      * intros (q' & s1 & d & b & Hr & Hrest). inversion Hr; simplify_eq. by exists d, b.
    + unfold bind at 1, modify at 1. unfold bind at 1.
      destruct (tratar_page_fault p (incr_page_faults s0)) as [[q s1]|e] eqn:Hf.
      * apply tratar_page_fault_Ok in Hf.
        unfold bind at 1, modify at 1. unfold bind at 1. rewrite atualiza_tlb_run.
        unfold ret at 1. fold (mapeado p q s1).
        rewrite (Htail q (mapeado p q s1)).
        split.
        -- intros (d & b & ?). exists q, (mapeado p q s1), d, b.
           split; [by constructor|done].
        -- intros (q' & s1' & d & b & Hr & Hrest). inversion Hr; simplify_eq.
           apply tratar_page_fault_Ok in Hf.
           match goal with H : falta _ _ _ _ |- _ =>
             apply tratar_page_fault_Ok in H; rewrite Hf in H end.
           simplify_eq. by exists d, b.
      * split; [done|].
        intros (q' & s1' & d & b & Hr & Hrest). inversion Hr; simplify_eq.
        match goal with H : falta _ _ _ _ |- _ =>
          apply tratar_page_fault_Ok in H; rewrite Hf in H end.
        done.
Qed.

Lemma V2_split va :
  0 ≤ va < 65536 → split va = (V2.obter_pagina va, V2.obter_offset va).
Proof.
  intros Hva. rewrite split_eq. unfold V2.obter_pagina, V2.obter_offset, offset_bits.
  change 0xFFFF with (Z.ones 16). rewrite Z.land_ones by lia.
  by rewrite Z.mod_small by lia.
Qed.

Lemma signed_inj x y : 0 ≤ x < 256 → 0 ≤ y < 256 → signed x = signed y → x = y.
Proof. unfold signed. intros ? ?. repeat case_decide; lia. Qed.

(** X18. On an address of 16 bits the two versions of [acessar] take the
    same step: the same physical address and the same next state; the
    value of simulador_v2.py is the byte as stored, 0..255, and the value
    of simulador_v3.py is its signed reading. *)
Theorem V2_acessar_agrees_below_65536 va s :
  0 ≤ va < 65536 →
  (∀ pa y s', V2.acessar va s = Ok ((pa, y), s') ↔
              0 ≤ y < 256 ∧ acessar va s = Ok ((pa, signed y), s')) ∧
  (∀ pa x s', acessar va s = Ok ((pa, x), s') →
              ∃ y, x = signed y ∧ V2.acessar va s = Ok ((pa, y), s')).
Proof.
  intros Hva. pose proof (V2_split va Hva) as Hs.
  assert ((split va).1 = V2.obter_pagina va ∧ (split va).2 = V2.obter_offset va)
    as [Hp Ho] by (by rewrite Hs).
  split.
  - intros pa y s'. rewrite V2_acessar_Ok, acessar_Ok. rewrite Hp, Ho. split.
    + intros (q & s1 & d & b & ? & ? & ? & ? & ? & ->).
      pose proof (byte_value_range b). split; [lia|]. by exists q, s1, d, b.
    + intros (Hy & q & s1 & d & b & ? & ? & ? & ? & ? & Hsig).
      exists q, s1, d, b. split_and!; try done.
      pose proof (byte_value_range b). apply signed_inj; [lia..|done].
  - intros pa x s'. rewrite acessar_Ok. rewrite Hp, Ho.
    intros (q & s1 & d & b & ? & ? & ? & ? & ? & ->).
    exists (byte_value b). split; [done|]. apply V2_acessar_Ok. by exists q, s1, d, b.
Qed.

(** ** The invariant holds in simulador_v2.py as well *)

Lemma V2_Inv_acessar va s r s' : Inv s → V2.acessar va s = Ok (r, s') → Inv s'.
Proof.
  intros Hinv Hac. destruct r as [pa v].
  apply V2_acessar_Ok in Hac as (q & s1 & d & b & Hr & -> & _).
  apply Inv_resolve in Hr as [Hinv1 Hq]; [|by destruct Hinv].
  apply Inv_tocado; [done|]. by rewrite Hq.
Qed.

Lemma V2_reachable_Inv s : V2.reachable_v2 s → Inv s.
Proof.
  induction 1 as [fs n alg s Hi|s va r s' _ IH Hac].
  - by eapply Inv_init.
  - by eapply V2_Inv_acessar.
Qed.

(** X19. simulador_v2.py keeps the same consistency between its
    structures: in every state of a run a TLB entry names a valid
    page-table entry with the same frame, the TLB has at most 16
    entries, a valid page is the page its frame holds (so valid pages
    have distinct frames), and that frame holds the 256 bytes of the
    page. *)
Theorem V2_structures_stay_consistent s :
  V2.reachable_v2 s →
  (∀ e, e ∈ tlb s → pagina_valida (page_table s) (tlb_pagina e) = Some (tlb_quadro e)) ∧
  (length (tlb s) ≤ 16)%nat ∧
  (∀ p f, pagina_valida (page_table s) p = Some f ↔ quadros s !! f = Some (Some p)) ∧
  (∀ p1 p2 f, pagina_valida (page_table s) p1 = Some f →
              pagina_valida (page_table s) p2 = Some f → p1 = p2) ∧
  (∀ p f, pagina_valida (page_table s) p = Some f →
     0 ≤ p ∧ (f < num_quadros s)%nat ∧
     ∃ page_data, physical_memory s !! f = Some (Some page_data) ∧
       length page_data = 256%nat ∧
       ∀ i, (i < 256)%nat →
         page_data !! i = backing_store s !! (Z.to_nat p * 256 + i)%nat).
Proof.
  intros Hinv%V2_reachable_Inv. destruct (inv_core _ Hinv) as [Ht Hsz Hq Hm Hlen].
  split_and!; try done.
  - intros p1 p2 f H1%Hq H2%Hq. congruence.
  - intros p f Hv. destruct (Hm p f Hv) as [Hpm Hl].
    pose proof (proj1 (loadable_iff _ _) Hl) as [Hp _].
    split; [done|]. split.
    { apply Hq in Hv. apply lookup_lt_Some in Hv. by rewrite (inv_num _ Hinv) in Hv. }
    exists (read_at (backing_store s) p). split; [done|]. split.
    + destruct Hl as [_ Hl]. unfold page_size in Hl. lia.
    + intros i Hi. by apply read_at_lookup.
Qed.

(** ** What simulador_v2.py returns, and where it stops *)

Lemma V2_recompose va :
  0 ≤ V2.obter_offset va < 256 ∧
  V2.obter_pagina va * 256 + V2.obter_offset va = va.
Proof.
  unfold V2.obter_pagina, V2.obter_offset, offset_bits.
  change (Z.shiftl 1 8 - 1) with (Z.ones 8). rewrite Z.land_ones by lia.
  rewrite Z.shiftr_div_pow2 by lia. change (2 ^ 8) with 256.
  pose proof (Z.mod_pos_bound va 256). pose proof (Z.div_mod va 256). lia.
Qed.

(** X20. A request of simulador_v2.py that returns gives the byte of
    the backing store at position [va] itself, unsigned, and a physical
    address inside physical memory with the offset [va & 0xFF]; such a
    request has [va] non-negative and inside the file. *)
Theorem V2_acessar_reads_backing_store va s pa v s' :
  V2.reachable_v2 s → V2.acessar va s = Ok ((pa, v), s') →
  0 ≤ va < Z.of_nat (length (backing_store s)) ∧
  0 ≤ pa < Z.of_nat (num_quadros s) * 256 ∧ pa mod 256 = Z.land va 0xFF ∧
  0 ≤ v ≤ 255 ∧
  ∃ b, backing_store s !! Z.to_nat va = Some b ∧ v = byte_value b.
Proof.
  intros Hr%V2_reachable_Inv Hac.
  apply V2_acessar_Ok in Hac as (q & s1 & d & b & Hres & -> & Hpm & Hb & -> & ->).
  pose proof (resolve_config _ _ _ _ Hres) as (_ & Hn & Hstore). simpl in Hn, Hstore.
  apply Inv_resolve in Hres as [Hinv1 Hq]; [|by destruct Hr].
  destruct (tocado_config (V2.obter_pagina va) s1) as (_ & _ & _ & Hpm' & _).
  rewrite Hpm' in Hpm.
  destruct (core_memory _ _ _ _ _ (inv_core _ Hinv1) _ _ Hq) as [Hm Hl].
  rewrite Hm in Hpm. simplify_eq.
  apply loadable_iff in Hl as [Hp Hlen].
  destruct (V2_recompose va) as [Ho Hrec].
  assert (q < num_quadros s)%nat as Hqn.
  { apply (core_quadros _ _ _ _ _ (inv_core _ Hinv1)) in Hq.
    apply lookup_lt_Some in Hq. rewrite (inv_num _ Hinv1) in Hq. lia. }
  assert (Z.lor (Z.shiftl (Z.of_nat q) offset_bits) (V2.obter_offset va)
          = Z.of_nat q * 256 + V2.obter_offset va) as ->.
  { unfold offset_bits. apply lor_shiftl_add. lia. }
  pose proof (byte_value_range b).
  rewrite Hstore in Hlen.
  split_and!; try lia.
  - rewrite Z.add_comm, Z.mod_add by lia. rewrite Z.mod_small by lia. done.
  - exists b. split; [|done].
    rewrite read_at_lookup in Hb by lia. rewrite <-Hstore, <-Hb. f_equal. lia.
Qed.

Lemma V2_acessar_falta_Raise va s e :
  buscar (V2.obter_pagina va) (tlb s) = None →
  pagina_valida (page_table s) (V2.obter_pagina va) = None →
  tratar_page_fault (V2.obter_pagina va) (incr_page_faults (incr_acessos_clock s))
    = Raise e →
  V2.acessar va s = Raise e.
Proof.
  intros Hb Hv Hf. unfold V2.acessar. cbv zeta.
  unfold buscar_na_tlb. run_monad.
  change (tlb (incr_acessos_clock s)) with (tlb s). rewrite Hb.
  change (page_table (incr_acessos_clock s)) with (page_table s). rewrite Hv.
  by rewrite Hf.
Qed.

Lemma instala_negativo p q s :
  p < 0 → instala p q s = Raise OSError.
Proof.
  intros Hp. unfold instala, carrega_pagina. run_monad.
  by rewrite decide_True by (unfold page_size; lia).
Qed.

Lemma tratar_page_fault_negativo p s :
  Inv s → politica_conhecida s → (1 ≤ num_quadros s)%nat → p < 0 →
  tratar_page_fault p s = Raise OSError.
Proof.
  intros Hinv Hpol Hn Hp. unfold tratar_page_fault. run_monad.
  destruct (index_None (quadros s)) as [q|] eqn:Hidx.
  { by rewrite instala_negativo. }
  destruct (residente_exists s Hinv Hn Hidx) as [p0 Hp0].
  assert (∀ v, is_Some (pagina_valida (page_table s) v) →
            ∃ info, page_table s !! v = Some info) as Hres.
  { intros v [f Hf%pagina_valida_Some]. eauto. }
  destruct Hpol as [Halg|Halg].
  - rewrite decide_True by done.
    unfold substituicao_fifo, page_table_getitem, remover_da_tlb. run_monad.
    destruct (fifo_queue s) as [|v resto] eqn:Hq.
    { assert (p0 ∈ fifo_queue s) as Hin by (apply (inv_fifo _ Hinv Halg); eauto).
      rewrite Hq in Hin. by apply elem_of_nil in Hin. }
    destruct (Hres v) as [info Hinfo].
    { apply (inv_fifo _ Hinv Halg). rewrite Hq. apply list_elem_of_here. }
    simpl. rewrite Hinfo. by rewrite instala_negativo.
  - rewrite decide_False by congruence. rewrite decide_True by done.
    unfold substituicao_lru, page_table_getitem, remover_da_tlb. run_monad.
    destruct (py_min_is_Ok (uso_recente s)) as [v Hmin].
    { intros Hnil. assert (p0 ∈ (uso_recente s).*1) as Hin
        by (apply (inv_lru _ Hinv Halg); eauto).
      rewrite Hnil in Hin. by apply elem_of_nil in Hin. }
    rewrite Hmin. pose proof (py_min_in _ _ Hmin) as Hvin.
    destruct (Hres v) as [info Hinfo]; [by apply (inv_lru _ Hinv Halg)|].
    rewrite Hinfo. simpl.
    assert (is_Some (dict_get v (uso_recente s))) as [t Ht] by (by apply dict_get_is_Some).
    unfold dict_del. rewrite Ht. by rewrite instala_negativo.
Qed.

(** X21. simulador_v2.py does not wrap addresses.  With a known policy
    and at least one frame, a negative address down to [offset_min] fails
    in the seek ([OSError]) and an address up to [offset_max] that is at
    or past the end of a backing store of whole pages exits with the read
    error of page [va >> 8]; simulador_v3.py answers every address over
    a store of 65536 bytes or more. *)
Theorem V2_acessar_outside_the_store va s :
  V2.reachable_v2 s → politica_conhecida s → (1 ≤ num_quadros s)%nat →
  (offset_min ≤ va < 0 → V2.acessar va s = Raise OSError) ∧
  (Z.of_nat (length (backing_store s)) mod 256 = 0 →
   Z.of_nat (length (backing_store s)) ≤ va ≤ offset_max →
   V2.acessar va s = Raise (SystemExit (ErroLerPagina (Z.shiftr va 8)))) ∧
  (65536 ≤ Z.of_nat (length (backing_store s)) → ∃ r s', acessar va s = Ok (r, s')).
Proof.
  intros Hinv%V2_reachable_Inv Hpol Hn.
  destruct (V2_recompose va) as [Ho Hrec].
  assert (¬ loadable (backing_store s) (V2.obter_pagina va) →
          pagina_valida (page_table s) (V2.obter_pagina va) = None) as Hnv.
  { intros Hl. destruct (pagina_valida _ _) as [f|] eqn:Hv; [|done].
    destruct Hl. by apply (core_memory _ _ _ _ _ (inv_core _ Hinv) _ _ Hv). }
  split_and!.
  - intros [_ Hva]. assert (V2.obter_pagina va < 0) as Hp by lia.
    assert (pagina_valida (page_table s) (V2.obter_pagina va) = None) as Hv.
    { apply Hnv. rewrite loadable_iff. lia. }
    apply V2_acessar_falta_Raise; [by apply Inv_invalid_not_in_tlb|done|].
    apply tratar_page_fault_negativo; [by destruct Hinv|done..].
  - intros Hmod [Hva _].
    change (Z.shiftr va 8) with (V2.obter_pagina va).
    assert (0 ≤ V2.obter_pagina va) as Hp by lia.
    assert (¬ loadable (backing_store s) (V2.obter_pagina va)) as Hl.
    { rewrite loadable_iff. intros [_ Hlen].
      pose proof (Z.div_mod (Z.of_nat (length (backing_store s))) 256). lia. }
    apply V2_acessar_falta_Raise; [by apply Inv_invalid_not_in_tlb; auto|auto|].
    apply tratar_page_fault_short; [by destruct Hinv|done..].
  - intros Hlen. apply acessar_progress; [done..|].
    apply loadable_iff. pose proof (split_range va). lia.
Qed.

(** ** As many frames as pages *)

Lemma quadro_livre_256 s p :
  reachable s → (256 ≤ num_quadros s)%nat → 0 ≤ p < 256 →
  pagina_valida (page_table s) p = None →
  is_Some (index_None (quadros s)).
Proof.
  intros Hr Hn Hp Hv. pose proof (reachable_Inv s Hr) as Hinv.
  destruct (index_None (quadros s)) as [q|] eqn:Hidx; [by eexists|]. exfalso.
  pose proof (omap_id_cheio _ Hidx) as Hlen. rewrite (inv_num _ Hinv) in Hlen.
  pose proof (core_quadros _ _ _ _ _ (inv_core _ Hinv)) as Hq.
  assert (NoDup (p :: omap id (quadros s))) as Hnd.
  { apply NoDup_cons. split.
    - intros [i Hi%Hq]%elem_of_omap_id. congruence.
    - apply NoDup_omap_id. intros i j p' Hi%Hq Hj%Hq. congruence. }
  assert (p :: omap id (quadros s) ⊆ seqZ 0 256) as Hsub.
  { intros x [->|[i Hi%Hq]%elem_of_omap_id]%elem_of_cons; apply elem_of_seqZ.
    - lia.
    - pose proof (residentes_em_faixa s x i Hr Hi). lia. }
  apply NoDup_submseteq in Hsub; [|done]. apply submseteq_length in Hsub.
  rewrite length_seqZ in Hsub. simpl in Hsub. lia.
Qed.

(** X22. With 256 frames or more nothing is ever replaced: no request
    has a victim, every page-table entry stays valid, the number of page
    faults is the number of pages in the page table (each page faults
    once, at its first use) and never exceeds 256. *)
Theorem no_replacement_with_256_frames s :
  reachable s → (256 ≤ num_quadros s)%nat →
  (∀ va, vitima s va = None) ∧
  (∀ p info, page_table s !! p = Some info → valido info = true) ∧
  page_faults s = Z.of_nat (size (page_table s)) ∧
  page_faults s ≤ 256.
Proof.
  intros Hr Hn.
  assert (∀ va, vitima s va = None) as Hvit.
  { intros va. unfold vitima.
    destruct (buscar _ (tlb s)); [done|].
    destruct (pagina_valida (page_table s) (split va).1) eqn:Hv; [done|].
    destruct (quadro_livre_256 s (split va).1 Hr Hn) as [q ->];
      [apply split_range|done|done]. }
  assert ((∀ p info, page_table s !! p = Some info → valido info = true) ∧
          page_faults s = Z.of_nat (size (page_table s))) as [Hval Hpf].
  { clear Hvit. induction Hr as [fs n alg s Hi|s va r s' Hr IH Hac].
    - destruct fs; simplify_eq/=. split; [|by rewrite map_size_empty].
      intros p info Hp. by rewrite lookup_empty in Hp.
    - pose proof (reachable_Inv s Hr) as Hinv.
      destruct (acessar_config _ _ _ _ Hac) as (_ & Hn' & _). rewrite Hn' in Hn.
      destruct (IH Hn) as [IHv IHf].
      destruct (pagina_valida (page_table s) (split va).1) as [f|] eqn:Hv.
      { destruct (acessar_sem_falta va s r s' f Hinv Hac Hv) as (-> & _ & _ & _ & -> & _).
        done. }
      destruct (quadro_livre_256 s (split va).1 Hr Hn) as [q Hidx];
        [apply split_range|done|].
      destruct (acessar_quadro_livre va s r s' q Hinv Hac Hv Hidx)
        as (-> & _ & _ & _ & _ & _ & -> & _).
      assert (page_table s !! (split va).1 = None) as Hnone.
      { destruct (page_table s !! (split va).1) as [info|] eqn:Hl; [|done].
        pose proof (IHv _ _ Hl) as Hvalid.
        unfold pagina_valida in Hv. rewrite Hl, Hvalid in Hv. done. }
      split.
      + intros p info. destruct (decide (p = (split va).1)) as [->|Hne].
        * rewrite lookup_insert_eq. intros ?; by simplify_eq.
        * rewrite lookup_insert_ne by done. apply IHv.
      + rewrite map_size_insert_None by done. lia. }
  split_and!; try done.
  rewrite Hpf. pose proof (tamanho_page_table s Hr). lia.
Qed.

(** ** The added properties on the concrete run *)

Lemma acessar_counts_once_witness :
  acessos exemplo_fifo_depois = acessos exemplo_fifo + 1 ∧
  clock exemplo_fifo_depois = clock exemplo_fifo + 1 ∧
  match buscar (split 512).1 (tlb exemplo_fifo),
        pagina_valida (page_table exemplo_fifo) (split 512).1 with
  | Some _, _ => tlb_hits exemplo_fifo_depois = tlb_hits exemplo_fifo + 1 ∧
                 page_faults exemplo_fifo_depois = page_faults exemplo_fifo
  | None, Some _ => tlb_hits exemplo_fifo_depois = tlb_hits exemplo_fifo ∧
                    page_faults exemplo_fifo_depois = page_faults exemplo_fifo
  | None, None => tlb_hits exemplo_fifo_depois = tlb_hits exemplo_fifo ∧
                  page_faults exemplo_fifo_depois = page_faults exemplo_fifo + 1
  end.
Proof.
  apply (acessar_counts_once 512 exemplo_fifo (0, -54) exemplo_fifo_depois).
  by vm_compute.
Defined.

Lemma counters_consistent_witness :
  acessos exemplo_fifo_depois = clock exemplo_fifo_depois ∧
  0 ≤ tlb_hits exemplo_fifo_depois ∧ 0 ≤ page_faults exemplo_fifo_depois ∧
  tlb_hits exemplo_fifo_depois + page_faults exemplo_fifo_depois
    ≤ acessos exemplo_fifo_depois ∧
  Z.of_nat (size (page_table exemplo_fifo_depois)) ≤ page_faults exemplo_fifo_depois.
Proof.
  apply (counters_consistent exemplo_fifo_depois).
  apply estado_apos_reachable.
Defined.

Lemma acessar_todos_counts_witness :
  length [(0, -56); (256, -55); (0, -54)] = length [0; 256; 512] ∧
  acessos exemplo_fifo_depois =
    acessos (inicial store_exemplo 2 "FIFO") + Z.of_nat (length [0; 256; 512]) ∧
  tlb_hits (inicial store_exemplo 2 "FIFO") ≤ tlb_hits exemplo_fifo_depois ∧
  page_faults (inicial store_exemplo 2 "FIFO") ≤ page_faults exemplo_fifo_depois ∧
  (tlb_hits exemplo_fifo_depois - tlb_hits (inicial store_exemplo 2 "FIFO")) +
  (page_faults exemplo_fifo_depois - page_faults (inicial store_exemplo 2 "FIFO"))
    ≤ Z.of_nat (length [0; 256; 512]).
Proof.
  apply (acessar_todos_counts [0; 256; 512] (inicial store_exemplo 2 "FIFO")
           [(0, -56); (256, -55); (0, -54)] exemplo_fifo_depois).
  by vm_compute.
Defined.

Lemma tlb_has_no_duplicates_witness :
  NoDup (tlb_pagina <$> tlb exemplo_fifo_depois) ∧
  NoDup (tlb_quadro <$> tlb exemplo_fifo_depois).
Proof.
  apply (tlb_has_no_duplicates exemplo_fifo_depois).
  apply estado_apos_reachable.
Defined.

Lemma frames_used_in_index_order_witness :
  length (quadros exemplo_livre) = num_quadros exemplo_livre ∧
  (∀ i j, (i ≤ j)%nat → quadros exemplo_livre !! i = Some None →
          (j < num_quadros exemplo_livre)%nat →
          quadros exemplo_livre !! j = Some None) ∧
  (∀ q, index_None (quadros exemplo_livre) = Some q →
        (∀ i, (i < q)%nat → ∃ p, quadros exemplo_livre !! i = Some (Some p)) ∧
        (∀ j, (q ≤ j)%nat → (j < num_quadros exemplo_livre)%nat →
              quadros exemplo_livre !! j = Some None)) ∧
  (∀ i, physical_memory exemplo_livre !! i = Some None ↔
        quadros exemplo_livre !! i = Some None).
Proof.
  apply (frames_used_in_index_order exemplo_livre).
  apply estado_apos_reachable.
Defined.

Lemma acessar_changes_one_frame_witness :
  length (quadros exemplo_fifo_depois) = length (quadros exemplo_fifo) ∧
  (∀ i p, quadros exemplo_fifo !! i = Some (Some p) →
          ∃ p', quadros exemplo_fifo_depois !! i = Some (Some p')) ∧
  (∀ x, is_Some (page_table exemplo_fifo !! x) →
        is_Some (page_table exemplo_fifo_depois !! x)) ∧
  (is_Some (pagina_valida (page_table exemplo_fifo) (split 512).1) →
     quadros exemplo_fifo_depois = quadros exemplo_fifo ∧
     physical_memory exemplo_fifo_depois = physical_memory exemplo_fifo ∧
     page_table exemplo_fifo_depois = page_table exemplo_fifo) ∧
  (pagina_valida (page_table exemplo_fifo) (split 512).1 = None →
     ∃ q, (index_None (quadros exemplo_fifo) = Some q ∨
           (index_None (quadros exemplo_fifo) = None ∧
            ∃ v, vitima exemplo_fifo 512 = Some v ∧
              quadros exemplo_fifo !! q = Some (Some v) ∧
              page_table exemplo_fifo_depois !! v
                = Some {| quadro := q; valido := false |})) ∧
          quadros exemplo_fifo_depois = <[q := Some (split 512).1]> (quadros exemplo_fifo) ∧
          physical_memory exemplo_fifo_depois =
            <[q := Some (read_at (backing_store exemplo_fifo) (split 512).1)]>
              (physical_memory exemplo_fifo)).
Proof.
  apply (acessar_changes_one_frame 512 exemplo_fifo (0, -54) exemplo_fifo_depois).
  - apply estado_apos_reachable.
  - by vm_compute.
Defined.

Lemma pages_within_address_space_witness :
  (∀ p, is_Some (page_table exemplo_fifo_depois !! p) → 0 ≤ p < 256) ∧
  (∀ e, e ∈ tlb exemplo_fifo_depois → 0 ≤ tlb_pagina e < 256) ∧
  (∀ i p, quadros exemplo_fifo_depois !! i = Some (Some p) → 0 ≤ p < 256) ∧
  (size (page_table exemplo_fifo_depois) ≤ 256)%nat.
Proof.
  apply (pages_within_address_space exemplo_fifo_depois).
  apply estado_apos_reachable.
Defined.

Lemma bookkeeping_is_the_frame_contents_witness :
  NoDup (omap id (quadros exemplo_fifo_depois)) ∧
  (length (omap id (quadros exemplo_fifo_depois)) ≤ num_quadros exemplo_fifo_depois)%nat ∧
  (algoritmo exemplo_fifo_depois = "FIFO"%string →
     fifo_queue exemplo_fifo_depois ≡ₚ omap id (quadros exemplo_fifo_depois) ∧
     uso_recente exemplo_fifo_depois = []) ∧
  (algoritmo exemplo_fifo_depois = "LRU"%string →
     (uso_recente exemplo_fifo_depois).*1 ≡ₚ omap id (quadros exemplo_fifo_depois) ∧
     fifo_queue exemplo_fifo_depois = []) ∧
  (¬ politica_conhecida exemplo_fifo_depois →
     fifo_queue exemplo_fifo_depois = [] ∧ uso_recente exemplo_fifo_depois = []).
Proof.
  apply (bookkeeping_is_the_frame_contents exemplo_fifo_depois).
  apply estado_apos_reachable.
Defined.

Lemma acessar_fails_only_on_short_read_witness :
  acessar 5120 exemplo_fifo = Raise (SystemExit (ErroLerPagina 20)) ↔
  pagina_valida (page_table exemplo_fifo) (split 5120).1 = None ∧
  ¬ loadable (backing_store exemplo_fifo) (split 5120).1 ∧
  SystemExit (ErroLerPagina 20) = SystemExit (ErroLerPagina (split 5120).1).
Proof.
  apply (acessar_fails_only_on_short_read 5120 exemplo_fifo
           (SystemExit (ErroLerPagina 20))).
  - apply estado_apos_reachable.
  - left. by vm_compute.
  - vm_compute. lia.
Defined.

Lemma run_returns_the_bytes_of_the_store_witness :
  Forall2 (λ va r,
     0 ≤ r.1 < Z.of_nat (num_quadros (inicial store_exemplo 2 "FIFO")) * 256 ∧
     r.1 mod 256 = Z.land va 0xFF ∧
     ∃ b, backing_store (inicial store_exemplo 2 "FIFO")
            !! Z.to_nat (Z.land va 0xFFFF) = Some b ∧
          r.2 = signed (byte_value b))
    [0; 256; 512] [(0, -56); (256, -55); (0, -54)].
Proof.
  apply (run_returns_the_bytes_of_the_store [0; 256; 512]
           (inicial store_exemplo 2 "FIFO")
           [(0, -56); (256, -55); (0, -54)] exemplo_fifo_depois).
  - by apply (reachable_init (Some store_exemplo) 2 "FIFO").
  - by vm_compute.
Defined.

Lemma values_do_not_depend_on_policy_witness :
  [(0, -56); (256, -55); (0, -56); (0, -54); (1, -54); (256, -56)].*2 =
  [(0, -56); (256, -55); (0, -56); (512, -54); (513, -54); (0, -56)].*2.
Proof.
  apply (values_do_not_depend_on_policy [0; 256; 0; 512; 513; 0]
           (inicial store_exemplo 2 "FIFO") (inicial store_exemplo 3 "LRU")
           [(0, -56); (256, -55); (0, -56); (0, -54); (1, -54); (256, -56)]
           [(0, -56); (256, -55); (0, -56); (512, -54); (513, -54); (0, -56)]
           (estado_apos "FIFO" 2 [0; 256; 0; 512; 513; 0])
           (estado_apos "LRU" 3 [0; 256; 0; 512; 513; 0])).
  - by apply (reachable_init (Some store_exemplo) 2 "FIFO").
  - by apply (reachable_init (Some store_exemplo) 3 "LRU").
  - reflexivity.
  - by vm_compute.
  - by vm_compute.
Defined.

Lemma acessar_without_frames_witness :
  acessar 0 (inicial store_exemplo 0 "LRU") =
    Raise (if decide (algoritmo (inicial store_exemplo 0 "LRU") = "FIFO"%string)
           then IndexError
           else if decide (algoritmo (inicial store_exemplo 0 "LRU") = "LRU"%string)
           then ValueError
           else SystemExit AlgoritmoInvalido).
Proof.
  apply (acessar_without_frames 0 (inicial store_exemplo 0 "LRU")).
  - by apply (reachable_init (Some store_exemplo) 0 "LRU").
  - reflexivity.
Defined.

Lemma acessar_with_unknown_policy_witness :
  (pagina_valida (page_table (estado_apos "XYZ" 1 [0])) (split 256).1 = None →
   index_None (quadros (estado_apos "XYZ" 1 [0])) = None →
   acessar 256 (estado_apos "XYZ" 1 [0]) = Raise (SystemExit AlgoritmoInvalido)) ∧
  (∀ r s', acessar 256 (estado_apos "XYZ" 1 [0]) = Ok (r, s') →
     ∀ p f, pagina_valida (page_table (estado_apos "XYZ" 1 [0])) p = Some f →
            pagina_valida (page_table s') p = Some f).
Proof.
  apply (acessar_with_unknown_policy 256 (estado_apos "XYZ" 1 [0])).
  - apply estado_apos_reachable.
  - intros [H|H]; vm_compute in H; discriminate.
Defined.

Lemma lru_spares_the_page_just_used_witness : 1 ≠ (split 0).1.
Proof.
  apply (lru_spares_the_page_just_used 0 512 exemplo_lru (0, -56) exemplo_lru_depois 1).
  - apply estado_apos_reachable.
  - by vm_compute.
  - vm_compute. lia.
  - by vm_compute.
  - by vm_compute.
Defined.

Lemma V2_acessar_agrees_below_65536_witness :
  (∀ pa y s', V2.acessar 4660 (inicial store_exemplo 4 "FIFO") = Ok ((pa, y), s') ↔
              0 ≤ y < 256 ∧
              acessar 4660 (inicial store_exemplo 4 "FIFO") = Ok ((pa, signed y), s')) ∧
  (∀ pa x s', acessar 4660 (inicial store_exemplo 4 "FIFO") = Ok ((pa, x), s') →
              ∃ y, x = signed y ∧
                   V2.acessar 4660 (inicial store_exemplo 4 "FIFO") = Ok ((pa, y), s')).
Proof.
  apply (V2_acessar_agrees_below_65536 4660 (inicial store_exemplo 4 "FIFO")).
  lia.
Defined.

Lemma V2_reachable_exemplo : V2.reachable_v2 exemplo_v2.
Proof.
  apply (V2.reachable_v2_acessar (inicial store_exemplo 4 "FIFO") 4660 (52, 218)).
  - by apply (V2.reachable_v2_init (Some store_exemplo) 4 "FIFO").
  - by vm_compute.
Qed.

Lemma V2_structures_stay_consistent_witness :
  (∀ e, e ∈ tlb exemplo_v2 →
        pagina_valida (page_table exemplo_v2) (tlb_pagina e)
          = Some (tlb_quadro e)) ∧
  (length (tlb exemplo_v2) ≤ 16)%nat ∧
  (∀ p f, pagina_valida (page_table exemplo_v2) p = Some f ↔
          quadros exemplo_v2 !! f = Some (Some p)) ∧
  (∀ p1 p2 f, pagina_valida (page_table exemplo_v2) p1 = Some f →
              pagina_valida (page_table exemplo_v2) p2 = Some f →
              p1 = p2) ∧
  (∀ p f, pagina_valida (page_table exemplo_v2) p = Some f →
     0 ≤ p ∧ (f < num_quadros exemplo_v2)%nat ∧
     ∃ page_data,
       physical_memory exemplo_v2 !! f = Some (Some page_data) ∧
       length page_data = 256%nat ∧
       ∀ i, (i < 256)%nat →
         page_data !! i
           = backing_store exemplo_v2 !! (Z.to_nat p * 256 + i)%nat).
Proof.
  apply (V2_structures_stay_consistent exemplo_v2).
  apply V2_reachable_exemplo.
Defined.

Lemma V2_acessar_reads_backing_store_witness :
  0 ≤ 4660 < Z.of_nat (length (backing_store (inicial store_exemplo 4 "FIFO"))) ∧
  0 ≤ 52 < Z.of_nat (num_quadros (inicial store_exemplo 4 "FIFO")) * 256 ∧
  52 mod 256 = Z.land 4660 0xFF ∧
  0 ≤ 218 ≤ 255 ∧
  ∃ b, backing_store (inicial store_exemplo 4 "FIFO") !! Z.to_nat 4660 = Some b ∧
       218 = byte_value b.
Proof.
  apply (V2_acessar_reads_backing_store 4660 (inicial store_exemplo 4 "FIFO") 52 218
           exemplo_v2).
  - by apply (V2.reachable_v2_init (Some store_exemplo) 4 "FIFO").
  - by vm_compute.
Defined.

Lemma V2_acessar_outside_the_store_witness :
  (offset_min ≤ 5120 < 0 → V2.acessar 5120 exemplo_v2 = Raise OSError) ∧
  (Z.of_nat (length (backing_store exemplo_v2)) mod 256 = 0 →
   Z.of_nat (length (backing_store exemplo_v2)) ≤ 5120 ≤ offset_max →
   V2.acessar 5120 exemplo_v2
     = Raise (SystemExit (ErroLerPagina (Z.shiftr 5120 8)))) ∧
  (65536 ≤ Z.of_nat (length (backing_store exemplo_v2)) →
   ∃ r s', acessar 5120 exemplo_v2 = Ok (r, s')).
Proof.
  apply (V2_acessar_outside_the_store 5120 exemplo_v2).
  - apply V2_reachable_exemplo.
  - left. by vm_compute.
  - vm_compute. lia.
Defined.

Lemma no_replacement_with_256_frames_witness :
  (∀ va, vitima (estado_apos "LRU" 256 [0; 256; 0]) va = None) ∧
  (∀ p info, page_table (estado_apos "LRU" 256 [0; 256; 0]) !! p = Some info →
             valido info = true) ∧
  page_faults (estado_apos "LRU" 256 [0; 256; 0])
    = Z.of_nat (size (page_table (estado_apos "LRU" 256 [0; 256; 0]))) ∧
  page_faults (estado_apos "LRU" 256 [0; 256; 0]) ≤ 256.
Proof.
  apply (no_replacement_with_256_frames (estado_apos "LRU" 256 [0; 256; 0])).
  - apply estado_apos_reachable.
  - vm_compute. lia.
Defined.
